(** * Buscador local de archivos: a shallow embedding of
    [Buscador_Archivos_Local.py] and the properties of its index, filter,
    scoring and tagging code.

    The program keeps two SQLite tables, [archivos] and [tags], fills the
    first by walking a directory, and answers fuzzy searches with
    [difflib.SequenceMatcher].  The tables are modelled as lists of rows in
    scan order, SQL statements as functions on them (with their conflict
    clauses), what is printed as a list of messages, floats as the
    rationals they stand for, and [SequenceMatcher.ratio] and
    [get_close_matches], which the search of the menu calls, by a
    transcription of CPython's [Lib/difflib.py].  What the program takes
    from its surroundings is a parameter: [str.lower], the parsing of
    dates, the file system with [pathlib], and the order in which SQLite
    returns rows that tie under [ORDER BY]. *)

From Stdlib Require Import Ascii String QArith Qminmax Lqa.
From stdpp Require Import gmap gmultiset strings list sorting.
From Equations Require Import Equations.

Local Open Scope nat_scope.

(** ** difflib.SequenceMatcher

    [SequenceMatcher(None, a, b)]: no junk predicate, [autojunk] left at its
    default [True].  Sequences are lists over any hashable element type;
    indices and lengths are [nat]. *)

Module difflib.
Section SequenceMatcher.
Context {A : Type} `{Countable A}.
Implicit Types (a b : list A) (b2j : gmap A (list nat)) (j2len : gmap nat nat).

(** [Match(a=i, b=j, size=k)]. *)
Definition Match : Type := nat * nat * nat.
Definition m_a (m : Match) : nat := m.1.1.
Definition m_b (m : Match) : nat := m.1.2.
Definition m_size (m : Match) : nat := m.2.

(** [indices = b2j.setdefault(elt, []); indices.append(i)]. *)
Definition setdefault_append b2j (i : nat) (elt : A) : gmap A (list nat) :=
  <[elt := default [] (b2j !! elt) ++ [i]]> b2j.

(** The first loop of [__chain_b]: every element of [b] mapped to the
    ascending list of the positions where it occurs. *)
Definition index_b b : gmap A (list nat) :=
  foldl (fun b2j p => setdefault_append b2j p.1 p.2) ∅ (imap pair b).

(** [__chain_b].  With [isjunk = None] the junk set stays empty; with
    [autojunk] and [len(b) >= 200], the elements that occur more than
    [len(b) // 100 + 1] times are "popular" and deleted from [b2j]. *)
Definition chain_b b : gmap A (list nat) :=
  let b2j := index_b b in
  let n := length b in
  if decide (200 ≤ n) then
    let ntest := n `div` 100 + 1 in
    filter (fun kv => ¬ (ntest < length kv.2)) b2j
  else b2j.

(** [self.bjunk.__contains__] for the empty junk set. *)
Definition isbjunk (x : A) : bool := false.

(** [j2len.get(j-1, 0)]: at [j = 0] the key is [-1], which is never set. *)
Definition j2lenget_pred j2len (j : nat) : nat :=
  match j with
  | O => 0
  | S j' => default 0 (j2len !! j')
  end.

(** The inner [for j in b2j.get(a[i], nothing)] of [find_longest_match]:
    [continue] below [blo], [break] from [bhi] on. *)
Fixpoint scan_row j2len (i blo bhi : nat) (js : list nat)
    (newj2len : gmap nat nat) (best : Match) : gmap nat nat * Match :=
  match js with
  | [] => (newj2len, best)
  | j :: js' =>
    if decide (j < blo) then scan_row j2len i blo bhi js' newj2len best
    else if decide (bhi ≤ j) then (newj2len, best)
    else
      let k := j2lenget_pred j2len j + 1 in
      let best' := if decide (m_size best < k) then (i + 1 - k, j + 1 - k, k) else best in
      scan_row j2len i blo bhi js' (<[j := k]> newj2len) best'
  end.

(** One iteration of the outer [for i in range(alo, ahi)]. *)
Definition scan_step a b2j (blo bhi : nat) (st : gmap nat nat * Match) (i : nat)
    : gmap nat nat * Match :=
  let js := match a !! i with
            | Some x => default [] (b2j !! x)
            | None => []
            end in
  scan_row st.1 i blo bhi js ∅ st.2.

(** The whole junk-free search: [besti, bestj, bestsize] after the loop. *)
Definition scan_rows a b2j (alo ahi blo bhi : nat) : Match :=
  (foldl (scan_step a b2j blo bhi) (∅, (alo, blo, 0)) (seq alo (ahi - alo))).2.

(** [a[i] == b[j]] together with the test on [isbjunk(b[j])], which the four
    extension loops share; [junk] says which of the two kinds is wanted. *)
Definition same_elt (junk : bool) a b (i j : nat) : bool :=
  match a !! i, b !! j with
  | Some x, Some y => bool_decide (isbjunk y = junk) && bool_decide (x = y)
  | _, _ => false
  end.

(** [while besti > alo and bestj > blo and ... a[besti-1] == b[bestj-1]]. *)
Fixpoint extend_left (junk : bool) a b (alo blo besti bestj bestsize : nat) : Match :=
  match besti, bestj with
  | S i', S j' =>
    if bool_decide (alo < besti) && bool_decide (blo < bestj) && same_elt junk a b i' j'
    then extend_left junk a b alo blo i' j' (bestsize + 1)
    else (besti, bestj, bestsize)
  | _, _ => (besti, bestj, bestsize)
  end.

(** [while besti+bestsize < ahi and bestj+bestsize < bhi and ...
    a[besti+bestsize] == b[bestj+bestsize]], with [gap] the distance
    [ahi - (besti+bestsize)] that the first test of the guard looks at. *)
Fixpoint extend_right (junk : bool) a b (bhi besti bestj : nat) (gap bestsize : nat) : nat :=
  match gap with
  | O => bestsize
  | S gap' =>
    if bool_decide (bestj + bestsize < bhi)
       && same_elt junk a b (besti + bestsize) (bestj + bestsize)
    then extend_right junk a b bhi besti bestj gap' (bestsize + 1)
    else bestsize
  end.

(** One pair of extension loops, of the given kind. *)
Definition extend (junk : bool) a b (alo ahi blo bhi : nat) (m : Match) : Match :=
  let '(besti, bestj, bestsize) := extend_left junk a b alo blo (m_a m) (m_b m) (m_size m) in
  (besti, bestj, extend_right junk a b bhi besti bestj (ahi - (besti + bestsize)) bestsize).

(** [find_longest_match(alo, ahi, blo, bhi)]. *)
Definition find_longest_match a b b2j (alo ahi blo bhi : nat) : Match :=
  let m0 := scan_rows a b2j alo ahi blo bhi in
  let m1 := extend false a b alo ahi blo bhi m0 in
  extend true a b alo ahi blo bhi m1.

(** *** Where a match lies

    What [get_matching_blocks] needs to know of [find_longest_match] before
    its loop can be defined: the block found lies inside the region searched. *)

Definition block_in (alo ahi blo bhi : nat) (m : Match) : Prop :=
  alo ≤ m_a m ∧ blo ≤ m_b m ∧
  (m_size m = 0 → m_a m = alo ∧ m_b m = blo) ∧
  (0 < m_size m → m_a m + m_size m ≤ ahi ∧ m_b m + m_size m ≤ bhi).

(** The run lengths recorded for row [i - 1] fit between the region's corner
    and the cell they end at. *)
Definition j2len_fits (alo blo i : nat) j2len : Prop :=
  ∀ j v, j2len !! j = Some v → v + alo ≤ i ∧ v + blo ≤ j + 1.

Lemma foldl_seq_invariant {St : Type} (P : nat → St → Prop) (f : St → nat → St)
    (lo len : nat) (s0 : St) :
  P lo s0 →
  (∀ i s, lo ≤ i < lo + len → P i s → P (i + 1) (f s i)) →
  P (lo + len) (foldl f s0 (seq lo len)).
Proof.
  revert lo s0. induction len as [|len IH]; intros lo s0 H0 Hstep; simpl.
  - by rewrite Nat.add_0_r.
  - replace (lo + S len) with (S lo + len) by lia.
    apply IH.
    + replace (S lo) with (lo + 1) by lia. apply Hstep; [lia|done].
    + intros i s Hi. apply Hstep. lia.
Qed.

Lemma j2lenget_pred_fits alo blo i j2len j :
  j2len_fits alo blo i j2len → alo ≤ i → blo ≤ j →
  j2lenget_pred j2len j + 1 + alo ≤ i + 1 ∧ j2lenget_pred j2len j + 1 + blo ≤ j + 1.
Proof.
  intros Hfit Hi Hj. destruct j as [|j']; simpl; [lia|].
  destruct (j2len !! j') as [v|] eqn:E; simpl; [|lia].
  destruct (Hfit _ _ E). lia.
Qed.

Lemma scan_row_fits alo ahi blo bhi i j2len js newj2len best :
  alo ≤ i < ahi →
  j2len_fits alo blo i j2len →
  j2len_fits alo blo (i + 1) newj2len →
  block_in alo ahi blo bhi best →
  j2len_fits alo blo (i + 1) (scan_row j2len i blo bhi js newj2len best).1 ∧
  block_in alo ahi blo bhi (scan_row j2len i blo bhi js newj2len best).2.
Proof.
  intros Hi Hold. revert newj2len best.
  induction js as [|j js IH]; intros newj2len best Hnew Hbest; simpl; [done|].
  destruct (decide (j < blo)); [by apply IH|].
  destruct (decide (bhi ≤ j)); [done|].
  destruct (j2lenget_pred_fits alo blo i j2len j Hold) as [Hk1 Hk2]; [lia..|].
  apply IH.
  - intros j0 v. rewrite lookup_insert. case_decide; [|by apply Hnew].
    intros [= <-]. lia.
  - destruct (decide (m_size best < _)); [|done].
    unfold block_in, m_a, m_b, m_size; simpl. lia.
Qed.

Lemma scan_rows_in a b2j alo ahi blo bhi :
  block_in alo ahi blo bhi (scan_rows a b2j alo ahi blo bhi).
Proof.
  unfold scan_rows.
  pose (P := fun (i : nat) (st : gmap nat nat * Match) =>
               j2len_fits alo blo i st.1 ∧ block_in alo ahi blo bhi st.2).
  enough (P (alo + (ahi - alo)) (foldl (scan_step a b2j blo bhi) (∅, (alo, blo, 0))
            (seq alo (ahi - alo)))) as HP by apply HP.
  apply foldl_seq_invariant.
  - split; [intros j v; simpl; by rewrite lookup_empty|].
    unfold block_in, m_a, m_b, m_size; simpl. lia.
  - intros i [j2len best] Hi [Hfit Hbest]. unfold P, scan_step; simpl in *.
    apply scan_row_fits; [lia|done| |done].
    intros j v. by rewrite lookup_empty.
Qed.

Lemma extend_left_spec junk a b alo blo besti bestj bestsize :
  ∃ d, extend_left junk a b alo blo besti bestj bestsize
         = (besti - d, bestj - d, bestsize + d)
       ∧ (alo ≤ besti → alo ≤ besti - d) ∧ (blo ≤ bestj → blo ≤ bestj - d)
       ∧ d ≤ besti ∧ d ≤ bestj
       ∧ (∀ t, t < d → same_elt junk a b (besti - d + t) (bestj - d + t) = true).
Proof.
  revert bestj bestsize. induction besti as [|i' IH]; intros bestj bestsize.
  - exists 0. simpl. destruct bestj; rewrite ?Nat.add_0_r; repeat split; auto; lia.
  - destruct bestj as [|j'].
    + exists 0. simpl. rewrite Nat.add_0_r. repeat split; auto; lia.
    + simpl.
      destruct (bool_decide (alo < S i') && bool_decide (blo < S j') && same_elt junk a b i' j') eqn:E.
      * apply andb_prop in E as [E Hsame]. apply andb_prop in E as [Ha Hb].
        apply bool_decide_eq_true in Ha, Hb.
        destruct (IH j' (bestsize + 1)) as (d & -> & Hi & Hj & Hdi & Hdj & Hrun).
        exists (S d). split; [by replace (bestsize + 1 + d) with (bestsize + S d) by lia|].
        split; [lia|]. split; [lia|]. split; [lia|]. split; [lia|].
        intros t Ht. destruct (decide (t = d)) as [->|].
        -- replace (S i' - S d + d) with i' by lia.
           by replace (S j' - S d + d) with j' by lia.
        -- replace (S i' - S d + t) with (i' - d + t) by lia.
           replace (S j' - S d + t) with (j' - d + t) by lia.
           apply Hrun. lia.
      * exists 0. rewrite Nat.add_0_r. repeat split; auto; lia.
Qed.

Lemma extend_right_spec junk a b bhi besti bestj gap bestsize :
  ∃ d, extend_right junk a b bhi besti bestj gap bestsize = bestsize + d
       ∧ d ≤ gap ∧ (0 < d → bestj + bestsize + d ≤ bhi)
       ∧ (∀ t, t < d → same_elt junk a b (besti + bestsize + t) (bestj + bestsize + t) = true).
Proof.
  revert bestsize. induction gap as [|gap IH]; intros bestsize; simpl.
  - exists 0. repeat split; auto; lia.
  - destruct (bool_decide (bestj + bestsize < bhi)
              && same_elt junk a b (besti + bestsize) (bestj + bestsize)) eqn:E.
    + apply andb_prop in E as [Hb Hsame]. apply bool_decide_eq_true in Hb.
      destruct (IH (bestsize + 1)) as (d & -> & Hd & Hbhi & Hrun).
      exists (S d). split; [lia|]. split; [lia|]. split; [lia|].
      intros [|t] Ht.
      * by rewrite !Nat.add_0_r.
      * replace (besti + bestsize + S t) with (besti + (bestsize + 1) + t) by lia.
        replace (bestj + bestsize + S t) with (bestj + (bestsize + 1) + t) by lia.
        apply Hrun. lia.
    + exists 0. repeat split; auto; lia.
Qed.

Lemma extend_in junk a b alo ahi blo bhi m :
  block_in alo ahi blo bhi m → block_in alo ahi blo bhi (extend junk a b alo ahi blo bhi m).
Proof.
  destruct m as [[i j] k]. unfold block_in, extend, m_a, m_b, m_size; simpl.
  intros (Hi & Hj & Hz & Hk).
  destruct (extend_left_spec junk a b alo blo i j k) as (d & -> & Hdi & Hdj & Hd1 & Hd2 & _).
  destruct (extend_right_spec junk a b bhi (i - d) (j - d) (ahi - (i - d + (k + d))) (k + d))
    as (e & -> & He & Hbhi & _).
  simpl. specialize (Hdi Hi). specialize (Hdj Hj).
  destruct (decide (k = 0)) as [->|Hk0].
  - destruct Hz as [-> ->]; [done|]. lia.
  - lia.
Qed.

Lemma find_longest_match_in a b b2j alo ahi blo bhi :
  block_in alo ahi blo bhi (find_longest_match a b b2j alo ahi blo bhi).
Proof. unfold find_longest_match. do 2 apply extend_in. apply scan_rows_in. Qed.

(** *** get_matching_blocks and ratio *)

(** An entry [(alo, ahi, blo, bhi)] of the work list. *)
Definition region : Type := nat * nat * nat * nat.

Definition find_in a b b2j (r : region) : Match :=
  let '(alo, ahi, blo, bhi) := r in find_longest_match a b b2j alo ahi blo bhi.

(** The two [queue.append] of the loop body.  [queue] is a Python list used
    as a stack ([append] and [pop] at its end): the head of the Rocq list is
    the end of the Python list. *)
Definition push_rest (r : region) (m : Match) (queue : list region) : list region :=
  let '(alo, ahi, blo, bhi) := r in
  let '(i, j, k) := m in
  let queue := if decide (alo < i ∧ blo < j) then (alo, i, blo, j) :: queue else queue in
  if decide (i + k < ahi ∧ j + k < bhi) then (i + k, ahi, j + k, bhi) :: queue else queue.

Definition region_weight (r : region) : nat :=
  let '(alo, ahi, blo, bhi) := r in (ahi - alo) + (bhi - blo) + 1.

Definition queue_weight (queue : list region) : nat :=
  foldr (fun r n => region_weight r + n) 0 queue.

Lemma push_rest_weight r m queue :
  (let '(alo, ahi, blo, bhi) := r in block_in alo ahi blo bhi m) →
  m_size m ≠ 0 →
  queue_weight (push_rest r m queue) < queue_weight (r :: queue).
Proof.
  destruct r as [[[alo ahi] blo] bhi], m as [[i j] k].
  unfold block_in, push_rest, m_a, m_b, m_size; simpl.
  intros (Hi & Hj & _ & Hk) Hk0.
  repeat case_decide; simpl; lia.
Qed.

(** [while queue: ...] of [get_matching_blocks]; it stops because every
    round replaces a region by strictly smaller ones. *)
Equations? matching_loop a b b2j (queue : list region) (matching_blocks : list Match)
    : list Match by wf (queue_weight queue) lt :=
  matching_loop a b b2j [] matching_blocks := matching_blocks;
  matching_loop a b b2j (r :: queue) matching_blocks
    with decide (m_size (find_in a b b2j r) = 0) => {
    | left _ := matching_loop a b b2j queue matching_blocks;
    | right Hk :=
        matching_loop a b b2j (push_rest r (find_in a b b2j r) queue)
                      (matching_blocks ++ [find_in a b b2j r]) }.
Proof.
  - destruct r as [[[alo ahi] blo] bhi]. simpl. lia.
  - apply push_rest_weight.
    + destruct r as [[[alo ahi] blo] bhi]. apply find_longest_match_in.
    + done.
Qed.

(** Tuples compare lexicographically under [matching_blocks.sort()]. *)
Definition Match_le (m1 m2 : Match) : Prop :=
  m_a m1 < m_a m2 ∨ (m_a m1 = m_a m2 ∧
    (m_b m1 < m_b m2 ∨ (m_b m1 = m_b m2 ∧ m_size m1 ≤ m_size m2))).

#[global] Instance Match_le_dec : RelDecision Match_le.
Proof. intros m1 m2. unfold Match_le. apply _. Defined.

(** The loop that collapses adjacent blocks: [(i1, j1, k1)] is the block
    compared against, [non_adjacent] the list built so far. *)
Definition collapse_step (st : Match * list Match) (m2 : Match) : Match * list Match :=
  let '((i1, j1, k1), non_adjacent) := st in
  let '(i2, j2, k2) := m2 in
  if decide (i1 + k1 = i2 ∧ j1 + k1 = j2) then ((i1, j1, k1 + k2), non_adjacent)
  else ((i2, j2, k2), if decide (k1 ≠ 0) then non_adjacent ++ [(i1, j1, k1)] else non_adjacent).

Definition collapse (matching_blocks : list Match) : list Match :=
  let '((i1, j1, k1), non_adjacent) := foldl collapse_step ((0, 0, 0), []) matching_blocks in
  if decide (k1 ≠ 0) then non_adjacent ++ [(i1, j1, k1)] else non_adjacent.

Definition get_matching_blocks a b : list Match :=
  let matching_blocks :=
    matching_loop a b (chain_b b) [(0, length a, 0, length b)] [] in
  collapse (merge_sort Match_le matching_blocks) ++ [(length a, length b, 0)].

(** [_calculate_ratio(matches, length)], the float as an exact rational. *)
Definition _calculate_ratio (matches length : nat) : Q :=
  if decide (length ≠ 0)
  then (2 * inject_Z (Z.of_nat matches) / inject_Z (Z.of_nat length))%Q
  else 1%Q.

(** [SequenceMatcher(None, a, b).ratio()]. *)
Definition matches a b : nat := sum_list (m_size <$> get_matching_blocks a b).

Definition ratio a b : Q := _calculate_ratio (matches a b) (length a + length b).

End SequenceMatcher.
End difflib.

(** ** The longest-matching-blocks alignment

    The count of matched characters as the specification words it: find the
    longest block that the two sequences have in common, then do the same
    with what lies to its left in both and with what lies to its right.
    Of several longest blocks the one that starts first in [a] is taken,
    and of those the one that starts first in [b]. *)

Module lmb.
Import difflib.
Section Alignment.
Context {A : Type} `{EqDecision A}.
Implicit Types (a b : list A).









End Alignment.
End lmb.

(** ** Python values

    [str] is [string]; [int] is [Z]; a finite [float] is the rational it
    denotes, and [float('inf')] is kept apart. *)

Inductive pyfloat : Type :=
| Finite (q : Q)
| Inf.

(** Truth value of an object ([if x], [x and y], [x or y]): [None], the
    empty string and zero are false. *)
Definition truthy_str (x : option string) : bool :=
  match x with
  | Some s => negb (String.eqb s "")
  | None => false
  end.

Definition truthy_int (x : option Z) : bool :=
  match x with
  | Some n => negb (n =? 0)%Z
  | None => false
  end.

Definition truthy_float (x : Q) : bool := negb (Qeq_bool x 0).

(** [x < y] on floats, and [x > y] where [y] may be infinite; [x >= y] is
    [Qle_bool y x]. *)
Definition Qlt_bool (x y : Q) : bool := negb (Qle_bool y x).
Definition gt_pyfloat (x : Q) (y : pyfloat) : bool :=
  match y with
  | Finite q => Qlt_bool q x
  | Inf => false
  end.

(** [max(x, y, z)]: the first of the largest arguments. *)
Definition pymax (x y : Q) : Q := if Qlt_bool x y then y else x.
Definition pymax3 (x y z : Q) : Q := pymax (pymax x y) z.

(** [s.lstrip('.')]. *)
Fixpoint lstrip_dot (s : string) : string :=
  match s with
  | String "." s' => lstrip_dot s'
  | _ => s
  end.

(** [l[:n]]: a negative [n] counts from the end. *)
Definition slice_to {T : Type} (n : Z) (l : list T) : list T :=
  if (n <? 0)%Z then take (length l - Z.to_nat (- n)) l else take (Z.to_nat n) l.

(** ** The database

    [archivos(id INTEGER PRIMARY KEY, path TEXT UNIQUE, name, ext, size,
    mtime)] and [tags(file_path, tag, UNIQUE(file_path, tag))], each a list
    of rows in the order a table scan visits them. *)

Record fila : Type := Fila {
  f_id : Z;
  f_path : string;
  f_name : string;
  f_ext : string;
  f_size : Z;
  f_mtime : Q
}.

Record database : Type := Database {
  archivos : list fila;
  tags : list (string * string)
}.

(** What [db_connect] finds the first time: both tables, empty. *)
Definition db_vacia : database := Database [] [].

(** The conflict clause of an [INSERT], and what a statement or a call
    comes to: its value, or the exception it raises and nothing catches,
    [sqlite3.IntegrityError] or [OSError]. *)
Inductive conflict_clause : Type := OrAbort | OrIgnore | OrReplace.

Inductive sql_result (T : Type) : Type :=
| Ok (t : T)
| IntegrityError
| OSError.
Arguments Ok {T} t.
Arguments IntegrityError {T}.
Arguments OSError {T}.

#[global] Instance sql_bind : MBind sql_result := fun T U f r =>
  match r with
  | Ok t => f t
  | IntegrityError => IntegrityError
  | OSError => OSError
  end.

(** [INSERT [OR ...] INTO table] of a row whose UNIQUE columns are [key]:
    on a conflict, ABORT raises, IGNORE skips the row, REPLACE deletes the
    rows in the way before it inserts. *)
Definition sql_insert {R K : Type} `{EqDecision K} (key : R → K)
    (clause : conflict_clause) (row : R) (table : list R) : sql_result (list R) :=
  if decide (key row ∈ key <$> table) then
    match clause with
    | OrAbort => IntegrityError
    | OrIgnore => Ok table
    | OrReplace => Ok (filter (fun r => key r ≠ key row) table ++ [row])
    end
  else Ok (table ++ [row]).

(** The rowid given to a row inserted without one: one more than the
    largest in the table. *)
Definition next_rowid (table : list fila) : Z :=
  (foldr (fun r m => Z.max (f_id r) m) 0 table + 1)%Z.

(** An entry [(score, path, name, ext, size, mtime, tags)] of [resultados]
    in [buscar]. *)
Record resultado : Type := Resultado {
  r_score : Q;
  r_path : string;
  r_name : string;
  r_ext : string;
  r_size : Z;
  r_mtime : Q;
  r_tags : list string
}.

(** The [argparse.Namespace] of the [search] command: an option that was
    not given is [None]; [--limit] and [--threshold] have defaults. *)
Record Namespace : Type := Args {
  arg_ext : option string;
  arg_tag : option string;
  arg_min_size : option Z;
  arg_max_size : option Z;
  arg_after : option string;
  arg_before : option string;
  arg_limit : Z;
  arg_threshold : Q
}.

(** ** What the program prints, one constructor per [print]. *)

Inductive salida : Type :=
| RutaNoExiste (ruta : string)
| Indexados (contador : nat)
| IndexacionCompletada (contador : nat)
| TagAnadido (tag path : string)
| TagEliminado (tag path : string)
| NoHayTags
| TagCuenta (tag : string) (cnt : nat)
| NoSeEncontraron
| Encontrado (r : resultado)
| ArchivoNoIndexado
| Detalle (name path ext : string) (size : Z) (mtime : Q) (tags : list string).

(** ** The file system and [pathlib], as [indexar] uses them. *)

Record sistema : Type := Sistema {
  (** [str(Path(ruta))] *)
  Path : string → string;
  (** [Path.exists]: [None] when it raises.  It returns [False] when
      [stat] fails with ENOENT, ENOTDIR, EBADF or ELOOP, and lets every
      other [OSError] through: a name that is too long, a parent
      directory that may not be searched. *)
  path_exists : string → option bool;
  (** [os.walk]: the [(root, dirs, files)] triples in order *)
  os_walk : string → list (string * list string * list string);
  (** [str(Path(root) / f)] *)
  path_join : string → string → string;
  (** [p.stat()]: [st_size] and [st_mtime], or [None] when it raises *)
  path_stat : string → option (Z * Q);
  (** [p.name] and [p.suffix] *)
  path_name : string → string;
  path_suffix : string → string
}.

(** ** The program *)

Section Programa.

(** [str.lower] and [datetime.fromisoformat(s).timestamp()], the latter
    [None] when either call raises. *)
Variable lower : string → string.
Variable fromisoformat_timestamp : string → option Q.

(** The body of the inner loop of [indexar], from [p = Path(root) / f] on. *)
Definition indexar_archivo (os : sistema) (verbose : bool) (root f : string)
    (st : list fila * nat * list salida) : sql_result (list fila * nat * list salida) :=
  let '(tabla, contador, out) := st in
  let p := path_join os root f in
  match path_stat os p with
  | None => Ok st
  | Some (size, mtime) =>
    let nombre := path_name os p in
    let ext := lstrip_dot (lower (path_suffix os p)) in
    tabla' ← sql_insert f_path OrReplace
               (Fila (next_rowid tabla) p nombre ext size mtime) tabla;
    let contador := contador + 1 in
    Ok (tabla', contador,
        if verbose && bool_decide (contador `mod` 100 = 0)
        then out ++ [Indexados contador] else out)
  end.

(** The files of [os.walk], each with the [root] it was listed under. *)
Definition archivos_de (walk : list (string * list string * list string))
    : list (string * string) :=
  '(root, _, files) ← walk; pair root <$> files.

Fixpoint indexar_bucle (os : sistema) (verbose : bool) (fs : list (string * string))
    (st : list fila * nat * list salida) : sql_result (list fila * nat * list salida) :=
  match fs with
  | [] => Ok st
  | (root, f) :: fs' =>
    st' ← indexar_archivo os verbose root f st;
    indexar_bucle os verbose fs' st'
  end.

Definition indexar (os : sistema) (ruta : string) (conn : database) (verbose : bool)
    : sql_result (database * list salida) :=
  let ruta := Path os ruta in
  match path_exists os ruta with
  | None => OSError
  | Some false => Ok (conn, [RutaNoExiste ruta])
  | Some true =>
    st ← indexar_bucle os verbose (archivos_de (os_walk os ruta)) (archivos conn, 0, []);
    let '(tabla, contador, out) := st in
    Ok (Database tabla (tags conn), out ++ [IndexacionCompletada contador])
  end.

Definition tag_add (path tag : string) (conn : database) : sql_result (database * list salida) :=
  tabla ← sql_insert id OrIgnore (path, tag) (tags conn);
  Ok (Database (archivos conn) tabla, [TagAnadido tag path]).

(** [DELETE FROM tags WHERE file_path = ? AND tag = ?]. *)
Definition tag_remove (path tag : string) (conn : database) : database * list salida :=
  (Database (archivos conn) (filter (fun r => ¬ (r.1 = path ∧ r.2 = tag)) (tags conn)),
   [TagEliminado tag path]).

(** [SELECT tag FROM tags WHERE file_path = ?].  SQLite answers the query
    from the index of [UNIQUE(file_path, tag)], so the tags of the path
    come in the order of the index: ascending, compared byte by byte, and
    not in the order in which they were added. *)
Fixpoint insertar_tag (t : string) (l : list string) : list string :=
  match l with
  | [] => [t]
  | u :: l' => if (t <? u)%string then t :: l else u :: insertar_tag t l'
  end.

Definition index_order (l : list string) : list string :=
  foldl (fun acc t => insertar_tag t acc) [] l.

Definition get_tags_for (path : string) (conn : database) : list string :=
  index_order (filter (fun r => r.1 = path) (tags conn)).*2.

(** [SELECT tag, COUNT( * ) FROM tags GROUP BY tag]: one row for each tag. *)
Definition group_by_tag (tabla : list (string * string)) : list (string * nat) :=
  (fun t => (t, length (filter (fun r => r.2 = t) tabla))) <$> remove_dups (tabla.*2).

(** [ORDER BY COUNT( * ) DESC], as the engine carries it out.  SQL fixes the
    result only up to the order of rows with equal counts, so the engine's
    choice is a parameter, and [order_by_count_desc] is all that is known
    of it. *)
Variable order_by : list (string * nat) → list (string * nat).

Definition order_by_count_desc (f : list (string * nat) → list (string * nat)) : Prop :=
  ∀ rows, f rows ≡ₚ rows ∧ Sorted (fun x y => y.2 ≤ x.2) (f rows).

Definition list_tags_rows (conn : database) : list (string * nat) :=
  order_by (group_by_tag (tags conn)).

Definition list_tags (conn : database) : list salida :=
  match list_tags_rows conn with
  | [] => [NoHayTags]
  | rows => (fun r => TagCuenta r.1 r.2) <$> rows
  end.

(** The conditions of the six [if ...: return False] of [aplica_filtros]. *)
Definition falla_ext (row : fila) (args : Namespace) : bool :=
  match arg_ext args with
  | Some e => truthy_str (Some e) && negb (String.eqb (f_ext row) (lower (lstrip_dot e)))
  | None => false
  end.

Definition falla_tag (row : fila) (args : Namespace) (conn : database) : bool :=
  match arg_tag args with
  | Some t => truthy_str (Some t) && negb (bool_decide (t ∈ get_tags_for (f_path row) conn))
  | None => false
  end.

Definition falla_min_size (row : fila) (args : Namespace) : bool :=
  match arg_min_size args with
  | Some n => truthy_int (Some n) && (f_size row <? n)%Z
  | None => false
  end.

Definition falla_max_size (row : fila) (args : Namespace) : bool :=
  match arg_max_size args with
  | Some n => truthy_int (Some n) && (f_size row >? n)%Z
  | None => false
  end.

Definition falla_after (row : fila) (args : Namespace) : bool :=
  match arg_after args with
  | Some s =>
    truthy_str (Some s) &&
    (let t := match fromisoformat_timestamp s with
              | Some t => t
              | None => 0%Q
              end in
     Qlt_bool (f_mtime row) t)
  | None => false
  end.

Definition falla_before (row : fila) (args : Namespace) : bool :=
  match arg_before args with
  | Some s =>
    truthy_str (Some s) &&
    (let t := match fromisoformat_timestamp s with
              | Some t => Finite t
              | None => Inf
              end in
     gt_pyfloat (f_mtime row) t)
  | None => false
  end.

Definition aplica_filtros (row : fila) (args : Namespace) (conn : database) : bool :=
  if falla_ext row args then false
  else if falla_tag row args conn then false
  else if falla_min_size row args then false
  else if falla_max_size row args then false
  else if falla_after row args then false
  else if falla_before row args then false
  else true.

Definition score_nombre (query name : string) : Q :=
  difflib.ratio (list_ascii_of_string (lower query)) (list_ascii_of_string (lower name)).

(** Lines 151-157: the entry that [buscar] makes of a row. *)
Definition puntuar (query : string) (row : fila) (conn : database) : resultado :=
  let sc_name := score_nombre query (f_name row) in
  let sc_path := score_nombre query (f_path row) in
  let tags := get_tags_for (f_path row) conn in
  let sc_tag := if bool_decide (query ∈ tags) then 1%Q else 0%Q in
  let score := pymax3 sc_name sc_path sc_tag in
  Resultado score (f_path row) (f_name row) (f_ext row) (f_size row) (f_mtime row) tags.

(** [args.threshold or 0.4]. *)
Definition umbral (args : Namespace) : Q :=
  if truthy_float (arg_threshold args) then arg_threshold args else (4 # 10)%Q.

(** The body of [for row in rows]. *)
Definition buscar_fila (query : string) (args : Namespace) (conn : database)
    (resultados : list resultado) (row : fila) : list resultado :=
  if negb (aplica_filtros row args conn) then resultados
  else
    let r := puntuar query row conn in
    if Qle_bool (umbral args) (r_score r) then resultados ++ [r] else resultados.

(** [resultados.sort(key=lambda x: x[0], reverse=True)]: a stable sort, so
    entries of equal score keep their order. *)
Fixpoint insertar_desc (x : resultado) (l : list resultado) : list resultado :=
  match l with
  | [] => [x]
  | y :: l' =>
    if Qlt_bool (r_score y) (r_score x) then x :: l else y :: insertar_desc x l'
  end.

Definition sort_desc (l : list resultado) : list resultado :=
  foldl (fun acc x => insertar_desc x acc) [] l.

(** [resultados] as it stands after line 160. *)
Definition resultados (query : string) (args : Namespace) (conn : database) : list resultado :=
  sort_desc (foldl (buscar_fila query args conn) [] (archivos conn)).

Definition buscar (query : string) (args : Namespace) (conn : database) : list salida :=
  match resultados query args conn with
  | [] => [NoSeEncontraron]
  | rs => Encontrado <$> slice_to (arg_limit args) rs
  end.

(** [show]: [fetchone] gives the first row of the path, if there is one. *)
Definition show (path : string) (conn : database) : list salida :=
  match filter (fun r => f_path r = path) (archivos conn) with
  | [] => [ArchivoNoIndexado]
  | row :: _ =>
    [Detalle (f_name row) (f_path row) (f_ext row) (f_size row) (f_mtime row)
             (get_tags_for (f_path row) conn)]
  end.

(** The states of the database that the commands can bring about, from the
    empty tables of the first [db_connect]. *)
Inductive alcanzable : database → Prop :=
| alc_vacia : alcanzable db_vacia
| alc_indexar os ruta verbose conn conn' out :
    alcanzable conn → indexar os ruta conn verbose = Ok (conn', out) → alcanzable conn'
| alc_tag_add path tag conn conn' out :
    alcanzable conn → tag_add path tag conn = Ok (conn', out) → alcanzable conn'
| alc_tag_remove path tag conn :
    alcanzable conn → alcanzable (tag_remove path tag conn).1.

End Programa.

(** The entries printed. *)
Definition encontrados (out : list salida) : list resultado :=
  omap (fun s => match s with Encontrado r => Some r | _ => None end) out.

(** ** Instances to run the program on

    [str.lower] on ASCII letters, a calendar that knows one date, and an
    engine that sorts stably the groups taken in scan order. *)

Definition lower_char (c : ascii) : ascii :=
  let n := nat_of_ascii c in
  if bool_decide (65 ≤ n ≤ 90) then ascii_of_nat (n + 32) else c.

Fixpoint lower_ascii (s : string) : string :=
  match s with
  | EmptyString => EmptyString
  | String c s' => String (lower_char c) (lower_ascii s')
  end.

Definition una_fecha (s : string) : option Q :=
  if String.eqb s "2023-01-01" then Some (inject_Z 1672531200) else None.

Fixpoint insertar_cuenta (x : string * nat) (l : list (string * nat)) : list (string * nat) :=
  match l with
  | [] => [x]
  | y :: l' => if bool_decide (y.2 < x.2) then x :: l else y :: insertar_cuenta x l'
  end.

Definition orden_estable (rows : list (string * nat)) : list (string * nat) :=
  foldl (fun acc x => insertar_cuenta x acc) [] rows.

(** A small POSIX-like file system: [/d] holds [informe.PDF] and
    [notas.txt] (which cannot be read) and a directory [sub] with [.oculto];
    a name of more than 255 characters is refused with ENAMETOOLONG. *)

Fixpoint parte_ultimo (sep : ascii) (s : string) : option (string * string) :=
  match s with
  | EmptyString => None
  | String c s' =>
    match parte_ultimo sep s' with
    | Some (pre, post) => Some (String c pre, post)
    | None => if Ascii.eqb c sep then Some (EmptyString, s') else None
    end
  end.

Definition nombre_posix (p : string) : string :=
  match parte_ultimo "/" p with
  | Some (_, post) => post
  | None => p
  end.

Definition sufijo_posix (p : string) : string :=
  match parte_ultimo "." (nombre_posix p) with
  | Some (pre, post) =>
    if String.eqb pre "" || String.eqb post "" then "" else String "." post
  | None => ""
  end.

Definition os_ejemplo : sistema := {|
  Path ruta := ruta;
  path_exists p :=
    if 255 <? String.length (nombre_posix p) then None else Some (String.eqb p "/d");
  os_walk ruta :=
    if String.eqb ruta "/d"
    then [("/d", ["sub"], ["informe.PDF"; "notas.txt"]); ("/d/sub", [], [".oculto"])]
    else [];
  path_join root f := root +:+ "/" +:+ f;
  path_stat p := if String.eqb p "/d/notas.txt" then None else Some (2048%Z, inject_Z 100);
  path_name := nombre_posix;
  path_suffix := sufijo_posix
|}.

Definition db_indexada : database :=
  Eval vm_compute in
    match indexar lower_ascii os_ejemplo "/d" db_vacia false with
    | Ok (conn, _) => conn
    | _ => db_vacia
    end.

Definition db_reindexada : database :=
  Eval vm_compute in
    match indexar lower_ascii os_ejemplo "/d" db_indexada false with
    | Ok (conn, _) => conn
    | _ => db_vacia
    end.

(** Sample rows, stores and arguments. *)

(** What [parse_args] gives for [search query] with no option. *)
Definition args_defecto : Namespace := Args None None None None None None 20 (4 # 10).

Definition fila_report : fila := Fila 1 "/d/report.pdf" "report.pdf" "pdf" 2048 100.

Definition fila_reports : fila := Fila 2 "/d/reports_2023.txt" "reports_2023.txt" "txt" 10 200.

Definition fila_xyz : fila := Fila 3 "/d/xyz.log" "xyz.log" "log" 5 300.

Definition db_informes : database :=
  Database [fila_report; fila_reports; fila_xyz] [("/d/xyz.log", "report")].

Definition fila_q : fila := Fila 1 "/d/qzzzzzzz" "qzzzzzzz" "" 7 50.

Definition db_q : database := Database [fila_q] [].

Definition args_umbral_cero : Namespace := Args None None None None None None 20 0.


Definition db_tags_ba : database := Database [] [("/d/x", "b"); ("/d/x", "a")].

Definition fila_5_bytes : fila := Fila 1 "/d/a.txt" "a.txt" "txt" 5 100.

Definition args_max_size_cero : Namespace := Args None None None (Some 0%Z) None None 20 (4 # 10).

Definition fila_1969 : fila := Fila 1 "/d/viejo.txt" "viejo.txt" "txt" 5 (-1).

Definition args_after_ilegible : Namespace :=
  Args None None None None (Some "ayer") None 20 (4 # 10).

(** * Properties *)

(** ** SequenceMatcher: the blocks it finds and the ratio *)

Module difflib_facts.
Import difflib.
Section SequenceMatcher.
Context {A : Type} `{Countable A}.
Implicit Types (a b : list A) (b2j : gmap A (list nat)) (j2len : gmap nat nat).

Definition sizes (ms : list Match) : nat := sum_list (m_size <$> ms).

Lemma sizes_app ms1 ms2 : sizes (ms1 ++ ms2) = sizes ms1 + sizes ms2.
Proof. unfold sizes. induction ms1 as [|m ms1 IH]; csimpl; [done|]. lia. Qed.

Lemma sizes_Permutation ms1 ms2 : ms1 ≡ₚ ms2 → sizes ms1 = sizes ms2.
Proof.
  unfold sizes. induction 1; csimpl; lia.
Qed.

(** What a region can hold at most. *)
Definition region_cap (r : region) : nat :=
  let '(alo, ahi, blo, bhi) := r in (ahi - alo) `min` (bhi - blo).

Definition queue_cap (queue : list region) : nat :=
  foldr (fun r n => region_cap r + n) 0 queue.

Lemma push_rest_cap r m queue :
  (let '(alo, ahi, blo, bhi) := r in block_in alo ahi blo bhi m) →
  m_size m ≠ 0 →
  m_size m + queue_cap (push_rest r m queue) ≤ queue_cap (r :: queue).
Proof.
  destruct r as [[[alo ahi] blo] bhi], m as [[i j] k].
  unfold block_in, push_rest, m_a, m_b, m_size; simpl.
  intros (Hi & Hj & _ & Hk) Hk0.
  repeat case_decide; simpl; lia.
Qed.

Lemma find_in_block a b b2j r :
  let '(alo, ahi, blo, bhi) := r in block_in alo ahi blo bhi (find_in a b b2j r).
Proof. destruct r as [[[alo ahi] blo] bhi]. apply find_longest_match_in. Qed.

Lemma matching_loop_sizes a b b2j queue blocks :
  sizes (matching_loop a b b2j queue blocks) ≤ sizes blocks + queue_cap queue.
Proof.
  funelim (matching_loop a b b2j queue blocks).
  - simpl. lia.
  - etrans; [apply H0|]. simpl. lia.
  - etrans; [apply H0|].
    rewrite sizes_app. unfold sizes at 2; simpl.
    pose proof (push_rest_cap r (find_in a b b2j r) queue (find_in_block a b b2j r) Hk).
    simpl in *. lia.
Qed.

Lemma collapse_step_sizes st m :
  m_size (collapse_step st m).1 + sizes (collapse_step st m).2
  = m_size st.1 + sizes st.2 + m_size m.
Proof.
  destruct st as [[[i1 j1] k1] na], m as [[i2 j2] k2]. unfold collapse_step, m_size.
  repeat case_decide; simpl; rewrite ?sizes_app; unfold sizes; simpl; lia.
Qed.

Lemma collapse_sizes ms : sizes (collapse ms) = sizes ms.
Proof.
  unfold collapse.
  assert (∀ st, m_size (foldl collapse_step st ms).1 + sizes (foldl collapse_step st ms).2
                = m_size st.1 + sizes st.2 + sizes ms) as Hfold.
  { induction ms as [|m ms IH]; intros st; simpl; [unfold sizes; simpl; lia|].
    rewrite IH, collapse_step_sizes. unfold sizes; csimpl. lia. }
  specialize (Hfold ((0, 0, 0), [])).
  destruct (foldl collapse_step _ ms) as [[[i1 j1] k1] na]. unfold m_size in Hfold. simpl in Hfold.
  case_decide; rewrite ?sizes_app; unfold sizes in *; simpl in *; lia.
Qed.

(** The matched elements are those of the blocks the loop found. *)
Lemma matches_loop a b :
  matches a b = sizes (matching_loop a b (chain_b b) [(0, length a, 0, length b)] []).
Proof.
  unfold matches, get_matching_blocks. fold (sizes (collapse (merge_sort Match_le
    (matching_loop a b (chain_b b) [(0, length a, 0, length b)] [])) ++ [(length a, length b, 0)])).
  rewrite sizes_app, collapse_sizes, (sizes_Permutation _ _ (merge_sort_Permutation _ _)).
  unfold sizes at 2; simpl. lia.
Qed.

Lemma matches_le a b : matches a b ≤ length a `min` length b.
Proof.
  rewrite matches_loop. etrans; [apply matching_loop_sizes|].
  unfold sizes; simpl. lia.
Qed.

Lemma _calculate_ratio_bounds (m len : nat) :
  2 * m ≤ len → (0 <= _calculate_ratio m len <= 1)%Q.
Proof.
  intros Hm. unfold _calculate_ratio. case_decide as Hlen; [|done].
  assert (0 < inject_Z (Z.of_nat len))%Q as Hpos.
  { change 0%Q with (inject_Z 0). rewrite <- Zlt_Qlt. lia. }
  split.
  - apply Qle_shift_div_l; [done|]. rewrite Qmult_0_l.
    change 0%Q with (2 * inject_Z 0)%Q. apply Qmult_le_l; [done|].
    rewrite <- Zle_Qle. lia.
  - apply Qle_shift_div_r; [done|]. rewrite Qmult_1_l.
    change 2%Q with (inject_Z 2). rewrite <- inject_Z_mult, <- Zle_Qle. lia.
Qed.

Lemma ratio_bounds a b : (0 <= ratio a b <= 1)%Q.
Proof.
  apply _calculate_ratio_bounds. pose proof (matches_le a b). lia.
Qed.

(** *** The examples of the library's documentation, and [autojunk] at work *)

Example find_longest_match_doc :
  let a := list_ascii_of_string " abcd" in
  let b := list_ascii_of_string "abcd abcd" in
  find_longest_match a b (chain_b b) 0 5 0 9 = (0, 4, 5).
Proof. reflexivity. Qed.

Example get_matching_blocks_doc :
  get_matching_blocks (list_ascii_of_string "abxcd") (list_ascii_of_string "abcd")
  = [(0, 0, 2); (3, 2, 2); (5, 4, 0)].
Proof. reflexivity. Qed.

Example ratio_doc :
  (ratio (list_ascii_of_string "abcd") (list_ascii_of_string "bcde") == 3 # 4)%Q.
Proof. reflexivity. Qed.

(** In a [b] of 300 characters both ["a"] and ["b"] are popular, so ["ab"]
    is not found where it stands, at 149. *)
Example get_matching_blocks_popular :
  get_matching_blocks (list_ascii_of_string "ab")
    (replicate 150 "a"%char ++ replicate 150 "b"%char)
  = [(0, 0, 1); (2, 300, 0)].
Proof. vm_compute. reflexivity. Qed.

(** *** The index of [b]

    A key of [b2j] holds the positions of its element, in ascending order. *)

Definition positions_of b (x : A) (js : list nat) : Prop :=
  StronglySorted lt js ∧ ∀ j, j ∈ js ↔ b !! j = Some x.

Lemma index_b_snoc b y :
  index_b (b ++ [y]) = setdefault_append (index_b b) (length b) y.
Proof.
  unfold index_b. rewrite imap_app, foldl_app. simpl. by rewrite Nat.add_0_r.
Qed.

Lemma StronglySorted_snoc_lt (js : list nat) (n : nat) :
  StronglySorted lt js → (∀ j, j ∈ js → j < n) → StronglySorted lt (js ++ [n]).
Proof.
  induction 1 as [|j js Hs IH Hall]; intros Hlt; simpl.
  - repeat constructor.
  - constructor.
    + apply IH. intros j' Hj'. apply Hlt. by right.
    + apply Forall_app. split; [done|]. constructor; [|constructor].
      apply Hlt. by left.
Qed.

Lemma index_b_positions b x :
  positions_of b x (default [] (index_b b !! x)).
Proof.
  induction b as [|y b IH] using rev_ind.
  - split; [constructor|]. intros j. unfold index_b. simpl.
    rewrite lookup_empty. simpl. rewrite lookup_nil. split; [by intros ?%elem_of_nil|done].
  - rewrite index_b_snoc. unfold setdefault_append.
    destruct IH as [Hsorted Hmem].
    destruct (decide (y = x)) as [->|Hne].
    + rewrite lookup_insert_eq. simpl. split.
      * apply StronglySorted_snoc_lt; [done|].
        intros j Hj. apply Hmem in Hj. by apply lookup_lt_Some in Hj.
      * intros j. rewrite elem_of_app, list_elem_of_singleton, Hmem.
        destruct (decide (j < length b)) as [Hlt|Hge].
        -- rewrite lookup_app_l by done. split; [intros [?|?]; [done|lia]|tauto].
        -- rewrite lookup_app_r by lia. split.
           ++ intros [Hj%lookup_lt_Some| ->]; [lia|]. by rewrite Nat.sub_diag.
           ++ intros Hj. right. apply lookup_lt_Some in Hj. simpl in Hj. lia.
    + rewrite lookup_insert_ne by done. split; [done|].
      intros j. rewrite Hmem.
      destruct (decide (j < length b)) as [Hlt|Hge].
      * by rewrite lookup_app_l.
      * rewrite lookup_app_r by lia. split.
        -- intros Hj%lookup_lt_Some. lia.
        -- destruct (j - length b) as [|d]; simpl; [congruence|].
           by rewrite lookup_nil.
Qed.

Lemma chain_b_positions b x js :
  chain_b b !! x = Some js → positions_of b x js.
Proof.
  intros Hx. assert (index_b b !! x = Some js) as Hi.
  { unfold chain_b in Hx. case_decide; [|done].
    by apply map_lookup_filter_Some in Hx as [? _]. }
  pose proof (index_b_positions b x) as Hp. by rewrite Hi in Hp.
Qed.

(** *** A sequence against itself

    On [a = b = s] the search never prefers a match off the diagonal: a run
    ending at [(i, j)] is no longer than the run of indexed elements ending
    at [min i j] on the diagonal, which the loop has seen before. *)

Section Diagonal.
Variable s : list A.
Variable b2j : gmap A (list nat).
Hypothesis b2j_positions : ∀ x js, b2j !! x = Some js → positions_of s x js.

(** The element at [i] is a key of [b2j] (it is not "popular"). *)
Definition indexed (i : nat) : bool :=
  match s !! i with
  | Some x => bool_decide (is_Some (b2j !! x))
  | None => false
  end.

(** Length of the run of indexed elements that ends at [i]. *)
Fixpoint run (i : nat) : nat :=
  match i with
  | O => if indexed 0 then 1 else 0
  | S i' => if indexed (S i') then S (run i') else 0
  end.

Definition prev_run (i : nat) : nat :=
  match i with
  | O => 0
  | S i' => run i'
  end.

Lemma run_indexed i : indexed i = true → run i = S (prev_run i).
Proof. destruct i; simpl; by intros ->. Qed.

Lemma run_not_indexed i : indexed i = false → run i = 0.
Proof. destruct i; simpl; by intros ->. Qed.

Definition diag_j2len (i : nat) (j2len : gmap nat nat) : Prop :=
  (∀ j v, j2len !! j = Some v → v ≤ prev_run i ∧ v ≤ run j) ∧
  (∀ i', i = S i' → indexed i' = true → j2len !! i' = Some (run i')).

Definition diag_best (i : nat) (best : Match) : Prop :=
  m_a best = m_b best ∧ ∀ m, m < i → run m ≤ m_size best.

Lemma j2lenget_pred_diag i j j2len :
  diag_j2len i j2len → indexed i = true → indexed j = true →
  j2lenget_pred j2len j + 1 ≤ run i ∧ j2lenget_pred j2len j + 1 ≤ run j ∧
  (j = i → j2lenget_pred j2len j + 1 = run i).
Proof.
  intros [Hle Hdiag] Hi Hj. rewrite (run_indexed i Hi), (run_indexed j Hj).
  destruct j as [|j']; simpl.
  - split; [lia|]. split; [lia|]. by intros <-.
  - destruct (j2len !! j') as [v|] eqn:E; simpl.
    + destruct (Hle _ _ E) as [Hv1 Hv2]. split; [lia|]. split; [lia|].
      intros <-. simpl in *. destruct (indexed j') eqn:Ej.
      * rewrite (Hdiag j' eq_refl Ej) in E. injection E as <-. lia.
      * rewrite (run_not_indexed j' Ej) in *. lia.
    + split; [lia|]. split; [lia|]. intros <-. simpl.
      destruct (indexed j') eqn:Ej.
      * by rewrite (Hdiag j' eq_refl Ej) in E.
      * rewrite (run_not_indexed j' Ej). lia.
Qed.

Lemma scan_row_diag i bhi j2len js newj2len best :
  diag_j2len i j2len → indexed i = true →
  StronglySorted lt js →
  (∀ j, j ∈ js → indexed j = true ∧ j < bhi) →
  (∀ j v, newj2len !! j = Some v → v ≤ run i ∧ v ≤ run j) →
  diag_best i best →
  (i ∈ js ∨ (newj2len !! i = Some (run i) ∧ run i ≤ m_size best)) →
  diag_j2len (S i) (scan_row j2len i 0 bhi js newj2len best).1 ∧
  diag_best (S i) (scan_row j2len i 0 bhi js newj2len best).2.
Proof.
  intros Hold Hi Hsorted. revert newj2len best.
  induction Hsorted as [|j js Hs IH Hall]; intros newj2len best Hjs Hnew [Hab Hbest] Hdone; simpl.
  - destruct Hdone as [?%elem_of_nil|[Hii Hrun]]; [done|]. split.
    + split; [done|]. by intros ? [= <-] _.
    + split; [done|]. intros m Hm. destruct (decide (m = i)) as [->|]; [done|].
      apply Hbest. lia.
  - destruct (decide (j < 0)) as [?|_]; [lia|].
    destruct (Hjs j) as [Hj Hjb]; [by left|].
    destruct (decide (bhi ≤ j)) as [?|_]; [lia|].
    destruct (j2lenget_pred_diag i j j2len Hold Hi Hj) as (Hk1 & Hk2 & Hk3).
    set (k := j2lenget_pred j2len j + 1) in *.
    apply IH.
    + intros j' Hj'. apply Hjs. by right.
    + intros j' v. rewrite lookup_insert. case_decide as Hjj; [|by apply Hnew].
      intros [= <-]. by rewrite <- Hjj.
    + destruct (decide (m_size best < k)) as [Hlt|Hge].
      * split; [|intros m Hm; unfold m_size; simpl; specialize (Hbest m Hm); lia].
        unfold m_a, m_b; simpl.
        assert (j = i) as ->; [|done].
        destruct Hdone as [Hin|[_ Hrun]]; [|lia].
        apply elem_of_cons in Hin as [->|Hin]; [done|].
        rewrite Forall_forall in Hall. specialize (Hall i Hin).
        specialize (Hbest j Hall). lia.
      * done.
    + destruct (decide (j = i)) as [->|Hne].
      * right. rewrite lookup_insert_eq. split; [by rewrite Hk3|].
        rewrite <- Hk3 by done. destruct (decide (m_size best < k)); unfold m_size in *; simpl; lia.
      * destruct Hdone as [Hin|[Hii Hrun]].
        -- left. apply elem_of_cons in Hin as [->|Hin]; done.
        -- right. rewrite lookup_insert_ne by done. split; [done|].
           destruct (decide (m_size best < k)); unfold m_size in *; simpl; lia.
Qed.

Lemma scan_step_diag i bhi j2len best :
  length s ≤ bhi →
  diag_j2len i j2len → diag_best i best →
  diag_j2len (S i) (scan_step s b2j 0 bhi (j2len, best) i).1 ∧
  diag_best (S i) (scan_step s b2j 0 bhi (j2len, best) i).2.
Proof.
  intros Hbhi Hj2len Hbest. unfold scan_step; simpl.
  destruct (indexed i) eqn:Ei.
  - unfold indexed in Ei. destruct (s !! i) as [x|] eqn:Ex; [|done].
    apply bool_decide_eq_true in Ei as [js Hjs]. rewrite Hjs; simpl.
    destruct (b2j_positions x js Hjs) as [Hsorted Hmem].
    apply scan_row_diag; try done.
    + unfold indexed. rewrite Ex. apply bool_decide_eq_true. by exists js.
    + intros j Hj. apply Hmem in Hj. split.
      * unfold indexed. rewrite Hj. apply bool_decide_eq_true. by exists js.
      * apply lookup_lt_Some in Hj. lia.
    + left. by apply Hmem.
  - assert ((match s !! i with Some x => default [] (b2j !! x) | None => [] end) = []) as ->.
    { unfold indexed in Ei. destruct (s !! i) as [x|]; [|done].
      apply bool_decide_eq_false in Ei. destruct (b2j !! x); [|done].
      destruct Ei. by eexists. }
    simpl. destruct Hbest as [Hab Hbest]. split.
    + split; [done|]. intros ? [= <-]. by rewrite Ei.
    + split; [done|]. intros m Hm. destruct (decide (m = i)) as [->|].
      * rewrite (run_not_indexed i Ei). lia.
      * apply Hbest. lia.
Qed.

Lemma scan_rows_diag :
  m_a (scan_rows s b2j 0 (length s) 0 (length s))
  = m_b (scan_rows s b2j 0 (length s) 0 (length s)).
Proof.
  unfold scan_rows.
  pose (P := fun (i : nat) (st : gmap nat nat * Match) => diag_j2len i st.1 ∧ diag_best i st.2).
  enough (P (0 + (length s - 0)) (foldl (scan_step s b2j 0 (length s)) (∅, (0, 0, 0))
            (seq 0 (length s - 0)))) as [_ [Hd _]] by done.
  apply foldl_seq_invariant.
  - split; [split; [done|done]|]. split; [done|]. intros m Hm. lia.
  - intros i [j2len best] _ [Hj Hb]. rewrite Nat.add_1_r.
    by apply scan_step_diag.
Qed.

End Diagonal.

Lemma same_elt_diag (s : list A) i : i < length s → same_elt false s s i i = true.
Proof.
  intros Hi. unfold same_elt. destruct (lookup_lt_is_Some_2 s i Hi) as [x ->].
  unfold isbjunk. by rewrite !bool_decide_eq_true_2.
Qed.

Lemma same_elt_junk a b i j : same_elt true a b i j = false.
Proof. unfold same_elt, isbjunk. by destruct (a !! i), (b !! j). Qed.

Lemma extend_left_diag (s : list A) i k :
  i ≤ length s → extend_left false s s 0 0 i i k = (0, 0, k + i).
Proof.
  revert k. induction i as [|i IH]; intros k Hi; simpl.
  - by rewrite Nat.add_0_r.
  - rewrite same_elt_diag by lia. simpl. rewrite IH by lia. f_equal; lia.
Qed.

Lemma extend_right_diag (s : list A) gap k :
  k + gap ≤ length s → extend_right false s s (length s) 0 0 gap k = k + gap.
Proof.
  revert k. induction gap as [|gap IH]; intros k Hk; simpl; [lia|].
  rewrite bool_decide_eq_true_2 by lia. rewrite same_elt_diag by lia. simpl.
  rewrite IH; lia.
Qed.

Lemma extend_junk a b alo ahi blo bhi m : extend true a b alo ahi blo bhi m = m.
Proof.
  destruct m as [[i j] k]. unfold extend, m_a, m_b, m_size; simpl.
  assert (extend_left true a b alo blo i j k = (i, j, k)) as ->.
  { destruct i, j; simpl; try done. by rewrite same_elt_junk, !andb_false_r. }
  destruct (ahi - (i + k)); simpl; [done|]. by rewrite same_elt_junk, andb_false_r.
Qed.

(** The longest match of a sequence with itself is the whole of it, whatever
    [autojunk] made of the index. *)
Lemma find_longest_match_self (s : list A) :
  find_longest_match s s (chain_b s) 0 (length s) 0 (length s) = (0, 0, length s).
Proof.
  unfold find_longest_match. rewrite extend_junk.
  pose proof (scan_rows_in s (chain_b s) 0 (length s) 0 (length s)) as (_ & _ & Hz & Hk).
  pose proof (scan_rows_diag s (chain_b s) (chain_b_positions s)) as Hd.
  destruct (scan_rows s (chain_b s) 0 (length s) 0 (length s)) as [[i j] k].
  unfold m_a, m_b, m_size in *; simpl in *. subst j.
  assert (i + k ≤ length s) as Hik.
  { destruct (decide (k = 0)) as [->|]; [destruct Hz; [done|lia]|]. apply Hk. lia. }
  unfold extend, m_a, m_b, m_size; simpl.
  rewrite extend_left_diag by lia.
  rewrite extend_right_diag by lia. f_equal; lia.
Qed.

Lemma matching_loop_cons a b b2j r queue blocks :
  matching_loop a b b2j (r :: queue) blocks
  = if decide (m_size (find_in a b b2j r) = 0)
    then matching_loop a b b2j queue blocks
    else matching_loop a b b2j (push_rest r (find_in a b b2j r) queue)
                       (blocks ++ [find_in a b b2j r]).
Proof. simp matching_loop. by destruct (decide _). Qed.

Lemma matching_loop_self (s : list A) :
  sizes (matching_loop s s (chain_b s) [(0, length s, 0, length s)] []) = length s.
Proof.
  rewrite matching_loop_cons. unfold find_in. rewrite find_longest_match_self.
  unfold m_size at 1; simpl.
  destruct (decide (length s = 0)) as [Hs|Hs]; simp matching_loop.
  - by rewrite Hs.
  - unfold push_rest. rewrite !decide_False by lia. simp matching_loop.
    unfold sizes, m_size; simpl. lia.
Qed.

Lemma matches_self (s : list A) : matches s s = length s.
Proof. rewrite matches_loop. apply matching_loop_self. Qed.

Lemma ratio_self (s : list A) : (ratio s s == 1)%Q.
Proof.
  unfold ratio, _calculate_ratio. rewrite matches_self. case_decide as Hs; [|done].
  rewrite Nat2Z.inj_add, inject_Z_plus.
  assert (~ inject_Z (Z.of_nat (length s)) == 0)%Q as Hne.
  { change 0%Q with (inject_Z 0). rewrite inject_Z_injective. lia. }
  field. intros Hc. apply Hne. lra.
Qed.

(** *** The blocks are matches

    Every block of [get_matching_blocks] pairs equal elements, position by
    position. *)

Definition same_at a b (i j : nat) : Prop :=
  ∃ x, a !! i = Some x ∧ b !! j = Some x.

Definition genuine a b (m : Match) : Prop :=
  ∀ t, t < m_size m → same_at a b (m_a m + t) (m_b m + t).

Lemma same_elt_same_at junk a b i j : same_elt junk a b i j = true → same_at a b i j.
Proof.
  unfold same_elt, same_at. destruct (a !! i) as [x|], (b !! j) as [y|]; try done.
  intros [_ Hxy%bool_decide_eq_true]%andb_prop. subst. by exists y.
Qed.

Lemma same_at_eq a b i j i' j' : same_at a b i j → i = i' → j = j' → same_at a b i' j'.
Proof. by intros ? <- <-. Qed.

(** The runs recorded for row [i - 1] are runs of equal elements. *)
Definition j2len_runs a b (i : nat) j2len : Prop :=
  ∀ j v, j2len !! j = Some v →
    v ≤ i ∧ v ≤ j + 1 ∧ ∀ t, t < v → same_at a b (i - v + t) (j + 1 - v + t).

Lemma j2lenget_pred_run a b i j j2len :
  j2len_runs a b i j2len → same_at a b i j →
  j2lenget_pred j2len j + 1 ≤ i + 1 ∧ j2lenget_pred j2len j + 1 ≤ j + 1 ∧
  ∀ t, t < j2lenget_pred j2len j + 1 →
       same_at a b (i + 1 - (j2lenget_pred j2len j + 1) + t)
                   (j + 1 - (j2lenget_pred j2len j + 1) + t).
Proof.
  intros Hruns Hij.
  assert (∀ t, t < 1 → same_at a b (i + 1 - 1 + t) (j + 1 - 1 + t)) as Hone.
  { intros t Ht. apply (same_at_eq a b i j); [done|lia..]. }
  destruct j as [|j']; simpl; [split; [lia|]; split; [lia|done]|].
  destruct (j2len !! j') as [v|] eqn:E; simpl; [|split; [lia|]; split; [lia|done]].
  destruct (Hruns _ _ E) as (Hv1 & Hv2 & Hrun).
  split; [lia|]. split; [lia|]. intros t Ht.
  destruct (decide (t = v)) as [->|Hne].
  - apply (same_at_eq a b i (S j')); [done|lia..].
  - apply (same_at_eq a b (i - v + t) (j' + 1 - v + t)); [apply Hrun|..]; lia.
Qed.

Lemma scan_row_genuine a b i blo bhi j2len js newj2len best :
  (∀ j, j ∈ js → same_at a b i j) →
  j2len_runs a b i j2len →
  j2len_runs a b (i + 1) newj2len →
  genuine a b best →
  j2len_runs a b (i + 1) (scan_row j2len i blo bhi js newj2len best).1 ∧
  genuine a b (scan_row j2len i blo bhi js newj2len best).2.
Proof.
  intros Hjs Hold. revert newj2len best Hjs.
  induction js as [|j js IH]; intros newj2len best Hjs Hnew Hbest; simpl; [done|].
  destruct (decide (j < blo)); [apply IH; [|done..]; intros j' Hj'; apply Hjs; by right|].
  destruct (decide (bhi ≤ j)); [done|].
  destruct (j2lenget_pred_run a b i j j2len Hold) as (Hk1 & Hk2 & Hrun); [apply Hjs; by left|].
  apply IH.
  - intros j' Hj'. apply Hjs. by right.
  - intros j0 v. rewrite lookup_insert. case_decide as Hjj; [|by apply Hnew].
    intros [= <-]. subst j0. done.
  - destruct (decide (m_size best < _)); [|done].
    intros t Ht. unfold m_a, m_b, m_size in *; simpl in *. by apply Hrun.
Qed.

Definition b2j_sound b b2j : Prop :=
  ∀ x js j, b2j !! x = Some js → j ∈ js → b !! j = Some x.

Lemma chain_b_sound b : b2j_sound b (chain_b b).
Proof. intros x js j Hx Hj. by apply (chain_b_positions b x js Hx). Qed.

Lemma scan_rows_genuine a b b2j alo ahi blo bhi :
  b2j_sound b b2j → genuine a b (scan_rows a b2j alo ahi blo bhi).
Proof.
  intros Hb2j. unfold scan_rows.
  pose (P := fun (i : nat) (st : gmap nat nat * Match) =>
               j2len_runs a b i st.1 ∧ genuine a b st.2).
  enough (P (alo + (ahi - alo)) (foldl (scan_step a b2j blo bhi) (∅, (alo, blo, 0))
            (seq alo (ahi - alo)))) as HP by apply HP.
  apply foldl_seq_invariant.
  - split; [intros j v; simpl; by rewrite lookup_empty|].
    intros t Ht. unfold m_size in Ht. simpl in Ht. lia.
  - intros i [j2len best] Hi [Hruns Hbest]. unfold P, scan_step; simpl in *.
    apply scan_row_genuine; [|done| |done].
    + intros j Hj. destruct (a !! i) as [x|] eqn:Ex; [|by apply elem_of_nil in Hj].
      destruct (b2j !! x) as [js|] eqn:Ejs; [|by apply elem_of_nil in Hj].
      exists x. split; [done|]. by apply (Hb2j x js).
    + intros j v. by rewrite lookup_empty.
Qed.

Lemma extend_genuine junk a b alo ahi blo bhi m :
  genuine a b m → genuine a b (extend junk a b alo ahi blo bhi m).
Proof.
  destruct m as [[i j] k]. unfold genuine, extend, m_a, m_b, m_size; simpl.
  intros Hm.
  destruct (extend_left_spec junk a b alo blo i j k) as (d & -> & _ & _ & Hd1 & Hd2 & Hleft).
  destruct (extend_right_spec junk a b bhi (i - d) (j - d) (ahi - (i - d + (k + d))) (k + d))
    as (e & -> & _ & _ & Hright).
  simpl. intros t Ht.
  destruct (decide (t < d)) as [Htd|Htd].
  - apply (same_elt_same_at junk), Hleft, Htd.
  - destruct (decide (t < k + d)) as [Htk|Htk].
    + apply (same_at_eq a b (i + (t - d)) (j + (t - d))); [apply Hm|..]; lia.
    + apply (same_at_eq a b (i - d + (k + d) + (t - (k + d))) (j - d + (k + d) + (t - (k + d))));
        [apply (same_elt_same_at junk), Hright|..]; lia.
Qed.

Lemma find_longest_match_genuine a b b2j alo ahi blo bhi :
  b2j_sound b b2j → genuine a b (find_longest_match a b b2j alo ahi blo bhi).
Proof.
  intros Hb2j. unfold find_longest_match. do 2 apply extend_genuine.
  by apply scan_rows_genuine.
Qed.

Lemma matching_loop_genuine a b b2j queue blocks :
  b2j_sound b b2j → Forall (genuine a b) blocks →
  Forall (genuine a b) (matching_loop a b b2j queue blocks).
Proof.
  intros Hb2j. funelim (matching_loop a b b2j queue blocks); intros Hblocks.
  - done.
  - by apply H0.
  - apply H0; [done|]. apply Forall_app. split; [done|]. constructor; [|constructor].
    destruct r as [[[alo ahi] blo] bhi]. by apply find_longest_match_genuine.
Qed.

Lemma collapse_step_genuine a b st m :
  genuine a b st.1 → Forall (genuine a b) st.2 → genuine a b m →
  genuine a b (collapse_step st m).1 ∧ Forall (genuine a b) (collapse_step st m).2.
Proof.
  destruct st as [[[i1 j1] k1] na], m as [[i2 j2] k2]. unfold collapse_step; simpl.
  intros H1 Hna H2. case_decide as Hadj; simpl.
  - split; [|done]. destruct Hadj as [<- <-].
    intros t Ht. unfold genuine, m_a, m_b, m_size in *; simpl in *.
    destruct (decide (t < k1)) as [Hlt|Hge]; [by apply H1|].
    apply (same_at_eq a b (i1 + k1 + (t - k1)) (j1 + k1 + (t - k1))); [apply H2|..]; lia.
  - split; [done|]. case_decide; [|done].
    apply Forall_app. split; [done|]. by constructor.
Qed.

Lemma collapse_genuine a b ms :
  Forall (genuine a b) ms → Forall (genuine a b) (collapse ms).
Proof.
  intros Hms. unfold collapse.
  assert (∀ st, genuine a b st.1 → Forall (genuine a b) st.2 →
                genuine a b (foldl collapse_step st ms).1
                ∧ Forall (genuine a b) (foldl collapse_step st ms).2) as Hfold.
  { induction Hms as [|m ms Hm Hms IH]; intros st H1 H2; simpl; [done|].
    destruct (collapse_step_genuine a b st m H1 H2 Hm). by apply IH. }
  destruct (Hfold ((0, 0, 0), [])) as [H1 H2].
  { intros t Ht. unfold m_size in Ht; simpl in Ht. lia. }
  { constructor. }
  destruct (foldl collapse_step _ ms) as [[[i1 j1] k1] na]. simpl in *.
  case_decide; [|done]. apply Forall_app. split; [done|]. by constructor.
Qed.

Lemma get_matching_blocks_genuine a b : Forall (genuine a b) (get_matching_blocks a b).
Proof.
  unfold get_matching_blocks. apply Forall_app. split.
  - apply collapse_genuine. rewrite merge_sort_Permutation.
    apply matching_loop_genuine; [apply chain_b_sound|constructor].
  - constructor; [|constructor]. intros t Ht. unfold m_size in Ht; simpl in Ht. lia.
Qed.

(** *** The blocks are an alignment

    The regions still to be searched and the blocks already found never
    overlap: of any two, one ends in both sequences before the other
    starts.  Sorted, the blocks therefore go up in [a] and in [b] at once. *)

Definition box_of (m : Match) : region :=
  (m_a m, m_a m + m_size m, m_b m, m_b m + m_size m).

Definition before (r1 r2 : region) : Prop :=
  let '(_, ahi1, _, bhi1) := r1 in
  let '(alo2, _, blo2, _) := r2 in
  ahi1 ≤ alo2 ∧ bhi1 ≤ blo2.

Definition apart (r1 r2 : region) : Prop := before r1 r2 ∨ before r2 r1.

Definition inside (r0 r : region) : Prop :=
  let '(alo0, ahi0, blo0, bhi0) := r0 in
  let '(alo, ahi, blo, bhi) := r in
  alo0 ≤ alo ∧ ahi ≤ ahi0 ∧ blo0 ≤ blo ∧ bhi ≤ bhi0.

Fixpoint all_apart (rs : list region) : Prop :=
  match rs with
  | [] => True
  | r :: rs' => Forall (apart r) rs' ∧ all_apart rs'
  end.

Lemma apart_sym r1 r2 : apart r1 r2 → apart r2 r1.
Proof. unfold apart. tauto. Qed.

Lemma apart_inside r0 r r' : inside r0 r → apart r0 r' → apart r r'.
Proof.
  destruct r0 as [[[alo0 ahi0] blo0] bhi0], r as [[[alo ahi] blo] bhi],
    r' as [[[alo' ahi'] blo'] bhi'].
  unfold apart, before, inside. lia.
Qed.

Lemma all_apart_app rs1 rs2 :
  all_apart (rs1 ++ rs2) ↔
  all_apart rs1 ∧ all_apart rs2 ∧ ∀ r1 r2, r1 ∈ rs1 → r2 ∈ rs2 → apart r1 r2.
Proof.
  induction rs1 as [|r rs1 IH]; simpl.
  - split; [intros ?; split; [done|]; split; [done|]; by intros ?? ?%elem_of_nil|tauto].
  - rewrite Forall_app, IH, !Forall_forall. split.
    + intros ((H1 & H2) & H3 & H4 & H5). split; [done|]. split; [done|].
      intros r1 r2 [->|Hr1]%elem_of_cons Hr2; auto.
    + intros ((H1 & H2) & H3 & H4). split; [split; [done|]|].
      * intros r2 Hr2. apply H4; [by left|done].
      * split; [done|]. split; [done|]. intros r1 r2 Hr1 Hr2. apply H4; [by right|done].
Qed.

Lemma all_apart_Permutation rs1 rs2 : rs1 ≡ₚ rs2 → all_apart rs1 → all_apart rs2.
Proof.
  induction 1 as [|r rs1 rs2 Hp IH|r1 r2 rs|rs1 rs2 rs3 _ IH1 _ IH2]; simpl.
  - done.
  - intros [H1 H2]. split; [by rewrite <- Hp|auto].
  - intros ([H1 H2]%Forall_cons & H3 & H4). split; [|done].
    constructor; [by apply apart_sym|done].
  - auto.
Qed.

(** A region gives way to parts of itself that are apart from each other. *)
Lemma all_apart_refine rs1 r news rs2 :
  all_apart (rs1 ++ r :: rs2) → Forall (inside r) news → all_apart news →
  all_apart (rs1 ++ news ++ rs2).
Proof.
  rewrite !all_apart_app. simpl. intros (H1 & (Hr & H2) & Hcross) Hin Hnews.
  rewrite Forall_forall in Hr, Hin.
  split; [done|]. split; [split; [done|]; split; [done|]|].
  - intros r1 r2 Hr1 Hr2. eapply apart_inside; [by apply Hin|by apply Hr].
  - intros r1 r2 Hr1 [Hr2|Hr2]%elem_of_app.
    + apply apart_sym. eapply apart_inside; [by apply Hin|].
      apply apart_sym, Hcross; [done|by left].
    + apply Hcross; [done|by right].
Qed.

Lemma all_apart_drop rs1 r rs2 : all_apart (rs1 ++ r :: rs2) → all_apart (rs1 ++ rs2).
Proof.
  intros Hall. apply (all_apart_refine rs1 r [] rs2 Hall); [constructor|done].
Qed.

(** The block found and the two regions pushed lie in the region searched,
    apart from each other. *)
Lemma push_rest_apart r m queue :
  (let '(alo, ahi, blo, bhi) := r in block_in alo ahi blo bhi m) →
  m_size m ≠ 0 →
  ∃ news, box_of m :: push_rest r m queue = news ++ queue
          ∧ Forall (inside r) news ∧ all_apart news.
Proof.
  destruct r as [[[alo ahi] blo] bhi], m as [[i j] k].
  unfold block_in, push_rest, box_of, m_a, m_b, m_size; simpl.
  intros (Hi & Hj & _ & Hk) Hk0.
  destruct Hk as [Hka Hkb]; [lia|].
  repeat case_decide.
  - exists [(i, i + k, j, j + k); (i + k, ahi, j + k, bhi); (alo, i, blo, j)].
    split; [done|]. split; [repeat constructor; simpl; lia|].
    simpl. repeat split; repeat constructor; unfold apart, before; lia.
  - exists [(i, i + k, j, j + k); (i + k, ahi, j + k, bhi)].
    split; [done|]. split; [repeat constructor; simpl; lia|].
    simpl. repeat split; repeat constructor; unfold apart, before; lia.
  - exists [(i, i + k, j, j + k); (alo, i, blo, j)].
    split; [done|]. split; [repeat constructor; simpl; lia|].
    simpl. repeat split; repeat constructor; unfold apart, before; lia.
  - exists [(i, i + k, j, j + k)].
    split; [done|]. split; [repeat constructor; simpl; lia|].
    simpl. repeat split; repeat constructor.
Qed.

Lemma matching_loop_apart a b b2j queue blocks :
  all_apart ((box_of <$> blocks) ++ queue) → Forall (fun m => m_size m ≠ 0) blocks →
  all_apart (box_of <$> matching_loop a b b2j queue blocks)
  ∧ Forall (fun m => m_size m ≠ 0) (matching_loop a b b2j queue blocks).
Proof.
  funelim (matching_loop a b b2j queue blocks); intros Hall Hpos.
  - by rewrite app_nil_r in Hall.
  - apply H0; [|done]. by apply all_apart_drop in Hall.
  - apply H0.
    + destruct (push_rest_apart r (find_in a b b2j r) queue (find_in_block a b b2j r) Hk)
        as (news & Heq' & Hin & Hnews).
      rewrite fmap_app, <- app_assoc. simpl. rewrite Heq'.
      by apply (all_apart_refine _ r).
    + apply Forall_app. split; [done|]. by constructor.
Qed.

(** [m1] ends, in both sequences, where [m2] has not yet begun. *)
Definition precedes (m1 m2 : Match) : Prop :=
  m_a m1 + m_size m1 ≤ m_a m2 ∧ m_b m1 + m_size m1 ≤ m_b m2.

#[local] Instance Match_le_trans : Transitive Match_le.
Proof.
  intros [[i1 j1] k1] [[i2 j2] k2] [[i3 j3] k3].
  unfold Match_le, m_a, m_b, m_size; simpl. lia.
Qed.

#[local] Instance Match_le_total : Total Match_le.
Proof.
  intros [[i1 j1] k1] [[i2 j2] k2].
  unfold Match_le, m_a, m_b, m_size; simpl. lia.
Qed.

Lemma sorted_apart_precedes (ms : list Match) :
  StronglySorted Match_le ms → all_apart (box_of <$> ms) →
  Forall (fun m => m_size m ≠ 0) ms → StronglySorted precedes ms.
Proof.
  induction 1 as [|m ms Hs IH Hle]; csimpl; [intros; constructor|]; intros [Hap Hall] Hpos.
  apply Forall_cons in Hpos as [Hm Hpos]. constructor; [by apply IH|].
  rewrite Forall_fmap in Hap. rewrite Forall_forall in Hle, Hap, Hpos |- *.
  intros m' Hm'. specialize (Hle m' Hm'). specialize (Hap m' Hm'). specialize (Hpos m' Hm').
  destruct m as [[i1 j1] k1], m' as [[i2 j2] k2].
  unfold precedes, Match_le, apart, before, box_of, m_a, m_b, m_size in *; simpl in *. lia.
Qed.

Lemma StronglySorted_middle_drop {T : Type} (R : relation T) (l1 : list T) (x : T) (l2 : list T) :
  StronglySorted R (l1 ++ x :: l2) → StronglySorted R (l1 ++ l2).
Proof.
  induction l1 as [|y l1 IH]; simpl.
  - by intros [? _]%StronglySorted_inv.
  - intros [Hs Hall]%StronglySorted_inv. constructor; [by apply IH|].
    apply Forall_app in Hall as [H1 [_ H2]%Forall_cons]. by apply Forall_app.
Qed.

Lemma collapse_step_precedes st m rest :
  StronglySorted precedes (st.2 ++ st.1 :: m :: rest) →
  Forall (fun m => m_size m ≠ 0) st.2 →
  StronglySorted precedes ((collapse_step st m).2 ++ (collapse_step st m).1 :: rest)
  ∧ Forall (fun m => m_size m ≠ 0) (collapse_step st m).2.
Proof.
  destruct st as [[[i1 j1] k1] na], m as [[i2 j2] k2]. unfold collapse_step; simpl.
  intros Hs Hpos. case_decide as Hadj; simpl.
  - split; [|done]. destruct Hadj as [<- <-].
    revert Hs. induction na as [|x na IH]; simpl.
    + intros [[Hs Hrest]%StronglySorted_inv Hall]%StronglySorted_inv.
      apply Forall_cons in Hall as [_ Hall]. constructor; [done|].
      eapply Forall_impl; [exact Hrest|].
      intros [[i3 j3] k3]. unfold precedes, m_a, m_b, m_size; simpl. lia.
    + apply Forall_cons in Hpos as [_ Hpos].
      intros [Hs Hall]%StronglySorted_inv. constructor; [by apply IH|].
      apply Forall_app in Hall as [H1 H2]. apply Forall_app. split; [done|].
      apply Forall_cons in H2 as [H2 H3]. apply Forall_cons in H3 as [_ H3].
      constructor; [|done]. destruct x as [[i0 j0] k0].
      unfold precedes, m_a, m_b, m_size in *; simpl in *. lia.
  - case_decide as Hk1.
    + rewrite <- app_assoc. simpl. split; [done|].
      apply Forall_app. split; [done|]. by constructor.
    + split; [|done]. by apply StronglySorted_middle_drop in Hs.
Qed.

Lemma collapse_precedes ms :
  StronglySorted precedes ms →
  StronglySorted precedes (collapse ms) ∧ Forall (fun m => m_size m ≠ 0) (collapse ms).
Proof.
  intros Hms. unfold collapse.
  assert (∀ st, StronglySorted precedes (st.2 ++ st.1 :: ms) →
                Forall (fun m => m_size m ≠ 0) st.2 →
                StronglySorted precedes ((foldl collapse_step st ms).2
                                           ++ [(foldl collapse_step st ms).1])
                ∧ Forall (fun m => m_size m ≠ 0) (foldl collapse_step st ms).2) as Hfold.
  { clear Hms. induction ms as [|m ms IH]; intros st Hs Hpos; simpl; [done|].
    destruct (collapse_step_precedes st m ms Hs Hpos). by apply IH. }
  destruct (Hfold ((0, 0, 0), [])) as [Hs Hpos]; simpl.
  { constructor; [done|]. apply Forall_forall. intros [[i j] k] _.
    unfold precedes, m_a, m_b, m_size; simpl. lia. }
  { constructor. }
  destruct (foldl collapse_step _ ms) as [[[i1 j1] k1] na]. simpl in *.
  case_decide as Hk1.
  - split; [done|]. apply Forall_app. split; [done|]. by constructor.
  - split; [|done]. rewrite <- (app_nil_r na).
    by apply (StronglySorted_middle_drop _ na (i1, j1, k1) []).
Qed.

Lemma genuine_within a b m :
  genuine a b m → m_size m ≠ 0 →
  m_a m + m_size m ≤ length a ∧ m_b m + m_size m ≤ length b.
Proof.
  destruct m as [[i j] k]. unfold genuine, m_a, m_b, m_size; simpl. intros Hm Hk.
  destruct (Hm (k - 1)) as (x & Ha%lookup_lt_Some & Hb%lookup_lt_Some); lia.
Qed.

(** The matching blocks form an alignment of [a] with [b]: each pairs equal
    elements, and each ends in both sequences before the next begins. *)
Definition alignment a b (ms : list Match) : Prop :=
  Forall (genuine a b) ms ∧ StronglySorted precedes ms.

Theorem get_matching_blocks_alignment a b : alignment a b (get_matching_blocks a b).
Proof.
  split; [apply get_matching_blocks_genuine|].
  pose proof (get_matching_blocks_genuine a b) as Hgen.
  unfold get_matching_blocks in *.
  set (found := matching_loop a b (chain_b b) [(0, length a, 0, length b)] []) in *.
  destruct (matching_loop_apart a b (chain_b b) [(0, length a, 0, length b)] [])
    as [Hap Hpos]; [simpl; by split|constructor|]. fold found in Hap, Hpos.
  assert (StronglySorted precedes (merge_sort Match_le found)) as Hsorted.
  { apply sorted_apart_precedes.
    - apply StronglySorted_merge_sort; apply _.
    - eapply all_apart_Permutation; [|exact Hap].
      apply fmap_Permutation. symmetry. apply merge_sort_Permutation.
    - by rewrite merge_sort_Permutation. }
  destruct (collapse_precedes _ Hsorted) as [Hs Hnz].
  apply Forall_app in Hgen as [Hgen _].
  apply StronglySorted_app_2; [|done|repeat constructor].
  intros m m' Hm ->%list_elem_of_singleton.
  rewrite Forall_forall in Hgen, Hnz.
  apply (genuine_within a b m); auto.
Qed.

End SequenceMatcher.
End difflib_facts.

(** ** The library's count is the specification's

    For a second sequence of fewer than 200 elements, where [autojunk] is
    idle, [find_longest_match] returns the longest block of the region,
    the first in [a] and then in [b] among the longest, so that the blocks
    of [get_matching_blocks] match as many elements as [lmb_matches]
    counts. *)

Module difflib_longest.
Import difflib difflib_facts lmb.

(** *** The first of the largest *)










Section Longest.
Context {A : Type} `{Countable A}.
Implicit Types (a b : list A) (b2j : gmap A (list nat)) (j2len : gmap nat nat).





(** *** The specification's block *)







(** *** The library's block

    The run of equal elements that ends just before [(i, j)] without
    leaving the region: what [j2len] records. *)

























(** *** The blocks, region by region *)









End Longest.
End difflib_longest.

(** A string has as many characters as its list. *)
Lemma length_list_ascii (s : string) : length (list_ascii_of_string s) = String.length s.
Proof. induction s as [|c s IH]; simpl; [done|]. by rewrite IH. Qed.

(** ** Floats and lists *)

Lemma Qlt_bool_iff (x y : Q) : Qlt_bool x y = true ↔ (x < y)%Q.
Proof.
  unfold Qlt_bool. rewrite negb_true_iff, <- not_true_iff_false, Qle_bool_iff.
  split; [apply Qnot_le_lt|apply Qlt_not_le].
Qed.

Lemma Qlt_bool_false (x y : Q) : Qlt_bool x y = false ↔ (y <= x)%Q.
Proof. unfold Qlt_bool. by rewrite negb_false_iff, Qle_bool_iff. Qed.

Lemma pymax_Qmax (x y : Q) : (pymax x y == Qmax x y)%Q.
Proof.
  unfold pymax. destruct (Qlt_bool x y) eqn:E.
  - apply Qlt_bool_iff in E. symmetry. apply Q.max_r. by apply Qlt_le_weak.
  - apply Qlt_bool_false in E. symmetry. by apply Q.max_l.
Qed.

Lemma pymax3_Qmax (x y z : Q) : (pymax3 x y z == Qmax (Qmax x y) z)%Q.
Proof. unfold pymax3. by rewrite !pymax_Qmax. Qed.

Lemma truthy_float_iff (x : Q) : truthy_float x = true ↔ ¬ (x == 0)%Q.
Proof.
  unfold truthy_float. rewrite negb_true_iff, <- not_true_iff_false.
  by rewrite Qeq_bool_iff.
Qed.

Lemma slice_to_nonneg {T : Type} (n : Z) (l : list T) :
  (0 ≤ n)%Z → slice_to n l = take (Z.to_nat n) l.
Proof. intros Hn. unfold slice_to. by rewrite (proj2 (Z.ltb_ge n 0) Hn). Qed.

Lemma encontrados_Encontrado (rs : list resultado) : encontrados (Encontrado <$> rs) = rs.
Proof. unfold encontrados. induction rs as [|r rs IH]; csimpl; [done|]. by rewrite IH. Qed.

(** *** The stable sort of [buscar] *)

Definition score_ge (x y : resultado) : Prop := (r_score y <= r_score x)%Q.

Lemma insertar_desc_Permutation x l : insertar_desc x l ≡ₚ x :: l.
Proof.
  induction l as [|y l IH]; simpl; [done|].
  destruct (Qlt_bool (r_score y) (r_score x)); [done|].
  rewrite IH. apply Permutation_swap.
Qed.

Lemma insertar_desc_sorted x l :
  StronglySorted score_ge l → StronglySorted score_ge (insertar_desc x l).
Proof.
  induction 1 as [|y l Hs IH Hall]; simpl.
  - repeat constructor.
  - destruct (Qlt_bool (r_score y) (r_score x)) eqn:E.
    + apply Qlt_bool_iff in E. constructor; [by constructor|].
      constructor; [by apply Qlt_le_weak|].
      eapply Forall_impl; [exact Hall|]. intros z Hz. unfold score_ge in *.
      eapply Qle_trans; [exact Hz|]. by apply Qlt_le_weak.
    + apply Qlt_bool_false in E. constructor; [done|].
      rewrite insertar_desc_Permutation. by constructor.
Qed.

Lemma sort_desc_Permutation l : sort_desc l ≡ₚ l.
Proof.
  unfold sort_desc.
  enough (∀ acc, foldl (fun acc x => insertar_desc x acc) acc l ≡ₚ acc ++ l) as Hacc
    by apply (Hacc []).
  induction l as [|x l IH]; intros acc; simpl; [by rewrite app_nil_r|].
  rewrite IH, insertar_desc_Permutation. simpl. apply Permutation_middle.
Qed.

Lemma sort_desc_sorted l : StronglySorted score_ge (sort_desc l).
Proof.
  unfold sort_desc.
  enough (∀ acc, StronglySorted score_ge acc →
                 StronglySorted score_ge (foldl (fun acc x => insertar_desc x acc) acc l)) as Hacc
    by (apply Hacc; constructor).
  induction l as [|x l IH]; intros acc Hacc; simpl; [done|].
  by apply IH, insertar_desc_sorted.
Qed.

(** ** The search *)

Section Busqueda.
Variable lower : string → string.
Variable fromisoformat_timestamp : string → option Q.

Lemma score_nombre_bounds query name : (0 <= score_nombre lower query name <= 1)%Q.
Proof. apply difflib_facts.ratio_bounds. Qed.

(** A row goes into [resultados]: it passes the filters and its score
    reaches [args.threshold or 0.4]. *)
Definition entra (query : string) (args : Namespace) (conn : database) (row : fila) : bool :=
  aplica_filtros lower fromisoformat_timestamp row args conn
  && Qle_bool (umbral args) (r_score (puntuar lower query row conn)).

Lemma buscar_filas query args conn rows acc :
  foldl (buscar_fila lower fromisoformat_timestamp query args conn) acc rows
  = acc ++ ((fun row => puntuar lower query row conn)
              <$> filter (fun row => entra query args conn row) rows).
Proof.
  revert acc. induction rows as [|row rows IH]; intros acc; simpl; [by rewrite app_nil_r|].
  rewrite IH, filter_cons. set (F := filter _ rows). unfold buscar_fila.
  destruct (decide (entra query args conn row)) as [He|He].
  - apply Is_true_true in He. unfold entra in He. apply andb_true_iff in He as [Hf Hs].
    rewrite Hf, Hs. csimpl. by rewrite <- app_assoc.
  - apply Is_true_false in He. unfold entra in He.
    destruct (aplica_filtros _ _ row args conn); simpl in *; [by rewrite He|done].
Qed.

Lemma resultados_Permutation query args conn :
  resultados lower fromisoformat_timestamp query args conn
  ≡ₚ (fun row => puntuar lower query row conn)
       <$> filter (fun row => entra query args conn row) (archivos conn).
Proof. unfold resultados. by rewrite sort_desc_Permutation, buscar_filas. Qed.

Lemma elem_of_resultados query args conn r :
  r ∈ resultados lower fromisoformat_timestamp query args conn ↔
  ∃ row, row ∈ archivos conn ∧
         aplica_filtros lower fromisoformat_timestamp row args conn = true ∧
         (umbral args <= r_score (puntuar lower query row conn))%Q ∧
         r = puntuar lower query row conn.
Proof.
  rewrite resultados_Permutation, list_elem_of_fmap. split.
  - intros (row & -> & Hrow). apply list_elem_of_filter in Hrow as [Hentra Hrow].
    unfold entra in Hentra. apply Is_true_true, andb_true_iff in Hentra as [Hf Hs].
    apply Qle_bool_iff in Hs. by exists row.
  - intros (row & Hrow & Hf & Hs & ->). exists row. split; [done|].
    apply list_elem_of_filter. split; [|done].
    unfold entra. apply Is_true_true, andb_true_iff. split; [done|]. by apply Qle_bool_iff.
Qed.

Lemma encontrados_buscar query args conn :
  encontrados (buscar lower fromisoformat_timestamp query args conn)
  = slice_to (arg_limit args) (resultados lower fromisoformat_timestamp query args conn).
Proof.
  unfold buscar. destruct (resultados _ _ query args conn) as [|r rs] eqn:E.
  - unfold slice_to. by destruct (_ <? _)%Z; rewrite take_nil.
  - apply encontrados_Encontrado.
Qed.

Lemma slice_to_subseteq {T : Type} (n : Z) (l : list T) : slice_to n l ⊆ l.
Proof. unfold slice_to. destruct (_ <? _)%Z; apply subseteq_take. Qed.

End Busqueda.

Example buscar_report :
  r_path <$> encontrados (buscar lower_ascii una_fecha "report" args_defecto db_informes)
  = ["/d/xyz.log"; "/d/report.pdf"; "/d/reports_2023.txt"].
Proof. vm_compute. reflexivity. Qed.

Example buscar_report_sin_tags :
  r_path <$> encontrados (buscar lower_ascii una_fecha "Report" args_defecto
                            (Database (archivos db_informes) []))
  = ["/d/report.pdf"; "/d/reports_2023.txt"].
Proof. vm_compute. reflexivity. Qed.

(** ** C1 *)



(** ** C2 *)


Lemma umbral_truthy (args : Namespace) :
  ¬ (arg_threshold args == 0)%Q → umbral args = arg_threshold args.
Proof. intros Hth. unfold umbral. by rewrite (proj2 (truthy_float_iff _) Hth). Qed.

Lemma umbral_cero (args : Namespace) :
  (arg_threshold args == 0)%Q → umbral args = (4 # 10)%Q.
Proof.
  intros Hth. unfold umbral, truthy_float. by rewrite (Qeq_eq_bool _ _ Hth).
Qed.




(** ** C10 *)

(** C10. A threshold of exactly 0.0 is read as none and replaced by 0.4:
    there is a store with a row that passes all the filters and scores 2/9,
    strictly between 0.0 and 0.4, which a search with threshold 0.0 leaves
    out, though the same search with threshold 0.1 prints it. *)
Theorem umbral_cero_es_defecto :
  ∃ (conn : database) (row : fila) (query : string) (args : Namespace),
    arg_threshold args = 0%Q
    ∧ umbral args = (4 # 10)%Q
    ∧ row ∈ archivos conn
    ∧ aplica_filtros lower_ascii una_fecha row args conn = true
    ∧ (0 < r_score (puntuar lower_ascii query row conn) < 4 # 10)%Q
    ∧ buscar lower_ascii una_fecha query args conn = [NoSeEncontraron]
    ∧ (puntuar lower_ascii query row conn
         ∉ encontrados (buscar lower_ascii una_fecha query args conn))
    ∧ encontrados (buscar lower_ascii una_fecha query
                     (Args None None None None None None 20 (1 # 10)) conn)
      = [puntuar lower_ascii query row conn].
Proof.
  exists db_q, fila_q, "q", args_umbral_cero.
  split; [done|]. split; [done|]. split; [apply list_elem_of_here|].
  split; [by vm_compute|]. split; [by vm_compute|]. split; [by vm_compute|].
  split; [|by vm_compute].
  assert (encontrados (buscar lower_ascii una_fecha "q" args_umbral_cero db_q) = []) as ->
    by by vm_compute.
  apply not_elem_of_nil.
Qed.

(** ** C3 *)

(** The lower-cased argument as [SequenceMatcher] sees it. *)
Definition minusculas (lower : string → string) (x : string) : list ascii :=
  list_ascii_of_string (lower x).











(** ** The tables *)

Section Tablas.
Context {R K : Type} `{EqDecision K} (key : R → K).

Lemma filter_key_ne_id (k : K) (table : list R) :
  k ∉ key <$> table → filter (fun r => key r ≠ k) table = table.
Proof.
  induction table as [|r table IH]; csimpl; [done|].
  intros Hk. apply not_elem_of_cons in Hk as [Hne Hk].
  rewrite filter_cons_True by done. by rewrite IH.
Qed.

Lemma filter_key_eq_nil (k : K) (table : list R) :
  k ∉ key <$> table → filter (fun r => key r = k) table = [].
Proof.
  induction table as [|r table IH]; csimpl; [done|].
  intros Hk. apply not_elem_of_cons in Hk as [Hne Hk].
  rewrite filter_cons_False by done. by apply IH.
Qed.

(** Under the UNIQUE constraint a key names at most one row. *)
Lemma filter_key_eq_length (k : K) (table : list R) :
  NoDup (key <$> table) → k ∈ key <$> table →
  length (filter (fun r => key r = k) table) = 1.
Proof.
  induction table as [|r table IH]; csimpl; [by intros _ ?%elem_of_nil|].
  intros [Hr Hnd]%NoDup_cons Hk.
  destruct (decide (key r = k)) as [<-|Hne].
  - rewrite filter_cons_True by done. simpl. by rewrite filter_key_eq_nil.
  - rewrite filter_cons_False by done. apply IH; [done|].
    by apply elem_of_cons in Hk as [?|?].
Qed.

Lemma length_filter_key (k : K) (table : list R) :
  length (filter (fun r => key r = k) table) + length (filter (fun r => key r ≠ k) table)
  = length table.
Proof.
  induction table as [|r table IH]; [done|].
  rewrite !filter_cons. repeat case_decide; simpl; try done; lia.
Qed.

(** [INSERT OR REPLACE] never raises, and what it leaves is the table
    without the rows of that key, then the new row. *)
Lemma sql_insert_replace (row : R) (table : list R) :
  sql_insert key OrReplace row table
  = Ok (filter (fun r => key r ≠ key row) table ++ [row]).
Proof.
  unfold sql_insert. case_decide as Hk; [done|]. by rewrite filter_key_ne_id.
Qed.

Lemma sql_insert_replace_NoDup (row : R) (table : list R) :
  NoDup (key <$> table) →
  NoDup (key <$> (filter (fun r => key r ≠ key row) table ++ [row])).
Proof.
  intros Hnd. rewrite fmap_app. apply NoDup_app. split; [|split].
  - eapply sublist_NoDup; [exact Hnd|]. apply fmap_sublist, sublist_filter.
  - intros k Hk Hrow. apply list_elem_of_fmap in Hk as (r & -> & Hr).
    apply list_elem_of_filter in Hr as [Hne _].
    apply list_elem_of_singleton in Hrow. done.
  - apply NoDup_singleton.
Qed.

(** [INSERT OR IGNORE] never raises either. *)
Lemma sql_insert_ignore (row : R) (table : list R) :
  sql_insert key OrIgnore row table
  = Ok (if decide (key row ∈ key <$> table) then table else table ++ [row]).
Proof. unfold sql_insert. by case_decide. Qed.

End Tablas.

(** ** The store's invariants *)

(** The two UNIQUE constraints. *)
Definition unica (conn : database) : Prop :=
  NoDup (f_path <$> archivos conn) ∧ NoDup (tags conn).

Section Invariantes.
Variable lower : string → string.

Lemma indexar_archivo_total os verbose root f tabla contador out :
  ∃ tabla' contador' out',
    indexar_archivo lower os verbose root f (tabla, contador, out)
    = Ok (tabla', contador', out')
    ∧ (NoDup (f_path <$> tabla) → NoDup (f_path <$> tabla')).
Proof.
  unfold indexar_archivo. destruct (path_stat os _) as [[size mtime]|].
  - rewrite sql_insert_replace. eexists _, _, _. split; [reflexivity|].
    apply (sql_insert_replace_NoDup f_path).
  - by eexists _, _, _.
Qed.

Lemma indexar_bucle_total os verbose fs tabla contador out :
  ∃ tabla' contador' out',
    indexar_bucle lower os verbose fs (tabla, contador, out) = Ok (tabla', contador', out')
    ∧ (NoDup (f_path <$> tabla) → NoDup (f_path <$> tabla')).
Proof.
  revert tabla contador out.
  induction fs as [|[root f] fs IH]; intros tabla contador out; cbn [indexar_bucle].
  - by eexists _, _, _.
  - destruct (indexar_archivo_total os verbose root f tabla contador out)
      as (tabla1 & contador1 & out1 & -> & Hnd1). cbn [mbind sql_bind].
    destruct (IH tabla1 contador1 out1) as (tabla2 & contador2 & out2 & -> & Hnd2).
    eexists _, _, _. split; [done|]. auto.
Qed.

(** Once [Path.exists] has answered, [indexar] comes to an end without an
    error, and it leaves the [tags] table alone. *)
Lemma indexar_total os ruta conn verbose :
  path_exists os (Path os ruta) ≠ None →
  ∃ conn' out, indexar lower os ruta conn verbose = Ok (conn', out)
               ∧ tags conn' = tags conn
               ∧ (NoDup (f_path <$> archivos conn) → NoDup (f_path <$> archivos conn')).
Proof.
  intros Hex. unfold indexar. destruct (path_exists os (Path os ruta)) as [[|]|]; [| |done].
  - destruct (indexar_bucle_total os verbose (archivos_de (os_walk os (Path os ruta)))
                (archivos conn) 0 []) as (tabla & contador & out & -> & Hnd).
    simpl. by eexists _, _.
  - by eexists _, _.
Qed.

(** The only error of [indexar] is the one of [Path.exists]. *)
Lemma indexar_Ok os ruta conn verbose conn' out :
  indexar lower os ruta conn verbose = Ok (conn', out) →
  path_exists os (Path os ruta) ≠ None.
Proof. unfold indexar. by destruct (path_exists os (Path os ruta)). Qed.

Lemma tag_add_total path tag conn :
  tag_add path tag conn
  = Ok (Database (archivos conn)
          (if decide ((path, tag) ∈ tags conn) then tags conn else tags conn ++ [(path, tag)]),
        [TagAnadido tag path]).
Proof.
  unfold tag_add. rewrite sql_insert_ignore. simpl.
  by rewrite list_fmap_id.
Qed.

Lemma alcanzable_unica conn : alcanzable lower conn → unica conn.
Proof.
  induction 1 as [|os ruta verbose conn conn' out _ [IHa IHt] Hix
                  |path tag conn conn' out _ [IHa IHt] Hadd
                  |path tag conn _ [IHa IHt]].
  - split; constructor.
  - destruct (indexar_total os ruta conn verbose (indexar_Ok _ _ _ _ _ _ Hix))
      as (c & o & Hc & Ht & Hnd).
    rewrite Hc in Hix. injection Hix as <- <-. split; [auto|by rewrite Ht].
  - rewrite tag_add_total in Hadd. injection Hadd as <- <-. split; [done|]. simpl.
    case_decide as Hin; [done|]. apply NoDup_app. split; [done|]. split.
    + intros r Hr ->%list_elem_of_singleton. done.
    + apply NoDup_singleton.
  - split; [done|]. simpl. by apply NoDup_filter.
Qed.

End Invariantes.

Example indexar_ejemplo :
  indexar lower_ascii os_ejemplo "/d" db_vacia false
  = Ok (Database [Fila 1 "/d/informe.PDF" "informe.PDF" "pdf" 2048 (inject_Z 100);
                  Fila 2 "/d/sub/.oculto" ".oculto" "" 2048 (inject_Z 100)] [],
        [IndexacionCompletada 2]).
Proof. reflexivity. Qed.

Example reindexar_ejemplo :
  indexar lower_ascii os_ejemplo "/d" db_indexada false
  = Ok (Database [Fila 3 "/d/informe.PDF" "informe.PDF" "pdf" 2048 (inject_Z 100);
                  Fila 4 "/d/sub/.oculto" ".oculto" "" 2048 (inject_Z 100)] [],
        [IndexacionCompletada 2]).
Proof. reflexivity. Qed.

Lemma alcanzable_db_indexada : alcanzable lower_ascii db_indexada.
Proof.
  apply (alc_indexar lower_ascii os_ejemplo "/d" false db_vacia db_indexada
           [IndexacionCompletada 2]); [apply alc_vacia|reflexivity].
Qed.

(** ** C4 *)

(** C4. In every state that the commands can reach there is at most one row
    of [archivos] for a path; and when [indexar] comes to a file that it
    can read, the step raises no error and counts the file, the row it
    writes (with a new rowid and what was read) is afterwards the only row
    of that path, whatever rows the path had before, and the rows of other
    paths are as they were; so the step keeps the property, and when the
    path was already there the table has as many rows as before. *)
Theorem una_fila_por_path (lower : string → string) :
  (∀ conn, alcanzable lower conn → NoDup (f_path <$> archivos conn))
  ∧ (∀ (os : sistema) (verbose : bool) (root f : string) (tabla : list fila)
       (contador : nat) (out : list salida) (size : Z) (mtime : Q),
       path_stat os (path_join os root f) = Some (size, mtime) →
       ∃ tabla' out',
         indexar_archivo lower os verbose root f (tabla, contador, out)
         = Ok (tabla', contador + 1, out')
         ∧ filter (fun r => f_path r = path_join os root f) tabla'
           = [Fila (next_rowid tabla) (path_join os root f)
                (path_name os (path_join os root f))
                (lstrip_dot (lower (path_suffix os (path_join os root f)))) size mtime]
         ∧ filter (fun r => f_path r ≠ path_join os root f) tabla'
           = filter (fun r => f_path r ≠ path_join os root f) tabla
         ∧ (NoDup (f_path <$> tabla) → NoDup (f_path <$> tabla'))
         ∧ (NoDup (f_path <$> tabla) → path_join os root f ∈ f_path <$> tabla →
            length tabla' = length tabla)).
Proof.
  split; [intros conn Hconn; by apply (alcanzable_unica lower)|].
  intros os verbose root f tabla contador out size mtime Hstat.
  unfold indexar_archivo. rewrite Hstat.
  set (p := path_join os root f).
  set (row := Fila (next_rowid tabla) p (path_name os p)
                (lstrip_dot (lower (path_suffix os p))) size mtime).
  rewrite sql_insert_replace. cbn [mbind sql_bind]. change (f_path row) with p.
  eexists _, _. split; [reflexivity|].
  rewrite !filter_app, !filter_cons, !filter_nil.
  change (f_path row) with p. rewrite decide_True, decide_False by auto.
  rewrite list_filter_filter, (list_filter_filter_l _ _ tabla) by done.
  rewrite app_nil_r.
  assert (filter (fun r => f_path r = p ∧ f_path r ≠ p) tabla = []) as ->.
  { clear. induction tabla as [|r tabla IH]; [done|].
    by rewrite filter_cons_False by tauto. }
  split; [done|]. split; [done|].
  split; [apply (sql_insert_replace_NoDup f_path row)|].
  intros Hnd Hin. rewrite length_app. simpl.
  pose proof (filter_key_eq_length f_path p tabla Hnd Hin).
  pose proof (length_filter_key f_path p tabla). lia.
Qed.

Lemma una_fila_por_path_witness :
  NoDup (f_path <$> archivos db_indexada)
  ∧ ∃ tabla' out',
      indexar_archivo lower_ascii os_ejemplo false "/d" "informe.PDF"
        (archivos db_indexada, 0, [])
      = Ok (tabla', 1, out')
      ∧ filter (fun r => f_path r = "/d/informe.PDF") tabla'
        = [Fila 3 "/d/informe.PDF" "informe.PDF" "pdf" 2048 (inject_Z 100)]
      ∧ length tabla' = 2.
Proof.
  split.
  - apply (proj1 (una_fila_por_path lower_ascii) db_indexada alcanzable_db_indexada).
  - destruct (proj2 (una_fila_por_path lower_ascii) os_ejemplo false "/d" "informe.PDF"
                (archivos db_indexada) 0 [] 2048%Z (inject_Z 100) eq_refl)
      as (tabla' & out' & Hix & Hrow & _ & _ & Hlen).
    exists tabla', out'. split; [exact Hix|]. split; [exact Hrow|].
    apply Hlen.
    + apply (proj1 (una_fila_por_path lower_ascii) db_indexada alcanzable_db_indexada).
    + vm_compute. apply list_elem_of_here.
Defined.

(** ** C7 *)

Lemma filter_eq_length {T : Type} `{EqDecision T} (x : T) (l : list T) :
  NoDup l → x ∈ l → length (filter (fun r => r = x) l) = 1.
Proof.
  induction l as [|y l IH]; [by intros _ ?%elem_of_nil|].
  intros [Hy Hnd]%NoDup_cons Hx.
  destruct (decide (y = x)) as [->|Hne].
  - rewrite filter_cons_True by done. simpl. f_equal.
    induction l as [|z l IHl]; [done|].
    apply not_elem_of_cons in Hy as [Hz Hy]. rewrite filter_cons_False by done.
    apply IHl; [|done| |].
    + intros _ Hin. by destruct Hy.
    + by apply NoDup_cons in Hnd as [_ ?].
    + by left.
  - rewrite filter_cons_False by done. apply IH; [done|].
    by apply elem_of_cons in Hx as [?|?].
Qed.

Lemma tag_remove_absent path tag conn :
  (path, tag) ∉ tags conn → tag_remove path tag conn = (conn, [TagEliminado tag path]).
Proof.
  intros Hout. unfold tag_remove. destruct conn as [arch tgs]. simpl in *. do 2 f_equal.
  induction tgs as [|[p t] tgs IH]; [done|].
  apply not_elem_of_cons in Hout as [Hne Hout].
  rewrite filter_cons_True; [by rewrite IH|].
  simpl. intros [-> ->]. done.
Qed.

(** C7. In a reachable state, [tag_add] of a pair raises no error and a
    second [tag_add] of it changes nothing: the pair is there exactly once;
    and [tag_remove] of a pair that is not there leaves the database as it
    was. *)
Theorem tag_add_idempotente (lower : string → string) (conn : database) (path tag : string) :
  alcanzable lower conn →
  ∃ conn1, tag_add path tag conn = Ok (conn1, [TagAnadido tag path])
    ∧ tag_add path tag conn1 = Ok (conn1, [TagAnadido tag path])
    ∧ length (filter (fun r => r = (path, tag)) (tags conn1)) = 1
    ∧ ((path, tag) ∈ tags conn → conn1 = conn)
    ∧ ((path, tag) ∉ tags conn →
         tag_remove path tag conn = (conn, [TagEliminado tag path])).
Proof.
  intros Hconn. destruct (alcanzable_unica lower conn Hconn) as [_ Hnd].
  rewrite tag_add_total. eexists. split; [reflexivity|].
  rewrite tag_add_total. simpl.
  set (tgs := if decide ((path, tag) ∈ tags conn) then tags conn else tags conn ++ [(path, tag)]).
  assert ((path, tag) ∈ tgs) as Hin.
  { unfold tgs. case_decide; [done|]. apply elem_of_app. right. apply list_elem_of_here. }
  assert (NoDup tgs) as Hnd1.
  { unfold tgs. case_decide as Hc; [done|]. apply NoDup_app. split; [done|]. split.
    - intros r Hr ->%list_elem_of_singleton. done.
    - apply NoDup_singleton. }
  split; [by rewrite decide_True|].
  split; [by apply filter_eq_length|].
  split; [|apply tag_remove_absent].
  intros Hc. unfold tgs. rewrite decide_True by done. by destruct conn.
Qed.

Lemma tag_add_idempotente_witness :
  ∃ conn1, tag_add "/d/informe.PDF" "trabajo" db_indexada
           = Ok (conn1, [TagAnadido "trabajo" "/d/informe.PDF"])
    ∧ tag_add "/d/informe.PDF" "trabajo" conn1
      = Ok (conn1, [TagAnadido "trabajo" "/d/informe.PDF"])
    ∧ tag_remove "/d/informe.PDF" "trabajo" db_indexada
      = (db_indexada, [TagEliminado "trabajo" "/d/informe.PDF"]).
Proof.
  destruct (tag_add_idempotente lower_ascii db_indexada "/d/informe.PDF" "trabajo"
              alcanzable_db_indexada) as (conn1 & H1 & H2 & _ & _ & Hrm).
  exists conn1. split; [exact H1|]. split; [exact H2|].
  apply Hrm. vm_compute. apply not_elem_of_nil.
Defined.

(** ** C8 *)

(** A name of 300 characters: nothing of that name exists, and [stat]
    fails on it with ENAMETOOLONG. *)
Definition ruta_larga : string :=
  Eval vm_compute in string_of_list_ascii (replicate 300 "x"%char).

(** C8. When [Path.exists] answers that the root does not exist, [indexar]
    prints that it does not and returns with the database as it was; but
    when [Path.exists] raises, as it does for a root that does not exist
    and whose name is too long, [indexar] ends in that [OSError] and
    prints nothing. *)
Theorem indexar_ruta_inexistente (lower : string → string) (os : sistema)
    (ruta : string) (conn : database) (verbose : bool) :
  (path_exists os (Path os ruta) = Some false →
   indexar lower os ruta conn verbose = Ok (conn, [RutaNoExiste (Path os ruta)]))
  ∧ (path_exists os (Path os ruta) = None →
     indexar lower os ruta conn verbose = OSError).
Proof. unfold indexar. split; by intros ->. Qed.

Lemma indexar_ruta_inexistente_witness :
  indexar lower_ascii os_ejemplo "/no/existe" db_indexada true
  = Ok (db_indexada, [RutaNoExiste "/no/existe"])
  ∧ os_walk os_ejemplo ruta_larga = []
  ∧ indexar lower_ascii os_ejemplo ruta_larga db_indexada true = OSError.
Proof.
  split; [|split; [reflexivity|]].
  - by apply (proj1 (indexar_ruta_inexistente lower_ascii os_ejemplo "/no/existe"
                       db_indexada true)).
  - by apply (proj2 (indexar_ruta_inexistente lower_ascii os_ejemplo ruta_larga
                       db_indexada true)).
Defined.

(** ** C9 *)

(** The rows give each tag of the table once, with the number of distinct
    paths that hold it. *)
Definition cuentas_de_tags (tabla : list (string * string)) (rows : list (string * nat)) : Prop :=
  NoDup rows.*1 ∧
  ∀ t c, (t, c) ∈ rows ↔
         t ∈ tabla.*2 ∧ c = length (remove_dups (filter (fun r => r.2 = t) tabla).*1).

Definition cuenta_ge (x y : string * nat) : Prop := y.2 ≤ x.2.

(** Descending counts, and ascending tags among equal counts. *)
Definition cuenta_ge_tag_le (x y : string * nat) : Prop :=
  y.2 < x.2 ∨ (y.2 = x.2 ∧ String.le x.1 y.1).

Definition tag_counts_con_desempate (order_by : list (string * nat) → list (string * nat))
    (conn : database) : Prop :=
  cuentas_de_tags (tags conn) (list_tags_rows order_by conn)
  ∧ StronglySorted cuenta_ge_tag_le (list_tags_rows order_by conn).

Lemma remove_dups_NoDup_id {T : Type} `{EqDecision T} (l : list T) :
  NoDup l → remove_dups l = l.
Proof.
  induction 1 as [|x l Hx Hnd IH]; simpl; [done|].
  destruct (decide_rel elem_of x l); [done|]. by rewrite IH.
Qed.

Lemma paths_of_tag_NoDup (t : string) (tabla : list (string * string)) :
  NoDup tabla → NoDup (filter (fun r => r.2 = t) tabla).*1.
Proof.
  induction 1 as [|[p t'] tabla Hx Hnd IH]; [constructor|].
  rewrite filter_cons. case_decide as Ht; [|done]. simpl in Ht. subst t'.
  csimpl. constructor; [|done].
  intros Hp. apply list_elem_of_fmap in Hp as ([p' t'] & Hpp & Hin).
  apply list_elem_of_filter in Hin as [Ht' Hin]. simpl in *. by subst.
Qed.

Lemma group_by_tag_cuentas (tabla : list (string * string)) :
  NoDup tabla → cuentas_de_tags tabla (group_by_tag tabla).
Proof.
  intros Hnd. unfold cuentas_de_tags, group_by_tag. split.
  - assert (∀ (g : string → nat) (l : list string),
              ((fun t => (t, g t)) <$> l).*1 = l) as Hfst.
    { intros g l. induction l as [|t l IH]; csimpl; [done|]. by rewrite IH. }
    rewrite Hfst. apply NoDup_remove_dups.
  - intros t c. rewrite list_elem_of_fmap. split.
    + intros (t' & [= -> ->] & Ht). rewrite elem_of_remove_dups in Ht. split; [done|].
      by rewrite (remove_dups_NoDup_id _ (paths_of_tag_NoDup t' tabla Hnd)), length_fmap.
    + intros [Ht ->]. exists t. split; [|by rewrite elem_of_remove_dups].
      by rewrite (remove_dups_NoDup_id _ (paths_of_tag_NoDup t tabla Hnd)), length_fmap.
Qed.

Lemma cuentas_de_tags_Permutation tabla rows rows' :
  rows ≡ₚ rows' → cuentas_de_tags tabla rows → cuentas_de_tags tabla rows'.
Proof.
  intros Hp [Hnd Hmem]. split.
  - by rewrite <- Hp.
  - intros t c. by rewrite <- Hp.
Qed.

Lemma cuenta_ge_trans : Transitive cuenta_ge.
Proof. intros x y z. unfold cuenta_ge. lia. Qed.

(** C9, amended.  Whatever order the engine gives to rows of equal count,
    in a reachable state the rows of [list_tags] give each tag once, with
    the number of distinct paths that hold it, and are sorted by descending
    count. *)
Theorem list_tags_cuentas (lower : string → string)
    (order_by : list (string * nat) → list (string * nat)) (conn : database) :
  order_by_count_desc order_by → alcanzable lower conn →
  cuentas_de_tags (tags conn) (list_tags_rows order_by conn)
  ∧ StronglySorted cuenta_ge (list_tags_rows order_by conn).
Proof.
  intros Horder Hconn. destruct (alcanzable_unica lower conn Hconn) as [_ Hnd].
  destruct (Horder (group_by_tag (tags conn))) as [Hperm Hsorted]. split.
  - eapply cuentas_de_tags_Permutation; [symmetry; exact Hperm|].
    by apply group_by_tag_cuentas.
  - apply Sorted_StronglySorted; [apply cuenta_ge_trans|exact Hsorted].
Qed.

(** The sample engine is one that SQL allows. *)
Lemma insertar_cuenta_Permutation x l : insertar_cuenta x l ≡ₚ x :: l.
Proof.
  induction l as [|y l IH]; simpl; [done|].
  case_bool_decide; [done|]. rewrite IH. apply Permutation_swap.
Qed.

Lemma insertar_cuenta_sorted x l :
  StronglySorted cuenta_ge l → StronglySorted cuenta_ge (insertar_cuenta x l).
Proof.
  induction 1 as [|y l Hs IH Hall]; simpl.
  - repeat constructor.
  - case_bool_decide as E.
    + constructor; [by constructor|]. constructor; [unfold cuenta_ge; lia|].
      eapply Forall_impl; [exact Hall|]. intros z Hz. unfold cuenta_ge in *. lia.
    + constructor; [done|]. rewrite insertar_cuenta_Permutation.
      constructor; [unfold cuenta_ge; lia|done].
Qed.

Lemma orden_estable_order_by : order_by_count_desc orden_estable.
Proof.
  intros rows. unfold orden_estable.
  enough (∀ acc, StronglySorted cuenta_ge acc →
            foldl (fun acc x => insertar_cuenta x acc) acc rows ≡ₚ acc ++ rows
            ∧ StronglySorted cuenta_ge (foldl (fun acc x => insertar_cuenta x acc) acc rows))
    as Hacc.
  { destruct (Hacc [] (SSorted_nil _)) as [Hp Hs]. split; [done|].
    by apply StronglySorted_Sorted. }
  induction rows as [|x rows IH]; intros acc Hs; simpl.
  - by rewrite app_nil_r.
  - destruct (IH (insertar_cuenta x acc) (insertar_cuenta_sorted x acc Hs)) as [Hp Hs'].
    split; [|done]. rewrite Hp, insertar_cuenta_Permutation. simpl. apply Permutation_middle.
Qed.

Lemma alcanzable_db_tags_ba : alcanzable lower_ascii db_tags_ba.
Proof.
  apply (alc_tag_add lower_ascii "/d/x" "a" (Database [] [("/d/x", "b")]) _
           [TagAnadido "a" "/d/x"]); [|reflexivity].
  apply (alc_tag_add lower_ascii "/d/x" "b" db_vacia _ [TagAnadido "b" "/d/x"]);
    [apply alc_vacia|reflexivity].
Qed.

Lemma list_tags_cuentas_witness :
  cuentas_de_tags (tags db_tags_ba) (list_tags_rows orden_estable db_tags_ba)
  ∧ StronglySorted cuenta_ge (list_tags_rows orden_estable db_tags_ba).
Proof.
  apply (list_tags_cuentas lower_ascii orden_estable db_tags_ba).
  - exact orden_estable_order_by.
  - exact alcanzable_db_tags_ba.
Defined.

(** C9 as stated asks for ascending tags among equal counts, which the
    query does not: an engine that keeps the groups in scan order prints
    [b (1)] before [a (1)]. *)
Lemma list_tags_cuentas_counterexample :
  order_by_count_desc orden_estable
  ∧ alcanzable lower_ascii db_tags_ba
  ∧ list_tags orden_estable db_tags_ba = [TagCuenta "b" 1; TagCuenta "a" 1]
  ∧ ¬ tag_counts_con_desempate orden_estable db_tags_ba.
Proof.
  split; [exact orden_estable_order_by|]. split; [exact alcanzable_db_tags_ba|].
  split; [reflexivity|].
  intros [_ Hs]. change (list_tags_rows orden_estable db_tags_ba) with [("b", 1); ("a", 1)] in Hs.
  apply StronglySorted_inv in Hs as [_ Hall]. apply Forall_inv in Hall.
  destruct Hall as [Hlt|[_ Hle]]; simpl in *; [lia|]. by vm_compute in Hle.
Qed.

(** ** The filters: C5 and C6 *)

Section Filtros.
Variable lower : string → string.
Variable fromisoformat_timestamp : string → option Q.

(** The predicates are combined by conjunction: a row is admitted exactly
    when none of the six tests rejects it. *)
Lemma aplica_filtros_and row args conn :
  aplica_filtros lower fromisoformat_timestamp row args conn = true ↔
  falla_ext lower row args = false ∧ falla_tag row args conn = false
  ∧ falla_min_size row args = false ∧ falla_max_size row args = false
  ∧ falla_after fromisoformat_timestamp row args = false
  ∧ falla_before fromisoformat_timestamp row args = false.
Proof.
  unfold aplica_filtros.
  destruct (falla_ext _ _ _), (falla_tag _ _ _), (falla_min_size _ _),
    (falla_max_size _ _), (falla_after _ _ _), (falla_before _ _ _);
    (split; [try done|by intros (? & ? & ? & ? & ? & ?)]).
Qed.

(** A size bound other than 0 is inclusive. *)
Lemma falla_min_size_bound row args (n : Z) :
  arg_min_size args = Some n → n ≠ 0%Z →
  falla_min_size row args = false ↔ (n ≤ f_size row)%Z.
Proof.
  intros Hn Hne. unfold falla_min_size. rewrite Hn. simpl.
  rewrite (proj2 (Z.eqb_neq n 0) Hne). simpl. apply Z.ltb_ge.
Qed.

Lemma falla_max_size_bound row args (n : Z) :
  arg_max_size args = Some n → n ≠ 0%Z →
  falla_max_size row args = false ↔ (f_size row ≤ n)%Z.
Proof.
  intros Hn Hne. unfold falla_max_size. rewrite Hn. simpl.
  rewrite (proj2 (Z.eqb_neq n 0) Hne). simpl. rewrite Z.gtb_ltb. apply Z.ltb_ge.
Qed.

(** A bound of 0 switches the test off. *)
Lemma falla_max_size_cero row args :
  arg_max_size args = Some 0%Z → falla_max_size row args = false.
Proof. intros Hn. unfold falla_max_size. by rewrite Hn. Qed.

(** An unparsable [--before] rejects no row. *)
Lemma falla_before_ilegible row args (s : string) :
  arg_before args = Some s → fromisoformat_timestamp s = None →
  falla_before fromisoformat_timestamp row args = false.
Proof.
  intros Hs Hparse. unfold falla_before. rewrite Hs, Hparse. simpl. apply andb_false_r.
Qed.

(** An unparsable [--after] stands for the epoch: it rejects the rows
    modified before 1970, and only those. *)
Lemma falla_after_ilegible row args (s : string) :
  arg_after args = Some s → s ≠ "" → fromisoformat_timestamp s = None →
  falla_after fromisoformat_timestamp row args = true ↔ (f_mtime row < 0)%Q.
Proof.
  intros Hs Hne Hparse. unfold falla_after. rewrite Hs, Hparse. simpl.
  rewrite (proj2 (String.eqb_neq s "") Hne). simpl. apply Qlt_bool_iff.
Qed.

End Filtros.

(** C5. With [--max-size 0] the size-at-most test is skipped: a row of 5
    bytes is admitted, though 5 > 0. *)
Theorem max_size_cero_admite (lower : string → string)
    (fromisoformat_timestamp : string → option Q) (conn : database) :
  arg_max_size args_max_size_cero = Some 0%Z
  ∧ (f_size fila_5_bytes > 0)%Z
  ∧ aplica_filtros lower fromisoformat_timestamp fila_5_bytes args_max_size_cero conn = true.
Proof. done. Qed.

(** C6. With an unparsable [--after] the bound is the epoch, not minus
    infinity: a row last modified one second before 1970 is rejected. *)
Theorem after_ilegible_rechaza (lower : string → string)
    (fromisoformat_timestamp : string → option Q) (conn : database) :
  fromisoformat_timestamp "ayer" = None →
  aplica_filtros lower fromisoformat_timestamp fila_1969 args_after_ilegible conn = false.
Proof.
  intros Hparse. unfold aplica_filtros.
  assert (falla_after fromisoformat_timestamp fila_1969 args_after_ilegible = true) as ->.
  { apply (falla_after_ilegible _ _ _ "ayer"); done. }
  done.
Qed.

Lemma after_ilegible_rechaza_witness :
  aplica_filtros lower_ascii una_fecha fila_1969 args_after_ilegible db_vacia = false.
Proof.
  apply (after_ilegible_rechaza lower_ascii una_fecha db_vacia). reflexivity.
Defined.


(** * Further properties of the program *)

(** ** The indexer *)

(** A row without its rowid: the five columns that [indexar] writes. *)
Record columnas : Type := Columnas {
  c_path : string;
  c_name : string;
  c_ext : string;
  c_size : Z;
  c_mtime : Q
}.

Definition columnas_de (r : fila) : columnas :=
  Columnas (f_path r) (f_name r) (f_ext r) (f_size r) (f_mtime r).

(** What [indexar] reads of the file [f] listed under [root]: nothing when
    [stat] raises. *)
Definition leido (lower : string → string) (os : sistema) (rf : string * string)
    : option columnas :=
  let p := path_join os rf.1 rf.2 in
  match path_stat os p with
  | None => None
  | Some (size, mtime) =>
    Some (Columnas p (path_name os p) (lstrip_dot (lower (path_suffix os p))) size mtime)
  end.

(** The files under [ruta] that can be read, in the order of the walk. *)
Definition leidos (lower : string → string) (os : sistema) (ruta : string) : list columnas :=
  omap (leido lower os) (archivos_de (os_walk os (Path os ruta))).

(** The progress lines of a verbose run that has counted from [desde] to
    [desde + n]. *)
Definition progreso (verbose : bool) (desde n : nat) : list salida :=
  if verbose
  then Indexados <$> filter (fun c => c `mod` 100 = 0) (seq (desde + 1) n)
  else [].

Section Indexador.
Variable lower : string → string.

Lemma leido_path os rf c : leido lower os rf = Some c → c_path c = path_join os rf.1 rf.2.
Proof.
  unfold leido. destruct (path_stat os _) as [[size mtime]|]; [|done]. by intros [= <-].
Qed.

(** What is read of a file depends on its path alone. *)
Lemma leido_funcional os rf rf' c c' :
  leido lower os rf = Some c → leido lower os rf' = Some c' →
  c_path c = c_path c' → c = c'.
Proof.
  intros Hc Hc' Hp.
  rewrite (leido_path _ _ _ Hc), (leido_path _ _ _ Hc') in Hp.
  unfold leido in *. rewrite Hp in Hc. rewrite Hc in Hc'. by injection Hc'.
Qed.

Lemma indexar_archivo_spec os verbose root f tabla contador out :
  indexar_archivo lower os verbose root f (tabla, contador, out)
  = Ok (match leido lower os (root, f) with
        | None => (tabla, contador, out)
        | Some c =>
          (filter (fun r => f_path r ≠ c_path c) tabla
             ++ [Fila (next_rowid tabla) (c_path c) (c_name c) (c_ext c) (c_size c) (c_mtime c)],
           contador + 1,
           out ++ progreso verbose contador 1)
        end).
Proof.
  unfold indexar_archivo, leido. simpl.
  destruct (path_stat os _) as [[size mtime]|]; [|done].
  rewrite sql_insert_replace. simpl. do 3 f_equal.
  unfold progreso. destruct verbose; simpl; [|by rewrite app_nil_r].
  rewrite filter_cons, filter_nil. rewrite Nat.add_1_r.
  case_bool_decide; case_decide; simpl; try done. by rewrite app_nil_r.
Qed.

(** [INSERT OR REPLACE] on the columns of the table. *)
Definition upsert_columnas (tabla : list columnas) (c : columnas) : list columnas :=
  filter (fun r => c_path r ≠ c_path c) tabla ++ [c].

Lemma columnas_de_filter (p : string) (tabla : list fila) :
  columnas_de <$> filter (fun r => f_path r ≠ p) tabla
  = filter (fun c => c_path c ≠ p) (columnas_de <$> tabla).
Proof.
  induction tabla as [|r tabla IH]; [done|].
  csimpl. rewrite !filter_cons. simpl. case_decide; csimpl; by rewrite IH.
Qed.

Lemma progreso_app verbose desde n m :
  progreso verbose desde (n + m) = progreso verbose desde n ++ progreso verbose (desde + n) m.
Proof.
  unfold progreso. destruct verbose; [|done].
  rewrite seq_app, filter_app, fmap_app. do 4 f_equal. lia.
Qed.

(** The loop of [indexar] never fails; it upserts what it can read, counts
    it, and reports every hundredth file when asked to. *)
Lemma indexar_bucle_spec os verbose fs tabla contador out :
  ∃ tabla',
    indexar_bucle lower os verbose fs (tabla, contador, out)
    = Ok (tabla', contador + length (omap (leido lower os) fs),
          out ++ progreso verbose contador (length (omap (leido lower os) fs)))
    ∧ columnas_de <$> tabla'
      = foldl upsert_columnas (columnas_de <$> tabla) (omap (leido lower os) fs)
    ∧ ∀ P : string → bool,
        (∀ c, c ∈ omap (leido lower os) fs → P (c_path c) = false) →
        filter (fun r => P (f_path r)) tabla' = filter (fun r => P (f_path r)) tabla.
Proof.
  revert tabla contador out.
  induction fs as [|[root f] fs IH]; intros tabla contador out; cbn [indexar_bucle].
  - exists tabla. simpl. unfold progreso. destruct verbose; simpl;
      rewrite Nat.add_0_r, app_nil_r; done.
  - rewrite indexar_archivo_spec. cbn [mbind sql_bind]. csimpl.
    destruct (leido lower os (root, f)) as [c|] eqn:Ec; csimpl.
    + destruct (IH (filter (fun r => f_path r ≠ c_path c) tabla
                      ++ [Fila (next_rowid tabla) (c_path c) (c_name c) (c_ext c)
                               (c_size c) (c_mtime c)])
                   (contador + 1) (out ++ progreso verbose contador 1))
        as (tabla' & -> & Hcols & Hkeep).
      exists tabla'. split; [|split].
      * do 2 f_equal; [f_equal; lia|].
        rewrite <- app_assoc. f_equal. symmetry.
        apply (progreso_app verbose contador 1).
      * rewrite Hcols. f_equal. rewrite fmap_app. unfold upsert_columnas. f_equal.
        -- apply columnas_de_filter.
        -- by destruct c.
      * intros P Hout. rewrite Hkeep by (intros c' Hc'; apply Hout; by right).
        assert (P (c_path c) = false) as HPc by (apply Hout; by left).
        rewrite filter_app, filter_cons, filter_nil. simpl.
        rewrite HPc. simpl. rewrite app_nil_r.
        rewrite list_filter_filter. apply list_filter_iff. intros r. split; [tauto|].
        intros HPr. split; [done|]. intros Heq. by rewrite Heq, HPc in HPr.
    + apply IH.
Qed.

(** The table after a run: the rows of the paths that were not read, then
    what was read, each path once, where it was read last. *)
Lemma foldl_upsert_columnas (tabla recs : list columnas) :
  foldl upsert_columnas tabla recs
  = filter (fun c => c_path c ∉ c_path <$> recs) tabla ++ foldl upsert_columnas [] recs.
Proof.
  induction recs as [|x recs IH] using rev_ind.
  - simpl. rewrite app_nil_r. induction tabla as [|c tabla IHt]; [done|].
    rewrite filter_cons_True by apply not_elem_of_nil. by rewrite <- IHt.
  - rewrite !foldl_snoc, IH. unfold upsert_columnas at 1 3.
    rewrite filter_app, list_filter_filter, <- app_assoc. f_equal.
    apply list_filter_iff. intros c. rewrite fmap_app, elem_of_app. simpl.
    rewrite list_elem_of_singleton. split; [intros [? ?]|intros ?; split]; intuition congruence.
Qed.

Lemma elem_of_foldl_upsert_nil (recs : list columnas) (c : columnas) :
  c ∈ foldl upsert_columnas [] recs → c ∈ recs.
Proof.
  induction recs as [|x recs IH] using rev_ind; [done|].
  rewrite foldl_snoc. unfold upsert_columnas at 1.
  rewrite !elem_of_app, list_elem_of_filter. intuition.
Qed.

Lemma foldl_upsert_in (recs : list columnas) (c : columnas) :
  (∀ c1 c2, c1 ∈ recs → c2 ∈ recs → c_path c1 = c_path c2 → c1 = c2) →
  c ∈ recs → c ∈ foldl upsert_columnas [] recs.
Proof.
  induction recs as [|x recs IH] using rev_ind; [done|].
  intros Hfun Hc. rewrite foldl_snoc. unfold upsert_columnas at 1.
  rewrite elem_of_app, list_elem_of_filter, list_elem_of_singleton.
  destruct (decide (c_path c = c_path x)) as [Hp|Hne].
  - right. apply Hfun; [done|apply elem_of_app; right; by left|done].
  - left. split; [done|].
    apply elem_of_app in Hc as [Hc|Hc%list_elem_of_singleton]; [|by subst].
    apply IH; [|done]. intros c1 c2 H1 H2. apply Hfun; apply elem_of_app; by left.
Qed.

Lemma leidos_funcional os ruta c1 c2 :
  c1 ∈ leidos lower os ruta → c2 ∈ leidos lower os ruta → c_path c1 = c_path c2 → c1 = c2.
Proof.
  unfold leidos. rewrite !list_elem_of_omap.
  intros (rf1 & _ & H1) (rf2 & _ & H2). by apply (leido_funcional os rf1 rf2).
Qed.

Lemma columnas_de_filter_bool (P : string → bool) (tabla : list fila) :
  columnas_de <$> filter (fun r => P (f_path r)) tabla
  = filter (fun c => P (c_path c)) (columnas_de <$> tabla).
Proof.
  induction tabla as [|r tabla IH]; [done|].
  csimpl. rewrite !filter_cons. simpl. case_decide; csimpl; by rewrite IH.
Qed.

Lemma foldl_upsert_nil_NoDup (recs : list columnas) :
  NoDup (c_path <$> foldl upsert_columnas [] recs).
Proof.
  induction recs as [|x recs IH] using rev_ind; [constructor|].
  rewrite foldl_snoc. apply (sql_insert_replace_NoDup c_path x), IH.
Qed.

(** A file that was read has one row, and the row is what was read. *)
Lemma una_fila_leida os ruta (antes : list columnas) (tabla' : list fila) (c : columnas) :
  columnas_de <$> tabla' = foldl upsert_columnas antes (leidos lower os ruta) →
  c ∈ leidos lower os ruta →
  ∃ row, filter (fun r => f_path r = c_path c) tabla' = [row] ∧ columnas_de row = c.
Proof.
  intros Hcols Hin.
  pose (P := fun p : string => bool_decide (p = c_path c)).
  assert (∀ (T : Type) (f : T → string) (l : list T),
            filter (fun r => f r = c_path c) l = filter (fun r => P (f r)) l) as HP.
  { intros T f l. apply list_filter_iff. intros r. unfold P. by rewrite bool_decide_spec. }
  assert (filter (fun r => c_path r = c_path c) (columnas_de <$> tabla') = [c]) as Hone.
  { rewrite Hcols, foldl_upsert_columnas, filter_app, list_filter_filter.
    set (recs := leidos lower os ruta) in *.
    assert (∀ l : list columnas,
              filter (fun r => c_path r = c_path c ∧ c_path r ∉ c_path <$> recs) l = [])
      as ->.
    { intros l. induction l as [|r l IHl]; [done|].
      rewrite filter_cons_False; [exact IHl|]. intros [Heq Hout]. apply Hout. rewrite Heq.
      by apply list_elem_of_fmap_2. }
    simpl.
    pose proof (foldl_upsert_in recs c (leidos_funcional os ruta) Hin) as HcD.
    pose proof (foldl_upsert_nil_NoDup recs) as HndD.
    pose proof (filter_key_eq_length c_path (c_path c) _ HndD
                  (list_elem_of_fmap_2 c_path _ _ HcD)) as Hlen.
    destruct (filter (fun r => c_path r = c_path c) (foldl upsert_columnas [] recs))
      as [|c' [|c'' l]] eqn:Ef; simpl in Hlen; try lia.
    assert (c ∈ [c']) as Hc'.
    { rewrite <- Ef. apply list_elem_of_filter. done. }
    apply list_elem_of_singleton in Hc'. by subst. }
  rewrite (HP columnas c_path), <- columnas_de_filter_bool in Hone.
  rewrite (HP fila f_path).
  destruct (filter (fun r => P (f_path r)) tabla') as [|row [|row' l]]; simplify_eq/=.
  by exists row.
Qed.

(** [indexar] on a root that exists. *)
Lemma indexar_spec os ruta conn verbose :
  path_exists os (Path os ruta) = Some true →
  ∃ tabla',
    indexar lower os ruta conn verbose
    = Ok (Database tabla' (tags conn),
          progreso verbose 0 (length (leidos lower os ruta))
            ++ [IndexacionCompletada (length (leidos lower os ruta))])
    ∧ columnas_de <$> tabla'
      = foldl upsert_columnas (columnas_de <$> archivos conn) (leidos lower os ruta)
    ∧ ∀ P : string → bool,
        (∀ c, c ∈ leidos lower os ruta → P (c_path c) = false) →
        filter (fun r => P (f_path r)) tabla' = filter (fun r => P (f_path r)) (archivos conn).
Proof.
  intros Hex. unfold indexar. rewrite Hex. simpl.
  destruct (indexar_bucle_spec os verbose (archivos_de (os_walk os (Path os ruta)))
              (archivos conn) 0 []) as (tabla' & -> & Hcols & Hkeep).
  exists tabla'. done.
Qed.

End Indexador.

Definition db_informes_indexada : database :=
  Eval vm_compute in
    match indexar lower_ascii os_ejemplo "/d" db_informes false with
    | Ok (conn, _) => conn
    | _ => db_vacia
    end.

(** X1. On a root that exists [indexar] raises no error, leaves the [tags]
    table as it was, and reports as its count the number of files of the
    walk whose [stat] succeeded; a verbose run also prints a line at every
    hundredth such file, and nothing else is printed. *)
Theorem indexar_cuenta (lower : string → string) (os : sistema) (ruta : string)
    (conn : database) (verbose : bool) :
  path_exists os (Path os ruta) = Some true →
  ∃ conn',
    indexar lower os ruta conn verbose
    = Ok (conn', progreso verbose 0 (length (leidos lower os ruta))
                   ++ [IndexacionCompletada (length (leidos lower os ruta))])
    ∧ tags conn' = tags conn
    ∧ length (leidos lower os ruta) ≤ length (archivos_de (os_walk os (Path os ruta))).
Proof.
  intros Hex. destruct (indexar_spec lower os ruta conn verbose Hex) as (tabla' & -> & _).
  eexists. split; [done|]. split; [done|].
  unfold leidos. generalize (archivos_de (os_walk os (Path os ruta))). intros fs.
  induction fs as [|rf fs IH]; csimpl; [done|].
  destruct (leido lower os rf); simpl; lia.
Qed.

Lemma indexar_cuenta_witness :
  ∃ conn', indexar lower_ascii os_ejemplo "/d" db_indexada true
           = Ok (conn', [IndexacionCompletada 2])
    ∧ tags conn' = tags db_indexada.
Proof.
  destruct (indexar_cuenta lower_ascii os_ejemplo "/d" db_indexada true eq_refl)
    as (conn' & Hix & Htags & _).
  exists conn'. split; [exact Hix|exact Htags].
Defined.

(** X2. After [indexar], every file of the walk whose [stat] succeeded has
    exactly one row, with its path, its name, its suffix lower-cased and
    without the dot, its size and its modification time. *)
Theorem indexar_registra (lower : string → string) (os : sistema) (ruta : string)
    (conn conn' : database) (verbose : bool) (out : list salida)
    (rf : string * string) (c : columnas) :
  path_exists os (Path os ruta) = Some true →
  indexar lower os ruta conn verbose = Ok (conn', out) →
  rf ∈ archivos_de (os_walk os (Path os ruta)) →
  leido lower os rf = Some c →
  ∃ row, filter (fun r => f_path r = c_path c) (archivos conn') = [row]
         ∧ columnas_de row = c.
Proof.
  intros Hex Hix Hrf Hc.
  destruct (indexar_spec lower os ruta conn verbose Hex) as (tabla' & Hix' & Hcols & _).
  rewrite Hix' in Hix. injection Hix as <- <-. simpl.
  apply (una_fila_leida lower os ruta (columnas_de <$> archivos conn)); [done|].
  unfold leidos. apply list_elem_of_omap. by exists rf.
Qed.

Lemma indexar_registra_witness :
  ∃ row, filter (fun r => f_path r = "/d/informe.PDF") (archivos db_indexada) = [row]
         ∧ columnas_de row = Columnas "/d/informe.PDF" "informe.PDF" "pdf" 2048 (inject_Z 100).
Proof.
  apply (indexar_registra lower_ascii os_ejemplo "/d" db_vacia db_indexada false
           [IndexacionCompletada 2] ("/d", "informe.PDF")
           (Columnas "/d/informe.PDF" "informe.PDF" "pdf" 2048 (inject_Z 100)));
    try reflexivity.
  apply list_elem_of_here.
Defined.

(** X3. [indexar] deletes nothing but what it replaces: the rows of the
    paths it did not read (files gone from disk, files outside the root,
    files whose [stat] fails) stay as they were, rowid and all, and every
    other row of the table is a file read in this run. *)
Theorem indexar_conserva (lower : string → string) (os : sistema) (ruta : string)
    (conn conn' : database) (verbose : bool) (out : list salida) :
  path_exists os (Path os ruta) = Some true →
  indexar lower os ruta conn verbose = Ok (conn', out) →
  filter (fun r => f_path r ∉ c_path <$> leidos lower os ruta) (archivos conn')
  = filter (fun r => f_path r ∉ c_path <$> leidos lower os ruta) (archivos conn)
  ∧ ∀ row, row ∈ archivos conn' →
      f_path row ∈ c_path <$> leidos lower os ruta →
      columnas_de row ∈ leidos lower os ruta.
Proof.
  intros Hex Hix.
  destruct (indexar_spec lower os ruta conn verbose Hex) as (tabla' & Hix' & Hcols & Hkeep).
  rewrite Hix' in Hix. injection Hix as <- <-. simpl. split.
  - pose (P := fun p : string => bool_decide (p ∉ c_path <$> leidos lower os ruta)).
    assert (∀ l : list fila,
              filter (fun r => f_path r ∉ c_path <$> leidos lower os ruta) l
              = filter (fun r => P (f_path r)) l) as HP.
    { intros l. apply list_filter_iff. intros r. unfold P.
      by rewrite bool_decide_spec. }
    rewrite !HP. apply Hkeep. intros c Hc. unfold P. apply bool_decide_eq_false.
    intros Hout. apply Hout. by apply list_elem_of_fmap_2.
  - intros row Hrow Hpath.
    assert (columnas_de row ∈ columnas_de <$> tabla') as Hc by by apply list_elem_of_fmap_2.
    rewrite Hcols, foldl_upsert_columnas in Hc.
    apply elem_of_app in Hc as [Hc|Hc]; [|by apply elem_of_foldl_upsert_nil].
    apply list_elem_of_filter in Hc as [Hout _]. done.
Qed.

Lemma indexar_conserva_witness :
  filter (fun r => f_path r ∉ ["/d/informe.PDF"; "/d/sub/.oculto"])
    (archivos db_informes_indexada)
  = archivos db_informes.
Proof.
  exact (proj1 (indexar_conserva lower_ascii os_ejemplo "/d" db_informes
                  db_informes_indexada false [IndexacionCompletada 2] eq_refl eq_refl)).
Defined.

(** X4. Indexing the same tree again changes nothing but the rowids: the
    second run reports the same count and leaves the same rows, in the same
    order, and the same tags. *)
Theorem reindexar_idempotente (lower : string → string) (os : sistema) (ruta : string)
    (conn conn1 : database) (verbose : bool) (out : list salida) :
  path_exists os (Path os ruta) = Some true →
  indexar lower os ruta conn verbose = Ok (conn1, out) →
  ∃ conn2, indexar lower os ruta conn1 verbose = Ok (conn2, out)
    ∧ columnas_de <$> archivos conn2 = columnas_de <$> archivos conn1
    ∧ tags conn2 = tags conn.
Proof.
  intros Hex Hix.
  destruct (indexar_spec lower os ruta conn verbose Hex) as (tabla1 & Hix1 & Hcols1 & _).
  rewrite Hix1 in Hix. injection Hix as <- <-.
  destruct (indexar_spec lower os ruta (Database tabla1 (tags conn)) verbose Hex)
    as (tabla2 & Hix2 & Hcols2 & _).
  eexists. split; [exact Hix2|]. split; [|done]. simpl in *.
  rewrite Hcols2, Hcols1. set (recs := leidos lower os ruta).
  rewrite (foldl_upsert_columnas (foldl upsert_columnas _ _)).
  rewrite (foldl_upsert_columnas (columnas_de <$> _)).
  rewrite filter_app, list_filter_filter.
  assert (filter (fun c => c_path c ∉ c_path <$> recs) (foldl upsert_columnas [] recs) = [])
    as ->.
  { assert (∀ l : list columnas, (∀ c, c ∈ l → c ∈ recs) →
              filter (fun c => c_path c ∉ c_path <$> recs) l = []) as Hnil.
    { induction l as [|c l IHl]; intros Hl; [done|].
      rewrite filter_cons_False; [apply IHl; intros c' Hc'; apply Hl; by right|].
      intros Hout. apply Hout, list_elem_of_fmap_2, Hl. by left. }
    apply Hnil. apply elem_of_foldl_upsert_nil. }
  rewrite app_nil_r. f_equal. apply list_filter_iff. tauto.
Qed.

Lemma reindexar_idempotente_witness :
  ∃ conn2, indexar lower_ascii os_ejemplo "/d" db_indexada false
           = Ok (conn2, [IndexacionCompletada 2])
    ∧ columnas_de <$> archivos conn2 = columnas_de <$> archivos db_indexada.
Proof.
  destruct (reindexar_idempotente lower_ascii os_ejemplo "/d" db_vacia db_indexada false
              [IndexacionCompletada 2] eq_refl eq_refl) as (conn2 & Hix & Hcols & _).
  exists conn2. split; [exact Hix|exact Hcols].
Defined.

(** ** The tags *)

(** *** The order of the index *)

Lemma ltb_le (t u : string) : (t <? u)%string = true → String.le t u.
Proof.
  unfold String.ltb, String.le, String.leb. by destruct (t ?= u)%string.
Qed.

Lemma ltb_false_le (t u : string) : (t <? u)%string = false → String.le u t.
Proof.
  unfold String.ltb, String.le, String.leb. rewrite (String.compare_antisym u t).
  by destruct (t ?= u)%string.
Qed.

Lemma insertar_tag_Permutation (t : string) (l : list string) : insertar_tag t l ≡ₚ t :: l.
Proof.
  induction l as [|u l IH]; simpl; [done|].
  destruct (t <? u)%string; [done|]. rewrite IH. apply Permutation_swap.
Qed.

Lemma insertar_tag_sorted (t : string) (l : list string) :
  StronglySorted String.le l → StronglySorted String.le (insertar_tag t l).
Proof.
  induction 1 as [|u l Hs IH Hall]; simpl.
  - repeat constructor.
  - destruct (t <? u)%string eqn:E.
    + apply ltb_le in E. constructor; [by constructor|]. constructor; [done|].
      eapply Forall_impl; [exact Hall|]. intros v Hv. by etrans.
    + apply ltb_false_le in E. constructor; [done|].
      rewrite insertar_tag_Permutation. by constructor.
Qed.

Lemma index_order_snoc (l : list string) (t : string) :
  index_order (l ++ [t]) = insertar_tag t (index_order l).
Proof. unfold index_order. by rewrite foldl_snoc. Qed.

Lemma index_order_Permutation (l : list string) : index_order l ≡ₚ l.
Proof.
  induction l as [|t l IH] using rev_ind; [done|].
  rewrite index_order_snoc, insertar_tag_Permutation, IH. apply Permutation_cons_append.
Qed.

Lemma index_order_sorted (l : list string) : StronglySorted String.le (index_order l).
Proof.
  induction l as [|t l IH] using rev_ind; [constructor|].
  rewrite index_order_snoc. by apply insertar_tag_sorted.
Qed.

(** The index has one order for a set of tags, however they were added. *)
Lemma index_order_unique (l l' : list string) :
  StronglySorted String.le l' → l' ≡ₚ l → index_order l = l'.
Proof.
  intros Hs Hp. apply (StronglySorted_unique String.le); [apply index_order_sorted|done|].
  by rewrite index_order_Permutation.
Qed.

Lemma StronglySorted_filter_le (P : string → Prop) `{∀ t, Decision (P t)} (l : list string) :
  StronglySorted String.le l → StronglySorted String.le (filter P l).
Proof.
  induction 1 as [|u l Hs IH Hall]; [constructor|].
  rewrite filter_cons. case_decide; [|done]. constructor; [done|].
  apply Forall_forall. intros v Hv. apply list_elem_of_filter in Hv as [_ Hv].
  rewrite Forall_forall in Hall. by apply Hall.
Qed.

Lemma index_order_filter (P : string → Prop) `{∀ t, Decision (P t)} (l : list string) :
  index_order (filter P l) = filter P (index_order l).
Proof.
  apply index_order_unique.
  - apply StronglySorted_filter_le, index_order_sorted.
  - by rewrite index_order_Permutation.
Qed.

Lemma get_tags_for_elem (path tag : string) (conn : database) :
  tag ∈ get_tags_for path conn ↔ (path, tag) ∈ tags conn.
Proof.
  unfold get_tags_for. rewrite index_order_Permutation, list_elem_of_fmap. split.
  - intros ([p t] & -> & Hin). apply list_elem_of_filter in Hin as [Hp Hin].
    simpl in *. by subst.
  - intros Hin. exists (path, tag). split; [done|]. by apply list_elem_of_filter.
Qed.

Lemma get_tags_for_snoc (p path tag : string) (arch : list fila)
    (tabla : list (string * string)) :
  get_tags_for p (Database arch (tabla ++ [(path, tag)]))
  = if decide (path = p) then insertar_tag tag (get_tags_for p (Database arch tabla))
    else get_tags_for p (Database arch tabla).
Proof.
  unfold get_tags_for. simpl. rewrite filter_app, fmap_app.
  rewrite filter_cons, filter_nil. simpl.
  case_decide; csimpl; [apply index_order_snoc|by rewrite app_nil_r].
Qed.

(** The tags of a path depend on the set of pairs alone. *)
Lemma get_tags_for_Permutation (p : string) (arch arch' : list fila)
    (tabla tabla' : list (string * string)) :
  tabla ≡ₚ tabla' →
  get_tags_for p (Database arch tabla) = get_tags_for p (Database arch' tabla').
Proof.
  intros Hp. unfold get_tags_for. simpl. apply index_order_unique.
  - apply index_order_sorted.
  - by rewrite index_order_Permutation, Hp.
Qed.

(** X5. [tag_add] never fails, asks nothing of the path (it need not be
    indexed), and leaves [archivos] alone; afterwards the tag is among the
    tags of the path, which come in ascending order with a new tag at its
    place in that order, and the tags of every other path are as they
    were. *)
Theorem tag_add_get_tags (path tag : string) (conn : database) :
  ∃ conn', tag_add path tag conn = Ok (conn', [TagAnadido tag path])
    ∧ archivos conn' = archivos conn
    ∧ tag ∈ get_tags_for path conn'
    ∧ get_tags_for path conn'
      = (if decide (tag ∈ get_tags_for path conn) then get_tags_for path conn
         else insertar_tag tag (get_tags_for path conn))
    ∧ StronglySorted String.le (get_tags_for path conn')
    ∧ ∀ p, p ≠ path → get_tags_for p conn' = get_tags_for p conn.
Proof.
  rewrite tag_add_total. eexists. split; [reflexivity|]. split; [done|].
  destruct conn as [arch tabla]. simpl.
  assert (get_tags_for path
            (Database arch (if decide ((path, tag) ∈ tabla) then tabla
                            else tabla ++ [(path, tag)]))
          = (if decide (tag ∈ get_tags_for path (Database arch tabla))
             then get_tags_for path (Database arch tabla)
             else insertar_tag tag (get_tags_for path (Database arch tabla)))) as Heq.
  { destruct (decide ((path, tag) ∈ tabla)) as [Hin|Hout].
    - rewrite decide_True; [done|]. by apply get_tags_for_elem.
    - rewrite decide_False; [|by rewrite get_tags_for_elem].
      by rewrite get_tags_for_snoc, decide_True. }
  split; [|split; [exact Heq|split; [apply index_order_sorted|]]].
  - rewrite Heq. clear Heq. case_decide; [done|].
    rewrite insertar_tag_Permutation. by left.
  - clear Heq. intros p Hp. case_decide; [done|].
    by rewrite get_tags_for_snoc, decide_False.
Qed.

(** X6. [tag_remove] leaves [archivos] alone, takes the tag out of the tags
    of the path and keeps the others in their order, changes the tags of no
    other path, and prints the same line whether or not the pair was there. *)
Theorem tag_remove_get_tags (path tag : string) (conn : database) :
  (tag_remove path tag conn).2 = [TagEliminado tag path]
  ∧ archivos (tag_remove path tag conn).1 = archivos conn
  ∧ (tag ∉ get_tags_for path (tag_remove path tag conn).1)
  ∧ get_tags_for path (tag_remove path tag conn).1
    = filter (fun t => t ≠ tag) (get_tags_for path conn)
  ∧ ∀ p, p ≠ path →
      get_tags_for p (tag_remove path tag conn).1 = get_tags_for p conn.
Proof.
  split; [done|]. split; [done|].
  assert (get_tags_for path (tag_remove path tag conn).1
          = filter (fun t => t ≠ tag) (get_tags_for path conn)) as Heq.
  { unfold get_tags_for, tag_remove. simpl. rewrite <- index_order_filter. f_equal.
    induction (tags conn) as [|[p t] tabla IH]; [done|].
    rewrite !filter_cons. simpl.
    destruct (decide (p = path)) as [->|Hp].
    - destruct (decide (t = tag)) as [->|Ht].
      + rewrite decide_False by tauto. rewrite IH. csimpl.
        by rewrite filter_cons_False by tauto.
      + rewrite decide_True by tauto. rewrite filter_cons_True by done. csimpl.
        rewrite filter_cons_True by done. by rewrite IH.
    - rewrite decide_True by tauto. by rewrite filter_cons_False by done. }
  split; [|split; [exact Heq|]].
  - rewrite Heq. intros Hin. by apply list_elem_of_filter in Hin as [Hne _].
  - intros p Hp. unfold get_tags_for, tag_remove. simpl. do 2 f_equal.
    rewrite list_filter_filter. apply list_filter_iff. intros [p' t']. simpl.
    split; [tauto|]. intros ->. split; [done|]. intros [-> _]. done.
Qed.

(** X7. Adding a pair that was not there and removing it again gives back
    the database as it was. *)
Theorem tag_add_remove (path tag : string) (conn conn1 : database) (out : list salida) :
  (path, tag) ∉ tags conn →
  tag_add path tag conn = Ok (conn1, out) →
  (tag_remove path tag conn1).1 = conn.
Proof.
  intros Hout. rewrite tag_add_total, decide_False by done. intros [= <- <-].
  unfold tag_remove. simpl. rewrite filter_app, filter_cons_False, app_nil_r by tauto.
  pose proof (tag_remove_absent path tag conn Hout) as Habs. unfold tag_remove in Habs.
  by injection Habs as ->.
Qed.

Lemma tag_add_remove_witness :
  (tag_remove "/d/x" "a" db_tags_ba).1 = Database [] [("/d/x", "b")].
Proof.
  apply (tag_add_remove "/d/x" "a" (Database [] [("/d/x", "b")]) db_tags_ba
           [TagAnadido "a" "/d/x"]); [|reflexivity].
  vm_compute. intros Hin. apply list_elem_of_singleton in Hin. discriminate.
Defined.

(** X8. Removing a pair that was there and adding it again changes nothing
    that the program reads back: the pairs are the same, and every path
    has the same tags, in the same order. *)
Theorem tag_remove_add (path tag : string) (conn : database) :
  (path, tag) ∈ tags conn → NoDup (tags conn) →
  ∃ conn2, tag_add path tag (tag_remove path tag conn).1 = Ok (conn2, [TagAnadido tag path])
    ∧ archivos conn2 = archivos conn
    ∧ tags conn2 ≡ₚ tags conn
    ∧ ∀ p, get_tags_for p conn2 = get_tags_for p conn.
Proof.
  intros Hin Hnd. rewrite tag_add_total. eexists. split; [reflexivity|]. split; [done|].
  simpl.
  assert (filter (fun r : string * string => ¬ (r.1 = path ∧ r.2 = tag)) (tags conn)
          = filter (fun r => r ≠ (path, tag)) (tags conn)) as ->.
  { apply list_filter_iff. intros [p t]. simpl. split.
    - intros Hne [= -> ->]. tauto.
    - intros Hne [-> ->]. done. }
  rewrite decide_False.
  2:{ intros Hin'. by apply list_elem_of_filter in Hin' as [Hne _]. }
  assert (filter (fun r => r ≠ (path, tag)) (tags conn) ++ [(path, tag)] ≡ₚ tags conn)
    as Hperm.
  { apply NoDup_Permutation; [| done |].
    - apply NoDup_app. split; [by apply NoDup_filter|]. split; [|apply NoDup_singleton].
      intros r Hr ->%list_elem_of_singleton. by apply list_elem_of_filter in Hr as [Hne _].
    - intros r. rewrite elem_of_app, list_elem_of_filter, list_elem_of_singleton.
      destruct (decide (r = (path, tag))) as [->|Hne]; [tauto|]. tauto. }
  split; [exact Hperm|].
  intros p. destruct conn as [arch tabla]. by apply get_tags_for_Permutation.
Qed.

Lemma tag_remove_add_witness :
  ∃ conn2, tag_add "/d/x" "b" (tag_remove "/d/x" "b" db_tags_ba).1
           = Ok (conn2, [TagAnadido "b" "/d/x"])
    ∧ get_tags_for "/d/x" conn2 = ["a"; "b"]
    ∧ get_tags_for "/d/x" db_tags_ba = ["a"; "b"].
Proof.
  destruct (tag_remove_add "/d/x" "b" db_tags_ba) as (conn2 & Hadd & _ & _ & Htags).
  - apply list_elem_of_here.
  - vm_compute. repeat constructor; intros Hin.
    + apply list_elem_of_singleton in Hin. discriminate.
    + by apply elem_of_nil in Hin.
  - exists conn2. split; [exact Hadd|]. split; [|reflexivity]. by rewrite Htags.
Defined.

(** ** [list_tags] *)

(** The groups of [GROUP BY tag] share out the rows of the table. *)
Lemma length_filter_or {T : Type} (P Q : T → Prop) `{∀ x, Decision (P x)}
    `{∀ x, Decision (Q x)} (l : list T) :
  (∀ x, P x → Q x → False) →
  length (filter (fun x => P x ∨ Q x) l) = length (filter P l) + length (filter Q l).
Proof.
  intros Hdis. induction l as [|x l IH]; [done|].
  rewrite !filter_cons.
  destruct (decide (P x)) as [HP|HP], (decide (Q x)) as [HQ|HQ].
  - destruct (Hdis x HP HQ).
  - rewrite decide_True by tauto. simpl. lia.
  - rewrite decide_True by tauto. simpl. lia.
  - rewrite decide_False by tauto. lia.
Qed.

Lemma sum_cuentas (ts : list string) (tabla : list (string * string)) :
  NoDup ts →
  sum_list ((fun t => length (filter (fun r => r.2 = t) tabla)) <$> ts)
  = length (filter (fun r => r.2 ∈ ts) tabla).
Proof.
  induction 1 as [|t ts Ht Hnd IH]; csimpl.
  - induction tabla as [|r tabla IHt]; [done|].
    rewrite filter_cons_False; [done|]. apply not_elem_of_nil.
  - rewrite IH, <- (length_filter_or (fun r => r.2 = t) (fun r => r.2 ∈ ts)).
    + f_equal. apply list_filter_iff. intros r. by rewrite elem_of_cons.
    + intros r -> Hin. done.
Qed.

Lemma group_by_tag_sum (tabla : list (string * string)) :
  sum_list (group_by_tag tabla).*2 = length tabla.
Proof.
  unfold group_by_tag. rewrite <- list_fmap_compose.
  change (snd ∘ _) with (fun t : string => length (filter (fun r => r.2 = t) tabla)).
  rewrite sum_cuentas by apply NoDup_remove_dups. f_equal.
  induction tabla as [|r tabla' IH] using rev_ind; [done|].
  clear IH. set (l := tabla' ++ [r]).
  assert (∀ l' : list (string * string), (∀ x, x ∈ l' → x ∈ l) →
            filter (fun x => x.2 ∈ remove_dups l.*2) l' = l') as Hall.
  { intros l'. induction l' as [|x l' IHl]; intros Hsub; [done|].
    rewrite filter_cons_True.
    - rewrite IHl; [done|]. intros y Hy. apply Hsub. by right.
    - rewrite elem_of_remove_dups. apply list_elem_of_fmap_2, Hsub. by left. }
  by apply Hall.
Qed.

Lemma group_by_tag_positive (tabla : list (string * string)) (r : string * nat) :
  r ∈ group_by_tag tabla → 0 < r.2.
Proof.
  unfold group_by_tag. intros (t & -> & Ht)%list_elem_of_fmap. simpl.
  apply elem_of_remove_dups, list_elem_of_fmap in Ht as (x & -> & Hx).
  assert (x ∈ filter (fun r => r.2 = x.2) tabla) as Hin by by apply list_elem_of_filter.
  destruct (filter _ tabla); [by apply elem_of_nil in Hin|simpl; lia].
Qed.

(** X9. Whatever order the engine gives to equal counts, [list_tags] prints
    "No hay tags." exactly when the [tags] table is empty; otherwise it
    prints one line for each distinct tag, every count is positive, and the
    counts add up to the number of rows of the table. *)
Theorem list_tags_lineas (order_by : list (string * nat) → list (string * nat))
    (conn : database) :
  order_by_count_desc order_by →
  (list_tags order_by conn = [NoHayTags] ↔ tags conn = [])
  ∧ (tags conn ≠ [] →
       list_tags order_by conn
       = (fun r => TagCuenta r.1 r.2) <$> list_tags_rows order_by conn
       ∧ (list_tags_rows order_by conn).*1 ≡ₚ remove_dups (tags conn).*2
       ∧ (∀ r, r ∈ list_tags_rows order_by conn → 0 < r.2)
       ∧ sum_list (list_tags_rows order_by conn).*2 = length (tags conn)).
Proof.
  intros Horder. destruct (Horder (group_by_tag (tags conn))) as [Hperm _].
  fold (list_tags_rows order_by conn) in Hperm.
  assert (tags conn ≠ [] → list_tags_rows order_by conn ≠ []) as Hne.
  { intros Ht Hrows. rewrite Hrows in Hperm. symmetry in Hperm.
    apply Permutation_nil_r in Hperm. unfold group_by_tag in Hperm.
    apply fmap_nil_inv in Hperm.
    destruct (tags conn) as [|x tabla]; [done|].
    assert (x.2 ∈ remove_dups (x :: tabla).*2) as Hin.
    { rewrite elem_of_remove_dups. csimpl. by left. }
    rewrite Hperm in Hin. by apply elem_of_nil in Hin. }
  split; [split|].
  - intros Hout. destruct (decide (tags conn = [])) as [|Ht]; [done|].
    specialize (Hne Ht). unfold list_tags in Hout.
    destruct (list_tags_rows order_by conn) as [|r rows]; [done|]. csimpl in Hout.
    discriminate.
  - intros Ht. unfold list_tags.
    assert (list_tags_rows order_by conn = []) as ->; [|done].
    apply Permutation_nil_r. symmetry. rewrite Hperm, Ht. done.
  - intros Ht. specialize (Hne Ht). split; [|split; [|split]].
    + unfold list_tags. by destruct (list_tags_rows order_by conn).
    + rewrite Hperm. unfold group_by_tag. rewrite <- list_fmap_compose.
      by rewrite list_fmap_id.
    + intros r Hr. rewrite Hperm in Hr. by eapply group_by_tag_positive.
    + rewrite Hperm. apply group_by_tag_sum.
Qed.

Lemma list_tags_lineas_witness :
  (list_tags orden_estable db_tags_ba = [NoHayTags] ↔ tags db_tags_ba = [])
  ∧ sum_list (list_tags_rows orden_estable db_tags_ba).*2 = 2.
Proof.
  destruct (list_tags_lineas orden_estable db_tags_ba orden_estable_order_by)
    as [Hiff Hrows].
  split; [exact Hiff|]. apply Hrows. discriminate.
Defined.

(** ** [show] *)

(** The tags of a path come without repetition when the pairs do. *)
Lemma get_tags_for_NoDup (path : string) (conn : database) :
  NoDup (tags conn) → NoDup (get_tags_for path conn).
Proof.
  intros Hnd. unfold get_tags_for. rewrite index_order_Permutation.
  induction Hnd as [|[p t] tabla Hx Hnd IH]; [constructor|].
  rewrite filter_cons. case_decide as Hp; [|done]. simpl in Hp. subst p.
  csimpl. constructor; [|done].
  intros Ht. apply list_elem_of_fmap in Ht as ([p' t'] & Heq & Hin).
  apply list_elem_of_filter in Hin as [Hp' Hin]. simpl in *. by subst.
Qed.

(** X10. In a state that the commands can bring about, [show] of a path
    that has no row prints "Archivo no indexado.", whatever tags the path
    has; and the row of a path is the one that [show] prints, with the tags
    recorded for the path, each once and in ascending order. *)
Theorem show_indexado (lower : string → string) (path : string) (conn : database) :
  alcanzable lower conn →
  (path ∉ f_path <$> archivos conn → show path conn = [ArchivoNoIndexado])
  ∧ (∀ row, row ∈ archivos conn → f_path row = path →
       show path conn
       = [Detalle (f_name row) path (f_ext row) (f_size row) (f_mtime row)
            (get_tags_for path conn)])
  ∧ (∀ t, t ∈ get_tags_for path conn ↔ (path, t) ∈ tags conn)
  ∧ NoDup (get_tags_for path conn)
  ∧ StronglySorted String.le (get_tags_for path conn).
Proof.
  intros Hconn. destruct (alcanzable_unica lower conn Hconn) as [Hnd Hndt].
  split; [|split; [|split; [|split]]].
  - intros Hout. unfold show. by rewrite filter_key_eq_nil.
  - intros row Hrow Hpath. unfold show.
    pose proof (filter_key_eq_length f_path path (archivos conn) Hnd) as Hlen.
    assert (row ∈ filter (fun r => f_path r = path) (archivos conn)) as Hin
      by by apply list_elem_of_filter.
    destruct (filter (fun r => f_path r = path) (archivos conn)) as [|row' [|row'' l]].
    + by apply elem_of_nil in Hin.
    + apply list_elem_of_singleton in Hin. subst row'. by rewrite Hpath.
    + simpl in Hlen. rewrite <- Hpath in Hlen.
      specialize (Hlen (list_elem_of_fmap_2 f_path _ _ Hrow)). lia.
  - intros t. apply get_tags_for_elem.
  - by apply get_tags_for_NoDup.
  - apply index_order_sorted.
Qed.

Lemma show_indexado_witness :
  show "/d/x" db_tags_ba = [ArchivoNoIndexado]
  ∧ get_tags_for "/d/x" db_tags_ba = ["a"; "b"].
Proof.
  split; [|reflexivity].
  apply (proj1 (show_indexado lower_ascii "/d/x" db_tags_ba alcanzable_db_tags_ba)).
  apply not_elem_of_nil.
Defined.

(** X11. What [indexar] has read, [show] gives back: for a file of the walk
    whose [stat] succeeded, [show] of its path prints the name, suffix, size
    and time that were read, and the tags the path already had. *)
Theorem show_tras_indexar (lower : string → string) (os : sistema) (ruta : string)
    (conn conn' : database) (verbose : bool) (out : list salida)
    (rf : string * string) (c : columnas) :
  path_exists os (Path os ruta) = Some true →
  indexar lower os ruta conn verbose = Ok (conn', out) →
  rf ∈ archivos_de (os_walk os (Path os ruta)) →
  leido lower os rf = Some c →
  show (c_path c) conn'
  = [Detalle (c_name c) (c_path c) (c_ext c) (c_size c) (c_mtime c)
       (get_tags_for (c_path c) conn)].
Proof.
  intros Hex Hix Hrf Hc.
  destruct (indexar_spec lower os ruta conn verbose Hex) as (tabla' & Hix' & Hcols & _).
  rewrite Hix' in Hix. injection Hix as <- <-.
  destruct (una_fila_leida lower os ruta (columnas_de <$> archivos conn) tabla' c Hcols)
    as (row & Hrow & <-).
  { unfold leidos. apply list_elem_of_omap. by exists rf. }
  unfold show. simpl. simpl in Hrow. rewrite Hrow. done.
Qed.

Lemma show_tras_indexar_witness :
  show "/d/informe.PDF" db_indexada
  = [Detalle "informe.PDF" "/d/informe.PDF" "pdf" 2048 (inject_Z 100) []].
Proof.
  apply (show_tras_indexar lower_ascii os_ejemplo "/d" db_vacia db_indexada false
           [IndexacionCompletada 2] ("/d", "informe.PDF")
           (Columnas "/d/informe.PDF" "informe.PDF" "pdf" 2048 (inject_Z 100)));
    try reflexivity.
  apply list_elem_of_here.
Defined.

(** ** The filters *)

Section Condiciones.
Variable lower : string → string.
Variable fromisoformat_timestamp : string → option Q.

Lemma truthy_str_Some (s : string) : truthy_str (Some s) = true ↔ s ≠ "".
Proof. simpl. rewrite negb_true_iff. apply String.eqb_neq. Qed.

Lemma truthy_int_Some (n : Z) : truthy_int (Some n) = true ↔ n ≠ 0%Z.
Proof. simpl. rewrite negb_true_iff. apply Z.eqb_neq. Qed.

(** A test guarded by the truth value of its option: it lets the row pass
    when the option is absent or false, and otherwise when [cond] fails. *)
Lemma guarda_iff {T : Type} (truthy : option T → bool) (vacio : T → Prop)
    (opt : option T) (cond : T → bool) (P : T → Prop) :
  (∀ x, truthy (Some x) = true ↔ ¬ vacio x) →
  (∀ x, cond x = false ↔ P x) →
  match opt with Some x => truthy (Some x) && cond x | None => false end = false
  ↔ ∀ x, opt = Some x → ¬ vacio x → P x.
Proof.
  intros Htruthy Hcond. destruct opt as [x|].
  - rewrite andb_false_iff. split.
    + intros [Hf|Hc] y [= <-] Hne.
      * apply Htruthy in Hne. congruence.
      * by apply Hcond.
    + intros Hall. destruct (truthy (Some x)) eqn:E; [|by left].
      right. apply Hcond, Hall; [done|]. by apply Htruthy.
  - split; [by intros _ x [=]|done].
Qed.

Lemma falla_ext_iff row args :
  falla_ext lower row args = false ↔
  ∀ e, arg_ext args = Some e → e ≠ "" → f_ext row = lower (lstrip_dot e).
Proof.
  unfold falla_ext.
  apply (guarda_iff truthy_str (fun e => e = "") (arg_ext args)
           (fun e => negb (String.eqb (f_ext row) (lower (lstrip_dot e))))).
  - apply truthy_str_Some.
  - intros e. rewrite negb_false_iff. apply String.eqb_eq.
Qed.

Lemma falla_tag_iff row args conn :
  falla_tag row args conn = false ↔
  ∀ t, arg_tag args = Some t → t ≠ "" → (f_path row, t) ∈ tags conn.
Proof.
  unfold falla_tag.
  apply (guarda_iff truthy_str (fun t => t = "") (arg_tag args)
           (fun t => negb (bool_decide (t ∈ get_tags_for (f_path row) conn)))).
  - apply truthy_str_Some.
  - intros t. by rewrite negb_false_iff, bool_decide_eq_true, get_tags_for_elem.
Qed.

Lemma falla_min_size_iff row args :
  falla_min_size row args = false ↔
  ∀ n, arg_min_size args = Some n → n ≠ 0%Z → (n ≤ f_size row)%Z.
Proof.
  unfold falla_min_size.
  apply (guarda_iff truthy_int (fun n => n = 0%Z) (arg_min_size args)
           (fun n => (f_size row <? n)%Z)).
  - apply truthy_int_Some.
  - intros n. apply Z.ltb_ge.
Qed.

Lemma falla_max_size_iff row args :
  falla_max_size row args = false ↔
  ∀ n, arg_max_size args = Some n → n ≠ 0%Z → (f_size row ≤ n)%Z.
Proof.
  unfold falla_max_size.
  apply (guarda_iff truthy_int (fun n => n = 0%Z) (arg_max_size args)
           (fun n => (f_size row >? n)%Z)).
  - apply truthy_int_Some.
  - intros n. rewrite Z.gtb_ltb. apply Z.ltb_ge.
Qed.

Lemma falla_after_iff row args :
  falla_after fromisoformat_timestamp row args = false ↔
  ∀ s, arg_after args = Some s → s ≠ "" →
       (default 0%Q (fromisoformat_timestamp s) <= f_mtime row)%Q.
Proof.
  unfold falla_after.
  apply (guarda_iff truthy_str (fun s => s = "") (arg_after args)
           (fun s => Qlt_bool (f_mtime row)
                       match fromisoformat_timestamp s with Some t => t | None => 0%Q end)).
  - apply truthy_str_Some.
  - intros s. rewrite Qlt_bool_false. by destruct (fromisoformat_timestamp s).
Qed.

Lemma falla_before_iff row args :
  falla_before fromisoformat_timestamp row args = false ↔
  ∀ s, arg_before args = Some s → s ≠ "" →
       ∀ t, fromisoformat_timestamp s = Some t → (f_mtime row <= t)%Q.
Proof.
  unfold falla_before.
  apply (guarda_iff truthy_str (fun s => s = "") (arg_before args)
           (fun s => gt_pyfloat (f_mtime row)
                       match fromisoformat_timestamp s with
                       | Some t => Finite t
                       | None => Inf
                       end)).
  - apply truthy_str_Some.
  - intros s. destruct (fromisoformat_timestamp s) as [t|]; simpl.
    + rewrite Qlt_bool_false. split; [by intros Hle t' [= <-]|by intros Hall; apply Hall].
    + split; [by intros _ t' [=]|done].
Qed.

End Condiciones.

(** X12. What [aplica_filtros] admits.  A row passes exactly when, for each
    option that is given and is neither the empty string nor 0: its
    extension is the option without leading dots, lower-cased; the tag is
    recorded for its path; its size is at least [--min-size] and at most
    [--max-size]; its time is not before [--after], read as the epoch when
    it does not parse; and its time is not after [--before] when that
    parses. *)
Theorem aplica_filtros_admite (lower : string → string)
    (fromisoformat_timestamp : string → option Q)
    (row : fila) (args : Namespace) (conn : database) :
  aplica_filtros lower fromisoformat_timestamp row args conn = true ↔
    (∀ e, arg_ext args = Some e → e ≠ "" → f_ext row = lower (lstrip_dot e))
  ∧ (∀ t, arg_tag args = Some t → t ≠ "" → (f_path row, t) ∈ tags conn)
  ∧ (∀ n, arg_min_size args = Some n → n ≠ 0%Z → (n ≤ f_size row)%Z)
  ∧ (∀ n, arg_max_size args = Some n → n ≠ 0%Z → (f_size row ≤ n)%Z)
  ∧ (∀ s, arg_after args = Some s → s ≠ "" →
          (default 0%Q (fromisoformat_timestamp s) <= f_mtime row)%Q)
  ∧ (∀ s, arg_before args = Some s → s ≠ "" →
          ∀ t, fromisoformat_timestamp s = Some t → (f_mtime row <= t)%Q).
Proof.
  rewrite aplica_filtros_and.
  by rewrite falla_ext_iff, falla_tag_iff, falla_min_size_iff, falla_max_size_iff,
    falla_after_iff, falla_before_iff.
Qed.

(** ** The search *)

Section Resultados.
Variable lower : string → string.
Variable fromisoformat_timestamp : string → option Q.

Lemma puntuar_le_1 query row conn : (r_score (puntuar lower query row conn) <= 1)%Q.
Proof.
  simpl. rewrite pymax3_Qmax. apply Q.max_lub; [apply Q.max_lub|].
  - apply score_nombre_bounds.
  - apply score_nombre_bounds.
  - by case_bool_decide.
Qed.

Lemma resultados_nil query args conn :
  resultados lower fromisoformat_timestamp query args conn = [] ↔
  ∀ row, row ∈ archivos conn →
         aplica_filtros lower fromisoformat_timestamp row args conn = true →
         (r_score (puntuar lower query row conn) < umbral args)%Q.
Proof.
  split.
  - intros Hnil row Hrow Hf. apply Qnot_le_lt. intros Hs.
    assert (puntuar lower query row conn
            ∈ resultados lower fromisoformat_timestamp query args conn) as Hin.
    { apply elem_of_resultados. by exists row. }
    rewrite Hnil in Hin. by apply elem_of_nil in Hin.
  - intros Hall.
    destruct (resultados lower fromisoformat_timestamp query args conn) as [|r rs] eqn:E;
      [done|].
    assert (r ∈ resultados lower fromisoformat_timestamp query args conn) as Hin
      by (rewrite E; by left).
    apply elem_of_resultados in Hin as (row & Hrow & Hf & Hs & _).
    destruct (Qlt_not_le _ _ (Hall row Hrow Hf) Hs).
Qed.

Lemma buscar_NoSeEncontraron query args conn :
  buscar lower fromisoformat_timestamp query args conn = [NoSeEncontraron] ↔
  resultados lower fromisoformat_timestamp query args conn = [].
Proof.
  unfold buscar.
  destruct (resultados lower fromisoformat_timestamp query args conn) as [|r rs]; [done|].
  split; [|done]. intros Hout.
  destruct (slice_to (arg_limit args) (r :: rs)) as [|x xs]; csimpl in Hout; discriminate.
Qed.

End Resultados.

(** X13. [buscar] prints "No se encontraron resultados." exactly when every
    row that passes the filters scores below [args.threshold or 0.4],
    whatever the limit; and with [--limit 0] a search that does find rows
    prints nothing at all. *)
Theorem buscar_sin_resultados (lower : string → string)
    (fromisoformat_timestamp : string → option Q)
    (query : string) (args : Namespace) (conn : database) :
  (buscar lower fromisoformat_timestamp query args conn = [NoSeEncontraron] ↔
     ∀ row, row ∈ archivos conn →
            aplica_filtros lower fromisoformat_timestamp row args conn = true →
            (r_score (puntuar lower query row conn) < umbral args)%Q)
  ∧ (arg_limit args = 0%Z →
     (∃ row, row ∈ archivos conn
             ∧ aplica_filtros lower fromisoformat_timestamp row args conn = true
             ∧ (umbral args <= r_score (puntuar lower query row conn))%Q) →
     buscar lower fromisoformat_timestamp query args conn = []).
Proof.
  split.
  - by rewrite buscar_NoSeEncontraron, resultados_nil.
  - intros Hlim (row & Hrow & Hf & Hs). unfold buscar.
    destruct (resultados lower fromisoformat_timestamp query args conn) as [|r rs] eqn:E.
    + pose proof (proj1 (resultados_nil lower fromisoformat_timestamp query args conn) E
                    row Hrow Hf) as Hlt.
      destruct (Qlt_not_le _ _ Hlt Hs).
    + by rewrite Hlim.
Qed.

(** X14. No score is above 1.0, so a threshold above 1.0 finds nothing. *)
Theorem buscar_umbral_sobre_uno (lower : string → string)
    (fromisoformat_timestamp : string → option Q)
    (query : string) (args : Namespace) (conn : database) :
  (1 < arg_threshold args)%Q →
  buscar lower fromisoformat_timestamp query args conn = [NoSeEncontraron].
Proof.
  intros Hth. apply buscar_NoSeEncontraron, resultados_nil. intros row _ _.
  rewrite umbral_truthy.
  - eapply Qle_lt_trans; [apply puntuar_le_1|exact Hth].
  - intros H0. rewrite H0 in Hth. by vm_compute in Hth.
Qed.

Lemma buscar_umbral_sobre_uno_witness :
  buscar lower_ascii una_fecha "report"
    (Args None None None None None None 20 (11 # 10)) db_informes
  = [NoSeEncontraron].
Proof.
  apply (buscar_umbral_sobre_uno lower_ascii una_fecha "report"
           (Args None None None None None None 20 (11 # 10)) db_informes).
  reflexivity.
Defined.

Lemma slice_to_sublist {T : Type} (n : Z) (l : list T) : slice_to n l `sublist_of` l.
Proof. unfold slice_to. destruct (_ <? _)%Z; apply sublist_take. Qed.

(** X15. In a state that the commands can bring about, [buscar] prints no
    path twice. *)
Theorem buscar_sin_repetidos (lower : string → string)
    (fromisoformat_timestamp : string → option Q)
    (query : string) (args : Namespace) (conn : database) :
  alcanzable lower conn →
  NoDup (r_path <$> encontrados (buscar lower fromisoformat_timestamp query args conn)).
Proof.
  intros Hconn. destruct (alcanzable_unica lower conn Hconn) as [Hnd _].
  rewrite encontrados_buscar.
  eapply sublist_NoDup; [|apply fmap_sublist, slice_to_sublist].
  rewrite resultados_Permutation, <- list_fmap_compose.
  eapply sublist_NoDup; [exact Hnd|].
  change (r_path ∘ _) with f_path. apply fmap_sublist, sublist_filter.
Qed.

Lemma buscar_sin_repetidos_witness :
  NoDup (r_path <$> encontrados (buscar lower_ascii una_fecha "informe" args_defecto
                                   db_indexada)).
Proof.
  apply (buscar_sin_repetidos lower_ascii una_fecha "informe" args_defecto db_indexada).
  exact alcanzable_db_indexada.
Defined.

(** X16. A row that passes the filters and has the query, as it stands,
    among the tags of its path is in the result list whenever the threshold
    is at most 1.0, and then the first entry printed scores 1.0. *)
Theorem tag_exacto_encabeza (lower : string → string)
    (fromisoformat_timestamp : string → option Q)
    (query : string) (args : Namespace) (conn : database) (row : fila) :
  row ∈ archivos conn →
  aplica_filtros lower fromisoformat_timestamp row args conn = true →
  query ∈ get_tags_for (f_path row) conn →
  (arg_threshold args <= 1)%Q → (0 < arg_limit args)%Z →
  puntuar lower query row conn ∈ resultados lower fromisoformat_timestamp query args conn
  ∧ ∃ r rs, encontrados (buscar lower fromisoformat_timestamp query args conn) = r :: rs
            ∧ (r_score r == 1)%Q.
Proof.
  intros Hrow Hf Htag Hth Hlim.
  assert (r_score (puntuar lower query row conn) == 1)%Q as Hone.
  { simpl. rewrite pymax3_Qmax, bool_decide_eq_true_2 by done.
    apply Q.max_r, Q.max_lub; apply score_nombre_bounds. }
  assert (umbral args <= 1)%Q as Hum.
  { unfold umbral. by destruct (truthy_float _). }
  assert (puntuar lower query row conn
          ∈ resultados lower fromisoformat_timestamp query args conn) as Hin.
  { apply elem_of_resultados. exists row. split; [done|]. split; [done|].
    split; [by rewrite Hone|done]. }
  split; [exact Hin|].
  rewrite encontrados_buscar, slice_to_nonneg by lia.
  pose proof (sort_desc_sorted
                (foldl (buscar_fila lower fromisoformat_timestamp query args conn) []
                   (archivos conn))) as Hsorted.
  fold (resultados lower fromisoformat_timestamp query args conn) in Hsorted.
  destruct (resultados lower fromisoformat_timestamp query args conn) as [|r rs] eqn:E;
    [by apply elem_of_nil in Hin|].
  destruct (Z.to_nat (arg_limit args)) as [|n] eqn:En; [lia|].
  exists r, (take n rs). split; [done|].
  apply Qle_antisym.
  - assert (r ∈ resultados lower fromisoformat_timestamp query args conn) as Hr
      by (rewrite E; by left).
    apply elem_of_resultados in Hr as (row' & _ & _ & _ & ->). apply puntuar_le_1.
  - apply StronglySorted_inv in Hsorted as [_ Hall].
    apply elem_of_cons in Hin as [<-|Hin]; [by rewrite Hone|].
    rewrite Forall_forall in Hall. specialize (Hall _ Hin). unfold score_ge in Hall.
    by rewrite Hone in Hall.
Qed.

Lemma tag_exacto_encabeza_witness :
  ∃ r rs, encontrados (buscar lower_ascii una_fecha "report" args_defecto db_informes)
          = r :: rs ∧ (r_score r == 1)%Q.
Proof.
  apply (tag_exacto_encabeza lower_ascii una_fecha "report" args_defecto db_informes
           fila_xyz).
  - vm_compute. do 2 right. by left.
  - reflexivity.
  - vm_compute. by left.
  - vm_compute. discriminate.
  - reflexivity.
Defined.

(** *** Entries of equal score *)

#[local] Instance Qeq_decision (x y : Q) : Decision (x == y)%Q := Qeq_dec x y.

Lemma filter_score_nil (s : Q) (x : resultado) (l : list resultado) :
  (r_score x == s)%Q → Forall (fun y => r_score y < r_score x)%Q l →
  filter (fun r => r_score r == s)%Q l = [].
Proof.
  intros Hx. induction 1 as [|y l Hy _ IH]; [done|].
  rewrite filter_cons_False; [done|].
  intros Hys. rewrite Hys, <- Hx in Hy. by apply Qlt_irrefl in Hy.
Qed.

Lemma insertar_desc_filter (s : Q) (x : resultado) (l : list resultado) :
  StronglySorted score_ge l →
  filter (fun r => r_score r == s)%Q (insertar_desc x l)
  = filter (fun r => r_score r == s)%Q l ++ (if decide (r_score x == s)%Q then [x] else []).
Proof.
  induction 1 as [|y l Hs IH Hall]; simpl.
  - rewrite filter_cons, filter_nil. by case_decide.
  - destruct (Qlt_bool (r_score y) (r_score x)) eqn:E.
    + apply Qlt_bool_iff in E. rewrite (filter_cons _ x).
      destruct (decide (r_score x == s)%Q) as [Hx|Hx]; [|by rewrite app_nil_r].
      rewrite (filter_score_nil s x (y :: l)); [done|done|].
      constructor; [done|]. eapply Forall_impl; [exact Hall|].
      intros z Hz. unfold score_ge in Hz. eapply Qle_lt_trans; [exact Hz|exact E].
    + rewrite !(filter_cons _ y), IH. clear IH. by destruct (decide (r_score y == s)%Q).
Qed.

Lemma sort_desc_filter (s : Q) (l : list resultado) :
  filter (fun r => r_score r == s)%Q (sort_desc l) = filter (fun r => r_score r == s)%Q l.
Proof.
  unfold sort_desc.
  enough (∀ acc, StronglySorted score_ge acc →
            filter (fun r => r_score r == s)%Q (foldl (fun acc x => insertar_desc x acc) acc l)
            = filter (fun r => r_score r == s)%Q acc ++ filter (fun r => r_score r == s)%Q l)
    as Hacc by (apply (Hacc []); constructor).
  induction l as [|x l IH]; intros acc Hacc; simpl; [by rewrite app_nil_r|].
  rewrite IH by by apply insertar_desc_sorted.
  rewrite insertar_desc_filter, <- app_assoc by done. f_equal.
  rewrite filter_cons. by case_decide.
Qed.

(** X17. The sort of [buscar] looks at the score alone and is stable: the
    entries of any one score stand in the result list in the order in which
    the table scan gave their rows. *)
Theorem buscar_empates (lower : string → string)
    (fromisoformat_timestamp : string → option Q)
    (query : string) (args : Namespace) (conn : database) (s : Q) :
  filter (fun r => r_score r == s)%Q
    (resultados lower fromisoformat_timestamp query args conn)
  = filter (fun r => r_score r == s)%Q
      ((fun row => puntuar lower query row conn)
         <$> filter (fun row => entra lower fromisoformat_timestamp query args conn row)
               (archivos conn)).
Proof. unfold resultados. by rewrite sort_desc_filter, buscar_filas. Qed.

(** ** More on [SequenceMatcher]: scores of 1.0 and of 0.0 *)

Module difflib_scores.
Import difflib difflib_facts.
Section SequenceMatcher.
Context {A : Type} `{Countable A}.
Implicit Types (a b : list A) (b2j : gmap A (list nat)) (j2len : gmap nat nat).

(** An alignment cannot match more than what is left of either sequence. *)
Lemma alignment_cap a b ms c d :
  Forall (genuine a b) ms → StronglySorted precedes ms →
  Forall (fun m => c ≤ m_a m ∧ d ≤ m_b m) ms →
  sizes ms ≤ length a - c ∧ sizes ms ≤ length b - d.
Proof.
  intros Hgen Hs. revert c d. induction Hs as [|m ms Hs IH Hall]; intros c d Hlo.
  - unfold sizes; simpl. lia.
  - apply Forall_cons in Hgen as [Hm Hgen]. apply Forall_cons in Hlo as [[Hc Hd] Hlo].
    destruct (IH Hgen (m_a m + m_size m) (m_b m + m_size m)) as [IHa IHb].
    { eapply Forall_impl; [exact Hall|]. intros m' Hp. exact Hp. }
    unfold sizes in *. csimpl.
    destruct (decide (m_size m = 0)) as [Hz|Hnz]; [lia|].
    destruct (genuine_within a b m Hm Hnz). lia.
Qed.

(** An alignment that matches all that is left of two sequences of one
    length pairs every position with itself. *)
Lemma alignment_full a b ms c :
  length a = length b →
  Forall (genuine a b) ms → StronglySorted precedes ms →
  Forall (fun m => c ≤ m_a m ∧ c ≤ m_b m) ms →
  length a - c ≤ sizes ms →
  ∀ p, c ≤ p < length a → a !! p = b !! p.
Proof.
  intros Hlen Hgen Hs. revert c.
  induction Hs as [|m ms Hs IH Hall]; intros c Hlo Hsum p Hp.
  - unfold sizes in Hsum; simpl in Hsum. lia.
  - apply Forall_cons in Hgen as [Hm Hgen]. apply Forall_cons in Hlo as [[Hc Hd] Hlo].
    assert (Forall (fun m' => m_a m + m_size m ≤ m_a m' ∧ m_b m + m_size m ≤ m_b m') ms)
      as Hnext.
    { eapply Forall_impl; [exact Hall|]. intros m' Hp'. exact Hp'. }
    destruct (alignment_cap a b ms _ _ Hgen Hs Hnext) as [Hcapa Hcapb].
    unfold sizes in *. csimpl in Hsum.
    destruct (decide (m_size m = 0)) as [Hz|Hnz].
    + apply (IH Hgen c); [|lia|done].
      eapply Forall_impl; [exact Hnext|]. simpl. lia.
    + destruct (genuine_within a b m Hm Hnz) as [Hwa Hwb].
      assert (m_a m = c) as Hi by lia. assert (m_b m = c) as Hj by lia.
      destruct (decide (p < c + m_size m)) as [Hin|Hout].
      * destruct (Hm (p - c)) as (x & Ha & Hb); [lia|].
        rewrite Hi in Ha. rewrite Hj in Hb.
        replace (c + (p - c)) with p in Ha, Hb by lia. congruence.
      * apply (IH Hgen (c + m_size m)); [|lia|lia].
        eapply Forall_impl; [exact Hnext|]. simpl. lia.
Qed.

Lemma inject_Z_nat_ne_0 (n : nat) : n ≠ 0 → ¬ (inject_Z (Z.of_nat n) == 0)%Q.
Proof. intros Hn. change 0%Q with (inject_Z 0). rewrite inject_Z_injective. lia. Qed.

(** The quotient, cleared of its denominator. *)
Lemma ratio_times_length a b :
  length a + length b ≠ 0 →
  (ratio a b * inject_Z (Z.of_nat (length a + length b))
   == inject_Z (Z.of_nat (2 * matches a b)))%Q.
Proof.
  intros Hlen. unfold ratio, _calculate_ratio. rewrite decide_True by done.
  pose proof (inject_Z_nat_ne_0 _ Hlen) as Hne.
  rewrite Nat2Z.inj_mul, inject_Z_mult. simpl (Z.of_nat 2). field. exact Hne.
Qed.

(** Only a sequence against itself scores 1.0. *)
Lemma ratio_1_eq a b : (ratio a b == 1)%Q → a = b.
Proof.
  intros Hq. destruct (decide (length a + length b = 0)) as [Hz|Hnz].
  - destruct a, b; simpl in Hz; try lia. done.
  - pose proof (ratio_times_length a b Hnz) as Hr. rewrite Hq, Qmult_1_l in Hr.
    rewrite inject_Z_injective in Hr.
    pose proof (matches_le a b) as Hle.
    assert (length a = length b) as Hlen by lia.
    assert (length a ≤ matches a b) as Hall by lia.
    destruct (get_matching_blocks_alignment a b) as [Hgen Hs].
    apply list_eq. intros p.
    destruct (decide (p < length a)) as [Hp|Hp].
    + apply (alignment_full a b (get_matching_blocks a b) 0 Hlen Hgen Hs).
      * apply Forall_forall. intros m _. lia.
      * unfold sizes. fold (matches a b). lia.
      * lia.
    + rewrite !lookup_ge_None_2; [done|lia|lia].
Qed.

(** Sequences with no element in common match nothing. *)
Lemma matches_0 a b : (∀ x, x ∈ a → x ∉ b) → matches a b = 0.
Proof.
  intros Hno. unfold matches.
  pose proof (get_matching_blocks_genuine a b) as Hgen.
  induction Hgen as [|m ms Hm _ IH]; [done|]. csimpl. rewrite IH.
  destruct (decide (m_size m = 0)) as [Hz|Hnz]; [lia|].
  destruct (Hm 0) as (x & Ha & Hb); [lia|].
  destruct (Hno x); by eapply list_elem_of_lookup_2.
Qed.

(** *** The search finds something when there is something to find *)

Lemma scan_row_grows j2len i blo bhi js newj2len best :
  m_size best ≤ m_size (scan_row j2len i blo bhi js newj2len best).2.
Proof.
  revert newj2len best. induction js as [|j js IH]; intros newj2len best; simpl; [done|].
  destruct (decide (j < blo)); [apply IH|].
  destruct (decide (bhi ≤ j)); [done|].
  etrans; [|apply IH]. case_decide; [|done]. unfold m_size in *. simpl. lia.
Qed.

Lemma scan_row_finds j2len i blo bhi js newj2len best :
  (∀ j, j ∈ js → blo ≤ j < bhi) → js ≠ [] →
  1 ≤ m_size (scan_row j2len i blo bhi js newj2len best).2.
Proof.
  intros Hrange Hne. destruct js as [|j js]; [done|]. simpl.
  destruct (Hrange j) as [Hlo Hhi]; [by left|].
  rewrite decide_False by lia. rewrite decide_False by lia.
  etrans; [|apply scan_row_grows]. case_decide; unfold m_size in *; simpl; lia.
Qed.

Lemma scan_rows_finds a b2j alo ahi blo bhi i x js :
  (∀ y js' j, b2j !! y = Some js' → j ∈ js' → blo ≤ j < bhi) →
  alo ≤ i < ahi → a !! i = Some x → b2j !! x = Some js → js ≠ [] →
  1 ≤ m_size (scan_rows a b2j alo ahi blo bhi).
Proof.
  intros Hrange Hi Hx Hjs Hne. unfold scan_rows.
  pose (P := fun (n : nat) (st : gmap nat nat * Match) => i < n → 1 ≤ m_size st.2).
  enough (P (alo + (ahi - alo)) (foldl (scan_step a b2j blo bhi) (∅, (alo, blo, 0))
            (seq alo (ahi - alo)))) as HP by (apply HP; lia).
  apply foldl_seq_invariant.
  - intros Hlt. lia.
  - intros n [j2len best] Hn HP Hlt. unfold scan_step. simpl in *.
    destruct (decide (i = n)) as [->|Hin].
    + rewrite Hx, Hjs. simpl. apply scan_row_finds; [|done].
      intros j Hj. by apply (Hrange x js).
    + etrans; [|apply scan_row_grows]. apply HP. lia.
Qed.

Lemma extend_grows junk a b alo ahi blo bhi m :
  m_size m ≤ m_size (extend junk a b alo ahi blo bhi m).
Proof.
  destruct m as [[i j] k]. unfold extend, m_a, m_b, m_size; simpl.
  destruct (extend_left_spec junk a b alo blo i j k) as (d & -> & _).
  destruct (extend_right_spec junk a b bhi (i - d) (j - d) (ahi - (i - d + (k + d))) (k + d))
    as (e & -> & _).
  simpl. lia.
Qed.

Lemma matching_loop_grows a b b2j queue blocks :
  sizes blocks ≤ sizes (matching_loop a b b2j queue blocks).
Proof.
  funelim (matching_loop a b b2j queue blocks).
  - done.
  - done.
  - etrans; [|apply H0]. rewrite sizes_app. lia.
Qed.

(** Without [autojunk] at work, that is for a [b] of fewer than 200
    elements, an element in common is matched. *)
Lemma matches_pos a b x : length b < 200 → x ∈ a → x ∈ b → 0 < matches a b.
Proof.
  intros Hshort Ha Hb. rewrite matches_loop, matching_loop_cons.
  apply list_elem_of_lookup_1 in Ha as [i Hi]. apply list_elem_of_lookup_1 in Hb as [j Hj].
  assert (chain_b b = index_b b) as Hchain.
  { unfold chain_b. by rewrite decide_False by lia. }
  pose proof (index_b_positions b x) as [_ Hpos].
  destruct (index_b b !! x) as [js|] eqn:Ejs; simpl in Hpos;
    [|by apply Hpos, elem_of_nil in Hj].
  assert (1 ≤ m_size (find_in a b (chain_b b) (0, length a, 0, length b))) as Hfound.
  { unfold find_in, find_longest_match. do 2 (etrans; [|apply extend_grows]).
    apply (scan_rows_finds a (chain_b b) 0 (length a) 0 (length b) i x js).
    - intros y js' j' Hy Hj'. apply (chain_b_positions b y js' Hy) in Hj'.
      apply lookup_lt_Some in Hj'. lia.
    - apply lookup_lt_Some in Hi. lia.
    - done.
    - by rewrite Hchain.
    - intros ->. by apply Hpos, elem_of_nil in Hj. }
  set (m := find_in a b (chain_b b) (0, length a, 0, length b)) in *.
  rewrite decide_False by lia.
  eapply Nat.lt_le_trans; [|apply matching_loop_grows].
  clearbody m. unfold sizes. simpl. lia.
Qed.

Lemma ratio_0_iff a b :
  length a + length b ≠ 0 → (ratio a b == 0)%Q ↔ matches a b = 0.
Proof.
  intros Hlen. pose proof (ratio_times_length a b Hlen) as Hr.
  pose proof (inject_Z_nat_ne_0 _ Hlen) as Hne. split.
  - intros Hq. rewrite Hq, Qmult_0_l in Hr. change 0%Q with (inject_Z 0) in Hr.
    rewrite inject_Z_injective in Hr. lia.
  - intros Hm. rewrite Hm in Hr. simpl in Hr.
    apply Qmult_integral in Hr as [Hr|Hr]; [done|]. destruct (Hne Hr).
Qed.

End SequenceMatcher.
End difflib_scores.


(** X18. A score of 1.0 means the same string up to case, and nothing
    else: [score_nombre] is 1.0 exactly when the two lower-cased strings
    are equal. *)
Theorem score_nombre_uno (lower : string → string) (query name : string) :
  (score_nombre lower query name == 1)%Q ↔ lower query = lower name.
Proof.
  unfold score_nombre. split.
  - intros Hq. apply difflib_scores.ratio_1_eq in Hq.
    rewrite <- (string_of_list_ascii_of_string (lower query)), Hq.
    apply string_of_list_ascii_of_string.
  - intros ->. apply difflib_facts.ratio_self.
Qed.

(** X19. When the two lower-cased strings are not both empty and share no
    character the score is 0.0; and for a name of fewer than 200
    characters, where [autojunk] is idle, a score of 0.0 means they share
    none. *)
Theorem score_nombre_cero (lower : string → string) (query name : string) :
  lower query ≠ "" ∨ lower name ≠ "" →
  ((∀ c, c ∈ minusculas lower query → c ∉ minusculas lower name) →
   (score_nombre lower query name == 0)%Q)
  ∧ (String.length (lower name) < 200 →
     (score_nombre lower query name == 0)%Q →
     ∀ c, c ∈ minusculas lower query → c ∉ minusculas lower name).
Proof.
  intros Hne. unfold score_nombre, minusculas.
  assert (length (list_ascii_of_string (lower query))
          + length (list_ascii_of_string (lower name)) ≠ 0) as Hlen.
  { rewrite !length_list_ascii.
    destruct Hne as [Hq|Hn]; [destruct (lower query)|destruct (lower name)];
      simpl; try done; lia. }
  split.
  - intros Hno. apply difflib_scores.ratio_0_iff; [done|].
    by apply difflib_scores.matches_0.
  - intros Hshort Hq c Ha Hb. apply difflib_scores.ratio_0_iff in Hq; [|done].
    rewrite <- length_list_ascii in Hshort.
    pose proof (difflib_scores.matches_pos _ _ c Hshort Ha Hb). lia.
Qed.

Lemma score_nombre_cero_witness :
  (score_nombre lower_ascii "ABC" "xyz.log" == 0)%Q.
Proof.
  apply (score_nombre_cero lower_ascii "ABC" "xyz.log"); [left; discriminate|].
  intros c Ha Hb. vm_compute in Ha, Hb.
  repeat (apply elem_of_cons in Ha as [->|Ha];
          [repeat (apply elem_of_cons in Hb as [Hb|Hb]; [discriminate|]);
           by apply elem_of_nil in Hb|]).
  by apply elem_of_nil in Ha.
Defined.

(** The lengths alone bound the score. *)
Lemma score_nombre_cota (lower : string → string) (query name : string) :
  (score_nombre lower query name
   * inject_Z (Z.of_nat (String.length (lower query) + String.length (lower name)))
   <= inject_Z (Z.of_nat (2 * (String.length (lower query) `min` String.length (lower name)))))%Q.
Proof.
  unfold score_nombre. rewrite <- !length_list_ascii.
  set (a := list_ascii_of_string (lower query)). set (b := list_ascii_of_string (lower name)).
  pose proof (difflib_facts.matches_le a b) as Hle.
  destruct (decide (length a + length b = 0)) as [Hz|Hnz].
  - rewrite Hz. assert (length a `min` length b = 0) as -> by lia.
    simpl. rewrite Qmult_0_r. done.
  - rewrite (difflib_scores.ratio_times_length a b Hnz), <- Zle_Qle. lia.
Qed.

(** A score so bounded that reaches 0.4 needs lengths within a factor of four. *)
Lemma cota_de_umbral (s : Q) (la lb : nat) :
  (s * inject_Z (Z.of_nat (la + lb)) <= inject_Z (Z.of_nat (2 * (la `min` lb))))%Q →
  (4 # 10 <= s)%Q → la ≤ 4 * lb ∧ lb ≤ 4 * la.
Proof.
  intros Hbound Hth.
  assert (0 <= inject_Z (Z.of_nat (la + lb)))%Q as Hpos.
  { change 0%Q with (inject_Z 0). rewrite <- Zle_Qle. lia. }
  assert ((4 # 10) * inject_Z (Z.of_nat (la + lb))
          <= inject_Z (Z.of_nat (2 * (la `min` lb))))%Q as Hfin.
  { eapply Qle_trans; [|exact Hbound]. by apply Qmult_le_compat_r. }
  assert (inject_Z (Z.of_nat (4 * (la + lb))) <= inject_Z (Z.of_nat (20 * (la `min` lb))))%Q
    as Hz.
  { rewrite !Nat2Z.inj_mul, !inject_Z_mult in *.
    change (inject_Z (Z.of_nat 2)) with 2%Q in Hfin.
    change (inject_Z (Z.of_nat 4)) with 4%Q. change (inject_Z (Z.of_nat 20)) with 20%Q.
    clear Hbound. lra. }
  rewrite <- Zle_Qle in Hz. lia.
Qed.

(** X20. The score is bounded by the lengths alone: it is at most twice the
    shorter lower-cased length over the sum of the two; so a score that
    reaches the default threshold of 0.4 needs lengths within a factor of
    four of each other. *)
Theorem score_nombre_longitudes (lower : string → string) (query name : string) :
  let la := String.length (lower query) in
  let lb := String.length (lower name) in
  (score_nombre lower query name * inject_Z (Z.of_nat (la + lb))
   <= inject_Z (Z.of_nat (2 * (la `min` lb))))%Q
  ∧ ((4 # 10 <= score_nombre lower query name)%Q → la ≤ 4 * lb ∧ lb ≤ 4 * la).
Proof.
  intros la lb. pose proof (score_nombre_cota lower query name) as Hbound.
  fold la lb in Hbound. split; [exact Hbound|].
  intros Hth. by apply (cota_de_umbral (score_nombre lower query name)).
Qed.

(** Lengths within a factor of four of each other, lower-cased. *)
Definition longitud_cercana (lower : string → string) (query s : string) : Prop :=
  String.length (lower query) ≤ 4 * String.length (lower s)
  ∧ String.length (lower s) ≤ 4 * String.length (lower query).

(** X21. With a threshold of 0.4 or more, or one left at 0.0, [buscar]
    prints a row that does not have the query among its tags only if the
    length of its name or of its path is within a factor of four of the
    length of the query. *)
Theorem encontrado_longitudes (lower : string → string)
    (fromisoformat_timestamp : string → option Q)
    (query : string) (args : Namespace) (conn : database) (r : resultado) :
  r ∈ encontrados (buscar lower fromisoformat_timestamp query args conn) →
  query ∉ r_tags r →
  (4 # 10 <= umbral args)%Q →
  longitud_cercana lower query (r_name r) ∨ longitud_cercana lower query (r_path r).
Proof.
  intros Hr Htag Hum. rewrite encontrados_buscar in Hr.
  apply slice_to_subseteq, elem_of_resultados in Hr as (row & _ & _ & Hs & ->).
  simpl in *. rewrite pymax3_Qmax, bool_decide_eq_false_2 in Hs by done.
  assert (4 # 10 <= Qmax (Qmax (score_nombre lower query (f_name row))
                            (score_nombre lower query (f_path row))) 0)%Q as Hmax.
  { eapply Qle_trans; [exact Hum|exact Hs]. }
  apply Q.max_le in Hmax as [Hmax|Hzero]; [|by vm_compute in Hzero].
  apply Q.max_le in Hmax as [Hn|Hp]; [left|right].
  - apply (cota_de_umbral (score_nombre lower query (f_name row))); [|done].
    apply score_nombre_cota.
  - apply (cota_de_umbral (score_nombre lower query (f_path row))); [|done].
    apply score_nombre_cota.
Qed.

Lemma encontrado_longitudes_witness :
  longitud_cercana lower_ascii "report" "report.pdf"
  ∨ longitud_cercana lower_ascii "report" "/d/report.pdf".
Proof.
  apply (encontrado_longitudes lower_ascii una_fecha "report" args_defecto db_informes
           (puntuar lower_ascii "report" fila_report db_informes)).
  - vm_compute. right. by left.
  - vm_compute. apply not_elem_of_nil.
  - vm_compute. discriminate.
Defined.

(** X22. What [indexar] has read, a search by name finds: with no filter
    option given and a threshold of at most 1.0, the result list of a
    search for the name of a file that was read holds an entry for its
    path, and the entry scores 1.0. *)
Theorem buscar_tras_indexar (lower : string → string)
    (fromisoformat_timestamp : string → option Q) (os : sistema) (ruta : string)
    (conn conn' : database) (verbose : bool) (out : list salida)
    (rf : string * string) (c : columnas) (limit : Z) (threshold : Q) :
  path_exists os (Path os ruta) = Some true →
  indexar lower os ruta conn verbose = Ok (conn', out) →
  rf ∈ archivos_de (os_walk os (Path os ruta)) →
  leido lower os rf = Some c →
  (threshold <= 1)%Q →
  ∃ r, r ∈ resultados lower fromisoformat_timestamp (c_name c)
             (Args None None None None None None limit threshold) conn'
       ∧ r_path r = c_path c ∧ (r_score r == 1)%Q.
Proof.
  intros Hex Hix Hrf Hc Hth.
  destruct (indexar_spec lower os ruta conn verbose Hex) as (tabla' & Hix' & Hcols & _).
  rewrite Hix' in Hix. injection Hix as <- <-.
  destruct (una_fila_leida lower os ruta (columnas_de <$> archivos conn) tabla' c Hcols)
    as (row & Hrow & <-).
  { unfold leidos. apply list_elem_of_omap. by exists rf. }
  set (conn' := Database tabla' (tags conn)).
  set (args := Args None None None None None None limit threshold).
  assert (r_score (puntuar lower (f_name row) row conn') == 1)%Q as Hone.
  { apply Qle_antisym; [apply puntuar_le_1|].
    simpl. rewrite pymax3_Qmax. apply Q.max_le_iff. left. apply Q.max_le_iff. left.
    unfold score_nombre. rewrite difflib_facts.ratio_self. apply Qle_refl. }
  exists (puntuar lower (f_name row) row conn'). split; [|split; [done|exact Hone]].
  apply elem_of_resultados. exists row. split; [|split; [done|split; [|done]]].
  - assert (row ∈ filter (fun r => f_path r = c_path (columnas_de row)) tabla') as Hin
      by (rewrite Hrow; by left).
    by apply list_elem_of_filter in Hin as [_ Hin].
  - rewrite Hone. unfold umbral. simpl. by destruct (truthy_float threshold).
Qed.

Lemma buscar_tras_indexar_witness :
  ∃ r, r ∈ resultados lower_ascii una_fecha "informe.PDF"
             (Args None None None None None None 20 (4 # 10)) db_indexada
       ∧ r_path r = "/d/informe.PDF" ∧ (r_score r == 1)%Q.
Proof.
  apply (buscar_tras_indexar lower_ascii una_fecha os_ejemplo "/d" db_vacia db_indexada
           false [IndexacionCompletada 2] ("/d", "informe.PDF")
           (Columnas "/d/informe.PDF" "informe.PDF" "pdf" 2048 (inject_Z 100)) 20 (4 # 10));
    try reflexivity.
  - apply list_elem_of_here.
  - vm_compute. discriminate.
Defined.

(** ** The search of the menu: [buscar_archivos]

    [difflib.get_close_matches], transcribed from CPython's
    [Lib/difflib.py] like [SequenceMatcher] above.  The matcher is built
    with [s.set_seq2(word)], so [word] is the second sequence of every
    comparison, and each of the possibilities is the first. *)

Module difflib_close.
Import difflib.
Section Ratios.
Context {A : Type} `{Countable A}.
Implicit Types (a b : list A).

(** [real_quick_ratio]. *)
Definition real_quick_ratio a b : Q :=
  _calculate_ratio (length a `min` length b) (length a + length b).

(** [fullbcount[elt] = fullbcount.get(elt, 0) + 1] for each [elt] of [b]. *)
Definition fullbcount b : gmap A nat :=
  foldl (fun fbc elt => <[elt := default 0 (fbc !! elt) + 1]> fbc) ∅ b.

(** The body of [for elt in self.a] in [quick_ratio]; the state is
    [(avail, matches)], and the numbers in [avail] go below zero. *)
Definition quick_step (fbc : gmap A nat) (st : gmap A Z * nat) (elt : A) : gmap A Z * nat :=
  let numb := match st.1 !! elt with
              | Some numb => numb
              | None => Z.of_nat (default 0 (fbc !! elt))
              end in
  (<[elt := (numb - 1)%Z]> st.1, if decide (0 < numb)%Z then st.2 + 1 else st.2).

Definition quick_matches a b : nat := (foldl (quick_step (fullbcount b)) (∅, 0) a).2.

Definition quick_ratio a b : Q := _calculate_ratio (quick_matches a b) (length a + length b).

End Ratios.

(** [(score, x) < (score', x')] on tuples of a float and a [str]. *)
Definition tuple_lt (p q : Q * string) : bool :=
  Qlt_bool p.1 q.1 || (Qeq_bool p.1 q.1 && String.ltb p.2 q.2).

(** [heapq.nlargest(n, result)], which is [sorted(result, reverse=True)[:n]]. *)
Fixpoint insertar_mayor (p : Q * string) (l : list (Q * string)) : list (Q * string) :=
  match l with
  | [] => [p]
  | q :: l' => if tuple_lt q p then p :: l else q :: insertar_mayor p l'
  end.

Definition sorted_reverse (l : list (Q * string)) : list (Q * string) :=
  foldl (fun acc p => insertar_mayor p acc) [] l.

Definition nlargest (n : nat) (l : list (Q * string)) : list (Q * string) :=
  take n (sorted_reverse l).

(** The score of a possibility [x] against [word]. *)
Definition puntos (word x : string) : Q :=
  ratio (list_ascii_of_string x) (list_ascii_of_string word).

(** The three tests that let [x] into [result]. *)
Definition pasa (word : string) (cutoff : Q) (x : string) : bool :=
  Qle_bool cutoff (real_quick_ratio (list_ascii_of_string x) (list_ascii_of_string word))
  && Qle_bool cutoff (quick_ratio (list_ascii_of_string x) (list_ascii_of_string word))
  && Qle_bool cutoff (puntos word x).

(** [get_close_matches(word, possibilities, n, cutoff)]; [None] stands for
    the [ValueError] of the two checks at its head. *)
Definition get_close_matches (word : string) (possibilities : list string) (n : Z) (cutoff : Q)
    : option (list string) :=
  if negb (0 <? n)%Z then None
  else if negb (Qle_bool 0 cutoff && Qle_bool cutoff 1) then None
  else
    let result := (fun x => (puntos word x, x)) <$> filter (fun x => pasa word cutoff x) possibilities in
    Some (nlargest (Z.to_nat n) result).*2.

End difflib_close.

(** [buscar_archivos]; its [archivos] is any list of paths. *)
Definition buscar_archivos (archivos : list string) (termino : string) : option (list string) :=
  difflib_close.get_close_matches termino archivos 10 (3 # 10).

(** *** The two quick ratios are upper bounds *)

Module difflib_close_facts.
Import difflib difflib_facts difflib_close.
Section Ratios.
Context {A : Type} `{Countable A}.
Implicit Types (a b : list A).

Lemma _calculate_ratio_mono (m m' len : nat) :
  m ≤ m' → (_calculate_ratio m len <= _calculate_ratio m' len)%Q.
Proof.
  intros Hm. unfold _calculate_ratio. case_decide as Hlen; [|done].
  unfold Qdiv. apply Qmult_le_compat_r.
  - apply Qmult_le_l; [done|]. rewrite <- Zle_Qle. lia.
  - apply Qinv_le_0_compat. change 0%Q with (inject_Z 0). rewrite <- Zle_Qle. lia.
Qed.

Lemma ratio_le_real_quick_ratio a b : (ratio a b <= real_quick_ratio a b)%Q.
Proof. apply _calculate_ratio_mono, matches_le. Qed.

Lemma list_to_set_disj_snoc (l : list A) (y : A) :
  list_to_set_disj (l ++ [y]) =@{gmultiset A} list_to_set_disj l ⊎ {[+ y +]}.
Proof. rewrite list_to_set_disj_app. simpl. multiset_solver. Qed.

(** [fullbcount] counts the occurrences in [b]. *)
Lemma fullbcount_multiplicity b x :
  default 0 (fullbcount b !! x) = multiplicity x (list_to_set_disj b).
Proof.
  unfold fullbcount. induction b as [|y b IH] using rev_ind.
  - simpl. by rewrite lookup_empty, multiplicity_empty.
  - rewrite foldl_snoc, list_to_set_disj_snoc, multiplicity_disj_union.
    destruct (decide (y = x)) as [->|Hne].
    + rewrite lookup_insert_eq, multiplicity_singleton_eq. simpl. lia.
    + rewrite lookup_insert_ne, multiplicity_singleton_ne by done. lia.
Qed.

(** The loop of [quick_ratio] counts the multiset intersection. *)
Lemma quick_matches_size a b :
  quick_matches a b = size (list_to_set_disj a ∩ list_to_set_disj b : gmultiset A).
Proof.
  unfold quick_matches. set (B := list_to_set_disj b : gmultiset A).
  pose (numb_of := fun (avail : gmap A Z) (x : A) =>
          match avail !! x with
          | Some n => n
          | None => Z.of_nat (default 0 (fullbcount b !! x))
          end).
  enough (∀ a1 : list A,
            (∀ x, numb_of (foldl (quick_step (fullbcount b)) (∅, 0) a1).1 x
                  = (Z.of_nat (multiplicity x B)
                     - Z.of_nat (multiplicity x (list_to_set_disj a1 : gmultiset A)))%Z)
            ∧ (foldl (quick_step (fullbcount b)) (∅, 0) a1).2
              = size ((list_to_set_disj a1 : gmultiset A) ∩ B)) as Hinv by apply Hinv.
  induction a1 as [|elt a1 [IHavail IHm]] using rev_ind.
  - split.
    + intros x. unfold numb_of. simpl. rewrite lookup_empty, fullbcount_multiplicity.
      rewrite multiplicity_empty. fold B. lia.
    + simpl. assert ((∅ : gmultiset A) ∩ B = ∅) as -> by multiset_solver.
      symmetry. apply (@gmultiset_size_empty A _ _).
  - rewrite foldl_snoc, list_to_set_disj_snoc.
    set (st := foldl (quick_step (fullbcount b)) (∅, 0) a1) in *.
    set (A1 := list_to_set_disj a1 : gmultiset A) in *.
    unfold quick_step. fold (numb_of st.1 elt). rewrite IHavail. simpl. split.
    + intros x. unfold numb_of. rewrite multiplicity_disj_union.
      destruct (decide (elt = x)) as [->|Hne].
      * rewrite lookup_insert_eq, multiplicity_singleton_eq. lia.
      * rewrite lookup_insert_ne, multiplicity_singleton_ne by done.
        specialize (IHavail x). unfold numb_of in IHavail. rewrite IHavail. lia.
    + rewrite IHm. case_decide as Hnumb.
      * assert ((A1 ⊎ {[+ elt +]}) ∩ B = (A1 ∩ B) ⊎ {[+ elt +]}) as ->.
        { apply gmultiset_eq. intros y.
          rewrite multiplicity_intersection, !multiplicity_disj_union,
            multiplicity_intersection.
          destruct (decide (y = elt)) as [->|Hne].
          - rewrite multiplicity_singleton_eq. lia.
          - rewrite multiplicity_singleton_ne by done. lia. }
        rewrite gmultiset_size_disj_union, gmultiset_size_singleton. done.
      * f_equal. apply gmultiset_eq. intros y.
        rewrite !multiplicity_intersection, multiplicity_disj_union.
        destruct (decide (y = elt)) as [->|Hne].
        -- rewrite multiplicity_singleton_eq. lia.
        -- rewrite multiplicity_singleton_ne by done. lia.
Qed.

Lemma StronglySorted_weaken {T : Type} (R R' : relation T) (l : list T) :
  (∀ x y, R x y → R' x y) → StronglySorted R l → StronglySorted R' l.
Proof.
  intros HR. induction 1 as [|x l Hs IH Hall]; constructor; [done|].
  eapply Forall_impl; [exact Hall|]. apply HR.
Qed.

(** What the blocks match, read off one of the sequences. *)
Definition matched (l : list A) (pos : Match → nat) (ms : list Match) : list A :=
  mjoin ((fun m => take (m_size m) (drop (pos m) l)) <$> ms).

Lemma matched_sublist (l : list A) (pos : Match → nat) (ms : list Match) (c : nat) :
  StronglySorted (fun m1 m2 => pos m1 + m_size m1 ≤ pos m2) ms →
  Forall (fun m => c ≤ pos m) ms →
  matched l pos ms `sublist_of` drop c l.
Proof.
  intros Hs. revert c. induction Hs as [|m ms Hs IH Hall]; intros c Hlo.
  - apply sublist_nil_l.
  - apply Forall_cons in Hlo as [Hc Hlo]. unfold matched. csimpl.
    rewrite <- (take_drop (pos m - c) (drop c l)), drop_drop.
    replace (c + (pos m - c)) with (pos m) by lia.
    apply sublist_inserts_l.
    rewrite <- (take_drop (m_size m) (drop (pos m) l)) at 2. rewrite drop_drop.
    apply sublist_app; [done|]. by apply IH.
Qed.

Lemma matched_length a b (ms : list Match) :
  Forall (genuine a b) ms → length (matched a m_a ms) = sizes ms.
Proof.
  unfold matched, sizes. induction 1 as [|m ms Hm _ IH]; csimpl; [done|].
  rewrite length_app, IH, length_take, length_drop. f_equal.
  destruct (decide (m_size m = 0)) as [Hz|Hnz]; [lia|].
  destruct (genuine_within a b m Hm Hnz). lia.
Qed.

Lemma matched_same a b (ms : list Match) :
  Forall (genuine a b) ms → matched a m_a ms = matched b m_b ms.
Proof.
  unfold matched. induction 1 as [|m ms Hm _ IH]; csimpl; [done|]. rewrite IH. f_equal.
  apply list_eq. intros p. rewrite !lookup_take, !lookup_drop.
  case_decide as Hp; [|done].
  destruct (Hm p Hp) as (x & -> & ->). done.
Qed.

Lemma sublist_list_to_set_disj (l1 l2 : list A) :
  l1 `sublist_of` l2 → list_to_set_disj l1 ⊆@{gmultiset A} list_to_set_disj l2.
Proof. induction 1; simpl; multiset_solver. Qed.

Lemma size_list_to_set_disj (l : list A) : size (list_to_set_disj l : gmultiset A) = length l.
Proof.
  induction l as [|x l IH]; simpl; [apply (@gmultiset_size_empty A _ _)|].
  by rewrite gmultiset_size_disj_union, gmultiset_size_singleton, IH.
Qed.

(** The matched elements are in both sequences, as often as they are
    matched: [quick_ratio] is an upper bound of [ratio]. *)
Lemma matches_le_quick_matches a b : matches a b ≤ quick_matches a b.
Proof.
  destruct (get_matching_blocks_alignment a b) as [Hgen Hs].
  set (ms := get_matching_blocks a b) in *.
  assert (matched a m_a ms `sublist_of` a) as Hsa.
  { apply (matched_sublist a m_a ms 0).
    - eapply StronglySorted_weaken; [|exact Hs]. by intros m1 m2 [Hp _].
    - apply Forall_forall. intros m _. lia. }
  assert (matched a m_a ms `sublist_of` b) as Hsb.
  { rewrite (matched_same a b ms Hgen). apply (matched_sublist b m_b ms 0).
    - eapply StronglySorted_weaken; [|exact Hs]. by intros m1 m2 [_ Hp].
    - apply Forall_forall. intros m _. lia. }
  rewrite quick_matches_size.
  change (matches a b) with (sizes ms).
  rewrite <- (matched_length a b ms Hgen), <- size_list_to_set_disj.
  apply gmultiset_subseteq_size.
  apply sublist_list_to_set_disj in Hsa, Hsb. multiset_solver.
Qed.

Lemma ratio_le_quick_ratio a b : (ratio a b <= quick_ratio a b)%Q.
Proof. apply _calculate_ratio_mono, matches_le_quick_matches. Qed.

End Ratios.

(** So the two quick tests never turn down what the third would let in. *)
Lemma pasa_puntos (word : string) (cutoff : Q) (x : string) :
  pasa word cutoff x = Qle_bool cutoff (puntos word x).
Proof.
  unfold pasa. destruct (Qle_bool cutoff (puntos word x)) eqn:E; [|apply andb_false_r].
  apply Qle_bool_iff in E.
  rewrite (proj2 (Qle_bool_iff _ _)), (proj2 (Qle_bool_iff _ _)); [done|..].
  - eapply Qle_trans; [exact E|apply ratio_le_quick_ratio].
  - eapply Qle_trans; [exact E|apply ratio_le_real_quick_ratio].
Qed.

(** *** [nlargest] *)

Definition puntos_ge (p q : Q * string) : Prop := (q.1 <= p.1)%Q.

Lemma tuple_lt_le (p q : Q * string) : tuple_lt p q = true → puntos_ge q p.
Proof.
  unfold tuple_lt, puntos_ge. intros [Hlt|[Heq _]%andb_prop]%orb_prop.
  - by apply Qlt_le_weak, Qlt_bool_iff.
  - apply Qeq_bool_iff in Heq. rewrite Heq. apply Qle_refl.
Qed.

Lemma tuple_lt_false (p q : Q * string) : tuple_lt p q = false → puntos_ge p q.
Proof.
  unfold tuple_lt, puntos_ge. intros [Hlt _]%orb_false_elim. by apply Qlt_bool_false.
Qed.

Lemma insertar_mayor_Permutation p l : insertar_mayor p l ≡ₚ p :: l.
Proof.
  induction l as [|q l IH]; simpl; [done|].
  destruct (tuple_lt q p); [done|]. rewrite IH. apply Permutation_swap.
Qed.

Lemma insertar_mayor_sorted p l :
  StronglySorted puntos_ge l → StronglySorted puntos_ge (insertar_mayor p l).
Proof.
  induction 1 as [|q l Hs IH Hall]; simpl.
  - repeat constructor.
  - destruct (tuple_lt q p) eqn:E.
    + apply tuple_lt_le in E. constructor; [by constructor|].
      constructor; [done|].
      eapply Forall_impl; [exact Hall|]. intros z Hz. unfold puntos_ge in *.
      eapply Qle_trans; [exact Hz|exact E].
    + apply tuple_lt_false in E. constructor; [done|].
      rewrite insertar_mayor_Permutation. by constructor.
Qed.

Lemma sorted_reverse_Permutation l : sorted_reverse l ≡ₚ l.
Proof.
  unfold sorted_reverse.
  enough (∀ acc, foldl (fun acc p => insertar_mayor p acc) acc l ≡ₚ acc ++ l) as Hacc
    by apply (Hacc []).
  induction l as [|x l IH]; intros acc; simpl; [by rewrite app_nil_r|].
  rewrite IH, insertar_mayor_Permutation. simpl. apply Permutation_middle.
Qed.

Lemma sorted_reverse_sorted l : StronglySorted puntos_ge (sorted_reverse l).
Proof.
  unfold sorted_reverse.
  enough (∀ acc, StronglySorted puntos_ge acc →
            StronglySorted puntos_ge (foldl (fun acc p => insertar_mayor p acc) acc l))
    as Hacc by (apply Hacc; constructor).
  induction l as [|x l IH]; intros acc Hacc; simpl; [done|].
  by apply IH, insertar_mayor_sorted.
Qed.

(** The best [n] of a list under a score [f]. *)
Lemma sorted_by_score (f : string → Q) (s : list (Q * string)) :
  Forall (fun p => p.1 = f p.2) s → StronglySorted puntos_ge s →
  StronglySorted (fun x y => f y <= f x)%Q s.*2.
Proof.
  intros Hf Hs. induction Hs as [|p s Hs IH Hall]; csimpl; [constructor|].
  apply Forall_cons in Hf as [Hp Hf]. constructor; [by apply IH|].
  apply Forall_fmap, Forall_forall. intros q Hq. simpl.
  rewrite Forall_forall in Hall, Hf. specialize (Hall q Hq). specialize (Hf q Hq).
  unfold puntos_ge in Hall. by rewrite <- Hp, <- Hf.
Qed.

Lemma nlargest_best (f : string → Q) (l : list string) (n : nat) :
  let rs := (nlargest n ((fun x => (f x, x)) <$> l)).*2 in
  length rs ≤ n
  ∧ rs ⊆+ l
  ∧ StronglySorted (fun x y => f y <= f x)%Q rs
  ∧ ∀ x, x ∈ l → x ∈ rs ∨ (length rs = n ∧ ∀ y, y ∈ rs → (f x <= f y)%Q).
Proof.
  unfold nlargest. set (s := sorted_reverse ((fun x => (f x, x)) <$> l)).
  assert (s ≡ₚ (fun x => (f x, x)) <$> l) as Hperm by apply sorted_reverse_Permutation.
  assert (s.*2 ≡ₚ l) as Hperm2.
  { rewrite Hperm, <- list_fmap_compose. by rewrite list_fmap_id. }
  assert (StronglySorted (fun x y => f y <= f x)%Q s.*2) as Hsorted.
  { apply sorted_by_score; [|apply sorted_reverse_sorted].
    apply Forall_forall. intros p Hp. rewrite Hperm in Hp.
    by apply list_elem_of_fmap in Hp as (x & -> & _). }
  simpl. rewrite fmap_take. set (t := s.*2) in *. clearbody t. clear s Hperm.
  rewrite <- (take_drop n t) in Hsorted.
  split; [rewrite length_take; lia|].
  split; [rewrite <- Hperm2; apply submseteq_take|].
  split; [by apply StronglySorted_app_1_l in Hsorted|].
  intros x Hx. rewrite <- Hperm2, <- (take_drop n t), elem_of_app in Hx.
  destruct Hx as [Hx|Hx]; [by left|]. right. split.
  - apply list_elem_of_lookup_1 in Hx as [i Hi]. apply lookup_lt_Some in Hi.
    rewrite length_drop in Hi. rewrite length_take. lia.
  - intros y Hy. by apply (StronglySorted_app_1_elem_of _ _ _ _ _ Hsorted).
Qed.

(** When its two checks pass, [get_close_matches] gives the best [n] of the
    possibilities that score [cutoff] or more. *)
Lemma get_close_matches_best (word : string) (possibilities : list string) (n : Z) (cutoff : Q) :
  (0 < n)%Z → (0 <= cutoff <= 1)%Q →
  get_close_matches word possibilities n cutoff
  = Some (nlargest (Z.to_nat n)
            ((fun x => (puntos word x, x))
               <$> filter (fun x => Qle_bool cutoff (puntos word x)) possibilities)).*2.
Proof.
  intros Hn [Hc0 Hc1]. unfold get_close_matches.
  rewrite (proj2 (Z.ltb_lt 0 n) Hn). simpl.
  rewrite (proj2 (Qle_bool_iff 0 cutoff) Hc0), (proj2 (Qle_bool_iff cutoff 1) Hc1). simpl.
  do 4 f_equal. apply list_filter_iff. intros x. by rewrite pasa_puntos.
Qed.

End difflib_close_facts.

(** X23. [buscar_archivos] raises nothing and returns at most ten of the
    paths it was given, none more often than it was given, each scoring
    0.3 or more against the term, the better ones first. *)
Theorem buscar_archivos_devuelve (archivos : list string) (termino : string) :
  ∃ rs, buscar_archivos archivos termino = Some rs
    ∧ length rs ≤ 10
    ∧ rs ⊆+ archivos
    ∧ (∀ x, x ∈ rs → (3 # 10 <= difflib_close.puntos termino x)%Q)
    ∧ StronglySorted
        (fun x y => difflib_close.puntos termino y <= difflib_close.puntos termino x)%Q rs.
Proof.
  unfold buscar_archivos.
  rewrite difflib_close_facts.get_close_matches_best; [|done|by split].
  eexists. split; [reflexivity|].
  destruct (difflib_close_facts.nlargest_best (difflib_close.puntos termino)
              (filter (fun x => Qle_bool (3 # 10) (difflib_close.puntos termino x)) archivos)
              10)
    as (Hlen & Hsub & Hsorted & _).
  split; [exact Hlen|]. split; [|split; [|exact Hsorted]].
  - etrans; [exact Hsub|]. apply sublist_submseteq, sublist_filter.
  - intros x Hx. eapply elem_of_submseteq in Hx; [|exact Hsub].
    apply list_elem_of_filter in Hx as [Hx _]. by apply Qle_bool_iff, Is_true_true.
Qed.

(** X24. The two quick ratios that [get_close_matches] tests first lose
    nothing, and the ten returned are the best: a path given that scores
    0.3 or more against the term is returned, unless ten are returned that
    all score at least as much. *)
Theorem buscar_archivos_mejores (archivos : list string) (termino : string)
    (rs : list string) (x : string) :
  buscar_archivos archivos termino = Some rs →
  x ∈ archivos → (3 # 10 <= difflib_close.puntos termino x)%Q →
  x ∈ rs ∨ (length rs = 10
            ∧ ∀ y, y ∈ rs → (difflib_close.puntos termino x <= difflib_close.puntos termino y)%Q).
Proof.
  unfold buscar_archivos.
  rewrite difflib_close_facts.get_close_matches_best; [|done|by split].
  intros [= <-] Hx Hscore.
  destruct (difflib_close_facts.nlargest_best (difflib_close.puntos termino)
              (filter (fun x => Qle_bool (3 # 10) (difflib_close.puntos termino x)) archivos)
              10)
    as (_ & _ & _ & Hbest).
  apply Hbest. apply list_elem_of_filter. split; [|done].
  by apply Is_true_true, Qle_bool_iff.
Qed.

Lemma buscar_archivos_mejores_witness :
  "/d/ba" ∈ ["/d/ab"; "/d/xab"; "/d/abc"; "/d/ba"]
  ∨ (length ["/d/ab"; "/d/xab"; "/d/abc"; "/d/ba"] = 10
     ∧ ∀ y, y ∈ ["/d/ab"; "/d/xab"; "/d/abc"; "/d/ba"] →
            (difflib_close.puntos "/d/ab" "/d/ba" <= difflib_close.puntos "/d/ab" y)%Q).
Proof.
  apply (buscar_archivos_mejores ["/d/ab"; "/d/abc"; "/d/xab"; "zz"; "/d/ba"] "/d/ab").
  - vm_compute. reflexivity.
  - do 4 right. by left.
  - vm_compute. discriminate.
Defined.
